(** * Home Middleman: task automation engine

    A shallow embedding of the task engine of [index.js] and of the SQLite
    helpers of [db/drizzle.js]: the placeholder language expanded by
    [doTask], the retrying HTTP client [withRetries], the log sink
    [pushLog], the task and interval routes, the startup hydration, the
    runs whose request is refused, the timeouts of [/api/task/time/run],
    and the clipboard and notes.

    Conventions of the model.
    - A JavaScript string is a [list ascii]: UTF-16 code units restricted to
      the range 0..255.
    - A JavaScript number is an integer-valued IEEE double, kept as a [Z]
      and rounded to 53 significant bits after every operation, or [NaN].
    - SQL statements are total functions on tables; a table with a primary
      key is a [gmap]. *)

From Stdlib Require Import ZArith Ascii String List Lia Bool.
From stdpp Require Import base option list gmap strings sorting.

Local Open Scope Z_scope.

(* ================================================================= *)
(** ** JavaScript strings *)

Module JsString.

Definition str (s : string) : list ascii := list_ascii_of_string s.

(** [\d] *)
Definition is_digit (c : ascii) : bool :=
  match c with
  | "0" | "1" | "2" | "3" | "4" | "5" | "6" | "7" | "8" | "9" => true
  | _ => false
  end%char.

(** [\s], and the characters removed by [String.prototype.trim]: the
  white space and line terminator code units below 256. *)
Definition is_space (c : ascii) : bool :=
  match c with
  | "009" | "010" | "011" | "012" | "013" | " " | "160" => true
  | _ => false
  end%char.

(** [\S] *)
Definition is_nonspace (c : ascii) : bool := negb (is_space c).

(** [.] without the [s] flag: anything but a line terminator. *)
Definition is_dot (c : ascii) : bool :=
  match c with
  | "010" | "013" => false
  | _ => true
  end%char.

(** [[^}]] *)
Definition is_not_rbrace (c : ascii) : bool :=
  match c with
  | "}" => false
  | _ => true
  end%char.

Fixpoint drop_while (f : ascii → bool) (s : list ascii) : list ascii :=
  match s with
  | c :: s' => if f c then drop_while f s' else s
  | [] => []
  end.

Fixpoint take_while (f : ascii → bool) (s : list ascii) : list ascii :=
  match s with
  | c :: s' => if f c then c :: take_while f s' else []
  | [] => []
  end.

(** [s.trim()] *)
Definition trim (s : list ascii) : list ascii :=
  reverse (drop_while is_space (reverse (drop_while is_space s))).

(** [s.split(' ')]: the pieces between single spaces; never empty. *)
Fixpoint split_space (s : list ascii) : list (list ascii) :=
  match s with
  | [] => [[]]
  | c :: s' =>
      if Ascii.eqb c " " then [] :: split_space s'
      else match split_space s' with
           | w :: ws => (c :: w) :: ws
           | [] => [[c]]
           end
  end.

(** [a.join(sep)] *)
Fixpoint join (sep : list ascii) (a : list (list ascii)) : list ascii :=
  match a with
  | [] => []
  | [w] => w
  | w :: ws => w ++ sep ++ join sep ws
  end.

(** [s.padStart(2, '0')] *)
Definition padStart2 (s : list ascii) : list ascii :=
  match s with
  | [] => str "00"
  | [c] => "0"%char :: [c]
  | _ => s
  end.

(** Every character of [s] is in the class [f]. *)
Definition all (f : ascii → bool) (s : list ascii) : Prop :=
  Forall (λ c, f c = true) s.

(** [s] holds no [~], the character that opens and closes a placeholder. *)
Definition plain (s : list ascii) : Prop := Forall (λ c, c ≠ "~"%char) s.

(** [s] is a run of one or more digits, what [(\d+)] captures. *)
Definition digits (s : list ascii) : Prop := all is_digit s ∧ s ≠ [].

(** [s] can stand between [~{] and [}~] without ending the list or
  starting another placeholder. *)
Definition list_text (s : list ascii) : Prop := all is_not_rbrace s ∧ plain s.

(** [s] is a token of such a list: it holds no space either. *)
Definition token (s : list ascii) : Prop := list_text s ∧ " "%char ∉ s.

(** Order of SQLite's BINARY collation on the modelled code units. *)
Fixpoint leb (a b : list ascii) : bool :=
  match a, b with
  | [], _ => true
  | _ :: _, [] => false
  | x :: a', y :: b' =>
      if (nat_of_ascii x <? nat_of_ascii y)%nat then true
      else if (nat_of_ascii y <? nat_of_ascii x)%nat then false
      else leb a' b'
  end.

End JsString.

(* ================================================================= *)
(** ** JavaScript numbers *)

Module JsNumber.
Import JsString.

Inductive jsnum : Type :=
  | JNum (z : Z)
  | JNaN.

(** Nearest double of an integer, ties to even.  Overflow to [Infinity]
  is not modelled; no number of the model comes near it. *)
Definition round_double (z : Z) : Z :=
  let a := Z.abs z in
  if a <? 2 ^ 53 then z
  else
    let k := Z.log2 a - 52 in
    let q := a / 2 ^ k in
    let r := a mod 2 ^ k in
    let half := 2 ^ (k - 1) in
    let q' := if r <? half then q
              else if half <? r then q + 1
              else if Z.even q then q else q + 1 in
    Z.sgn z * (q' * 2 ^ k).

Definition add (a b : jsnum) : jsnum :=
  match a, b with
  | JNum x, JNum y => JNum (round_double (x + y))
  | _, _ => JNaN
  end.

Definition sub (a b : jsnum) : jsnum :=
  match a, b with
  | JNum x, JNum y => JNum (round_double (x - y))
  | _, _ => JNaN
  end.

Definition digit_val (c : ascii) : Z := Z.of_nat (nat_of_ascii c) - 48.

Definition digits_value (s : list ascii) : Z :=
  fold_left (fun acc c => 10 * acc + digit_val c) s 0.

(** [parseInt(s, 10)] (and [parseInt(s)] on a string that does not start
  with [0x]): leading white space, an optional sign, then the longest
  prefix of decimal digits.  ECMAScript lets an implementation
  approximate a numeral of more than 20 significant digits; the model
  stops there and answers [None]. *)
Definition parseInt (s : list ascii) : option jsnum :=
  let s1 := drop_while is_space s in
  let '(neg, s2) :=
    match s1 with
    | "-"%char :: t => (true, t)
    | "+"%char :: t => (false, t)
    | _ => (false, s1)
    end in
  let ds := take_while is_digit s2 in
  match ds with
  | [] => Some JNaN
  | _ :: _ =>
      let v := digits_value ds in
      if 10 ^ 20 <=? v then None
      else Some (JNum (round_double (if neg then - v else v)))
  end.

Definition digit_char (d : Z) : ascii := ascii_of_nat (48 + Z.to_nat d).

Fixpoint decimal_digits (fuel : nat) (n : Z) (acc : list ascii) : list ascii :=
  match fuel with
  | O => acc
  | S f =>
      let acc' := digit_char (n mod 10) :: acc in
      if n <? 10 then acc' else decimal_digits f (n / 10) acc'
  end.

(** Decimal numeral of a non-negative integer. *)
Definition decimal (n : Z) : list ascii :=
  decimal_digits (S (Z.to_nat (Z.log2 n))) n [].

(** Decimal numeral of an integer. *)
Definition numeral (z : Z) : list ascii :=
  if z <? 0 then "-"%char :: decimal (- z) else decimal z.

(** [String(x)] of a number.  Above [2^53] JavaScript prints the
  shortest digits that read back as the same number, and from [1e21]
  on the exponent notation; the model does not cover these: [None]. *)
Definition toString (a : jsnum) : option (list ascii) :=
  match a with
  | JNaN => Some (str "NaN")
  | JNum z =>
      if 2 ^ 53 <? Z.abs z then None
      else Some (numeral z)
  end.

End JsNumber.

(* ================================================================= *)
(** ** Regular expressions of doTask *)

(** The expressions used by [doTask] are sequences of literal characters
    and of quantified character classes, some of them captured.  They are
    matched as JavaScript does: a greedy quantifier takes the longest run
    first and gives characters back one at a time, a lazy one takes the
    shortest run first. *)

Module Regex.
Import JsString.

Inductive item : Type :=
  | Chr (c : ascii)
  | Rep (greedy : bool) (min : nat) (capture : bool) (cls : ascii → bool).

Definition lit (s : string) : list item := map Chr (str s).

Fixpoint rep_greedy {A} (cls : ascii → bool)
    (k : list ascii → list ascii → option A)
    (taken s : list ascii) : option A :=
  match s with
  | c :: s' =>
      if cls c then
        match rep_greedy cls k (taken ++ [c]) s' with
        | Some r => Some r
        | None => k taken s
        end
      else k taken s
  | [] => k taken s
  end.

Fixpoint rep_lazy {A} (cls : ascii → bool)
    (k : list ascii → list ascii → option A)
    (taken s : list ascii) : option A :=
  match k taken s with
  | Some r => Some r
  | None =>
      match s with
      | c :: s' => if cls c then rep_lazy cls k (taken ++ [c]) s' else None
      | [] => None
      end
  end.

(** Match [p] at the start of [s]: the captured groups in order, and
  the input left after the match. *)
Fixpoint match_items (p : list item) (s : list ascii)
    : option (list (list ascii) * list ascii) :=
  match p with
  | [] => Some ([], s)
  | Chr c :: p' =>
      match s with
      | x :: s' => if Ascii.eqb x c then match_items p' s' else None
      | [] => None
      end
  | Rep greedy min capture cls :: p' =>
      let k := fun taken rest =>
        if (min <=? length taken)%nat then
          match match_items p' rest with
          | Some (caps, rest') =>
              Some (if capture then taken :: caps else caps, rest')
          | None => None
          end
        else None in
      if greedy then rep_greedy cls k [] s else rep_lazy cls k [] s
  end.

(** Leftmost match: the text before it, the groups, the text after. *)
Fixpoint search (p : list item) (s : list ascii)
    : option (list ascii * list (list ascii) * list ascii) :=
  match match_items p s with
  | Some (caps, rest) => Some ([], caps, rest)
  | None =>
      match s with
      | [] => None
      | c :: s' =>
          match search p s' with
          | Some (pre, caps, rest) => Some (c :: pre, caps, rest)
          | None => None
          end
      end
  end.

(** A search result behind the skipped text [w]. *)
Definition pre_add (w : list ascii)
    (r : option (list ascii * list (list ascii) * list ascii))
    : option (list ascii * list (list ascii) * list ascii) :=
  match r with
  | Some (pre, caps, rest) => Some (w ++ pre, caps, rest)
  | None => None
  end.

(** A run of [cls] cannot go on into [rest]. *)
Definition stops (cls : ascii → bool) (rest : list ascii) : Prop :=
  match rest with
  | [] => True
  | c :: _ => cls c = false
  end.

(** The replacer functions of [doTask] read the groups only. *)
Definition replacer : Type := list (list ascii) → option (list ascii).

(** [s.replace(/p/, f)] *)
Definition replace (p : list item) (f : replacer) (s : list ascii)
    : option (list ascii) :=
  match search p s with
  | None => Some s
  | Some (pre, caps, rest) => r ← f caps; Some (pre ++ r ++ rest)
  end.

(** [s.replace(/p/g, f)] for a [p] that matches no empty string: after a
  match the scan resumes behind it. *)
Fixpoint replace_all_fuel (fuel : nat) (p : list item) (f : replacer)
    (s : list ascii) : option (list ascii) :=
  match fuel with
  | O => Some s
  | S n =>
      match search p s with
      | None => Some s
      | Some (pre, caps, rest) =>
          r ← f caps; tl ← replace_all_fuel n p f rest; Some (pre ++ r ++ tl)
      end
  end.

Definition replace_all (p : list item) (f : replacer) (s : list ascii)
    : option (list ascii) :=
  replace_all_fuel (S (length s)) p f s.

(** [s.replace(pat, rep)] with a string pattern: the first occurrence.
  [rep] is inserted as it is; the callers pass digits and underscores,
  which hold no [$] pattern. *)
Definition replace_str (pat : string) (rep : list ascii) (s : list ascii)
    : option (list ascii) :=
  replace (lit pat) (fun _ => Some rep) s.

End Regex.

(* ================================================================= *)
(** ** The placeholder language of doTask *)

Module Macro.
Import JsString JsNumber Regex.

(** What a run reads from outside the program: the local clock and the
  upload directory.  [fileById], [getLine] and [getWord] stand for the
  functions of the same names, which read the file system. *)
Record Env : Type := {
  hours : Z;
  minutes : Z;
  day : Z;
  month : Z;
  year : Z;
  fileById : list ascii → list ascii → list ascii;
  getLine : list ascii → list ascii → list ascii;
  getWord : list ascii → list ascii → list ascii
  }.

Definition getHour (e : Env) : list ascii :=
  padStart2 (decimal (hours e)) ++ str "_" ++ padStart2 (decimal (minutes e)).

Definition getDate (e : Env) : list ascii :=
  padStart2 (decimal (day e)) ++ str "_" ++
  padStart2 (decimal (month e + 1)) ++ str "_" ++ decimal (year e).

(** [/~inc\$(\d+)~/] *)
Definition re_inc : list item :=
  lit "~inc$" ++ [Rep true 1 true is_digit] ++ lit "~".

(** [/~dec\$(\d+)~/] *)
Definition re_dec : list item :=
  lit "~dec$" ++ [Rep true 1 true is_digit] ++ lit "~".

(** [/~{([^}]{0,})}~/g]; the source writes the quantifier as a star. *)
Definition re_braces : list item :=
  lit "~{" ++ [Rep true 0 true is_not_rbrace] ++ lit "}~".

(** [/~(\d+)\s*\+\s*(\d+)~/] *)
Definition re_plus : list item :=
  lit "~" ++ [Rep true 1 true is_digit; Rep true 0 false is_space] ++
  lit "+" ++ [Rep true 0 false is_space; Rep true 1 true is_digit] ++ lit "~".

(** [/~(\d+)\s*\-\s*(\d+)~/] *)
Definition re_minus : list item :=
  lit "~" ++ [Rep true 1 true is_digit; Rep true 0 false is_space] ++
  lit "-" ++ [Rep true 0 false is_space; Rep true 1 true is_digit] ++ lit "~".

(** [/~files\s+(\S+)\s+(\d+)~/] *)
Definition re_files : list item :=
  lit "~files" ++
  [Rep true 1 false is_space; Rep true 1 true is_nonspace;
   Rep true 1 false is_space; Rep true 1 true is_digit] ++ lit "~".

(** [/~lines\s+(.+?)\s+(\d+)~/] *)
Definition re_lines : list item :=
  lit "~lines" ++
  [Rep true 1 false is_space; Rep false 1 true is_dot;
   Rep true 1 false is_space; Rep true 1 true is_digit] ++ lit "~".

(** [/~words\s+(.+?)\s+(\d+)~/] *)
Definition re_words : list item :=
  lit "~words" ++
  [Rep true 1 false is_space; Rep false 1 true is_dot;
   Rep true 1 false is_space; Rep true 1 true is_digit] ++ lit "~".

(** A replacer of one group, of two groups. *)
Definition fn1 (f : list ascii → option (list ascii)) : replacer :=
  fun caps => match caps with [p] => f p | _ => None end.

Definition fn2 (f : list ascii → list ascii → option (list ascii)) : replacer :=
  fun caps => match caps with [co1; co2] => f co1 co2 | _ => None end.

(** [(m, p) => parseInt(p)] *)
Definition cb_number : replacer :=
  fn1 (fun p => n ← parseInt p; toString n).

(** [contents.split(' ')[0]] *)
Definition first_token (contents : list ascii) : list ascii :=
  hd [] (split_space contents).

Definition cb_first : replacer :=
  fn1 (fun contents => Some (first_token contents)).

(** [(match, co1, co2) => co1] *)
Definition cb_co1 : replacer := fn2 (fun co1 _ => Some co1).

(** The value of a template for this run: the chain of [replace] calls
  that [doTask] applies to [a.data] and to [a.postData]. *)
Definition evalTemplate (e : Env) (s : list ascii) : option (list ascii) :=
  s ← replace_str "~hour~" (getHour e) s;
  s ← replace_str "~date~" (getDate e) s;
  s ← replace re_inc cb_number s;
  s ← replace re_dec cb_number s;
  s ← replace_all re_braces cb_first s;
  s ← replace re_plus cb_co1 s;
  s ← replace re_minus cb_co1 s;
  s ← replace re_files (fn2 (fun co1 co2 => Some (fileById e co1 co2))) s;
  s ← replace re_lines (fn2 (fun co1 co2 => Some (getLine e co1 co2))) s;
  replace re_words (fn2 (fun co1 co2 => Some (getWord e co1 co2))) s.

(** ["~inc$" + (parseInt(p) + 1) + "~"] and its [dec] twin *)
Definition cb_step (tag : string) (op : jsnum → jsnum → jsnum) : replacer :=
  fn1 (fun p =>
    n ← parseInt p; t ← toString (op n (JNum 1));
    Some (str tag ++ t ++ str "~")).

(** [contents.split(' ').slice(1).join(' ')
    + ` ${contents.split(' ').slice(0, 1)}`]; the array of the template
  literal is printed with [join(',')]. *)
Definition rotated (contents : list ascii) : list ascii :=
  let parts := split_space contents in
  join (str " ") (drop 1 parts) ++ str " " ++ join (str ",") (take 1 parts).

(** ['~{' + ... + '}~'] around it *)
Definition cb_rotate : replacer :=
  fn1 (fun contents => Some (str "~{" ++ rotated contents ++ str "}~")).

(** ["~" + (parseInt(co1) op parseInt(co2)) + " op " + co2 + "~"] *)
Definition cb_arith (sign : string) (op : jsnum → jsnum → jsnum) : replacer :=
  fn2 (fun co1 co2 =>
    a ← parseInt co1; b ← parseInt co2; t ← toString (op a b);
    Some (str "~" ++ t ++ str sign ++ co2 ++ str "~")).

(** [`~files ${co1} ${parseInt(co2) + 1}~`] and its twins *)
Definition cb_next (tag : string) : replacer :=
  fn2 (fun co1 co2 =>
    n ← parseInt co2; t ← toString (add n (JNum 1));
    Some (str tag ++ co1 ++ str " " ++ t ++ str "~")).

(** The template for the next run: the second chain of [replace] calls
  of [doTask], whose result is assigned to [a.data], [a.postData]. *)
Definition advanceTemplate (s : list ascii) : option (list ascii) :=
  s ← replace re_inc (cb_step "~inc$" add) s;
  s ← replace re_dec (cb_step "~dec$" sub) s;
  s ← replace_all re_braces cb_rotate s;
  s ← replace re_plus (cb_arith " + " add) s;
  s ← replace re_minus (cb_arith " - " sub) s;
  s ← replace re_files (cb_next "~files ") s;
  s ← replace re_lines (cb_next "~lines ") s;
  replace re_words (cb_next "~words ") s.

(** Placeholders as they are written in a template, and a template of
  two placeholders. *)
Definition ph_step (tag : string) (n : list ascii) : list ascii :=
  str tag ++ n ++ str "~".

Definition ph_list (contents : list ascii) : list ascii :=
  str "~{" ++ contents ++ str "}~".

Definition ph_arith (sign : string) (a ws1 ws2 b : list ascii) : list ascii :=
  str "~" ++ a ++ ws1 ++ str sign ++ ws2 ++ b ++ str "~".

Definition ph_file (tag : string) (path n : list ascii) : list ascii :=
  str tag ++ path ++ str " " ++ n ++ str "~".

Definition two (p q : list ascii) : list ascii := p ++ str " " ++ q.

(** A clock reading over an empty upload directory. *)
Definition midnight : Env :=
  {| hours := 0; minutes := 0; day := 1; month := 0; year := 2025;
     fileById := fun _ _ => []; getLine := fun _ _ => [];
     getWord := fun _ _ => [] |}.

(** The template after [n] more runs. *)
Definition later_runs (n : nat) (s : list ascii) : option (list ascii) :=
  Nat.iter n (fun o => o ≫= advanceTemplate) (Some s).

(** No expression of [doTask] matches anywhere in [s]. *)
Definition inert (s : list ascii) : Prop :=
  search (lit "~hour~") s = None ∧ search (lit "~date~") s = None ∧
  search re_inc s = None ∧ search re_dec s = None ∧
  search re_braces s = None ∧ search re_plus s = None ∧
  search re_minus s = None ∧ search re_files s = None ∧
  search re_lines s = None ∧ search re_words s = None.

End Macro.

(* ================================================================= *)
(** ** The retrying HTTP client *)

Module Retry.
Import JsString.

Record response : Type := { statusCode : Z; body : list ascii }.

(** A rejection of [httpRequestWithTimeout]; [code] is the [err.code]
  of a Node.js network error, absent on other exceptions. *)
Record error : Type := { code : option (list ascii); message : list ascii }.

Inductive outcome : Type :=
  | Resolved (res : response)
  | Rejected (err : error).

Definition RETRY_BACKOFFS_MS : list Z := [500; 1500; 3500].

Definition isTransientStatus (statusCode : Z) : bool :=
  (statusCode =? 408) || (statusCode =? 429) || (500 <=? statusCode).

Definition transient_codes : list (list ascii) :=
  map str ["ETIMEDOUT"; "ECONNRESET"; "EAI_AGAIN"; "ECONNREFUSED";
           "ENETUNREACH"; "EHOSTUNREACH"; "ENOTFOUND"; "EPIPE"].

Definition isTransientError (err : error) : bool :=
  match code err with
  | None => false
  | Some c => bool_decide (c ∈ transient_codes)
  end.

(** What the caller can observe of one call of [withRetries]. *)
Inductive event : Type :=
  | Call                (* one httpRequestWithTimeout(opts) *)
  | Sleep (ms : Z).     (* one sleep(ms) *)

(** The loop of [withRetries].  [net n] is the outcome of the [n]-th
  request that is sent.  [attempt] counts both the iterations and the
  backoffs used, so the loop runs on the backoffs that are left:
  [rest] is [backoffsMs.slice(attempt)] and [n] is [attempt]. *)
Fixpoint retry_loop (net : nat → outcome) (n : nat) (rest : list Z)
    : list event * outcome :=
  match rest with
  | [] => ([Call], net n)
  | ms :: rest' =>
      let again :=
        let '(evs, out) := retry_loop net (S n) rest' in
        (Call :: Sleep ms :: evs, out) in
      match net n with
      | Resolved res =>
          if isTransientStatus (statusCode res) then again
          else ([Call], Resolved res)
      | Rejected err =>
          if isTransientError err then again
          else ([Call], Rejected err)
      end
  end.

Definition withRetries (net : nat → outcome) (backoffsMs : list Z)
    : list event * outcome :=
  retry_loop net 0 backoffsMs.

(** The condition under which the loop goes round again. *)
Definition retried (o : outcome) : bool :=
  match o with
  | Resolved res => isTransientStatus (statusCode res)
  | Rejected err => isTransientError err
  end.

(** [k] backoffs slept, [k + 1] requests sent. *)
Definition schedule (k : nat) (backoffsMs : list Z) : list event :=
  concat (map (fun ms => [Call; Sleep ms]) (take k backoffsMs)) ++ [Call].

End Retry.

(* ================================================================= *)
(** ** The SQLite store (db/drizzle.js) *)

Module Task.
(** The fields are strings, as [/api/task/add] stores them. *)
Record t : Type := {
  name : list ascii;
  type : list ascii;
  data : list ascii;
  postType : list ascii;
  postData : list ascii
  }.
End Task.

Module Store.
Import JsString.

(** A row of [tasks] under its primary key [name]. *)
Record row : Type := {
  type : list ascii;
  data : list ascii;
  postType : list ascii;
  postData : list ascii
  }.

(** A row of [logs]; the column [created_at] is written and never read. *)
Record logrow : Type := { id : Z; message : list ascii }.

(** The tables [tasks], [intervals] and [logs], and the AUTOINCREMENT
  counter of [logs].  The tables [clips] and [notes] are left out. *)
Record Db : Type := {
  tasks : gmap (list ascii) row;
  intervals : gmap (list ascii) Z;
  logs : list logrow;
  log_seq : Z
  }.

(** The database of a first start, after [initDb]. *)
Definition empty_db : Db :=
  {| tasks := ∅; intervals := ∅; logs := []; log_seq := 0 |}.

Definition key_le {A} (x y : list ascii * A) : Prop := leb x.1 y.1 = true.

Global Instance key_le_dec {A} (x y : list ascii * A) : Decision (key_le x y).
Proof. unfold key_le. apply _. Defined.

(** [SELECT ... FROM t ORDER BY name] *)
Definition order_by_name {A} (m : gmap (list ascii) A) : list (list ascii * A) :=
  merge_sort key_le (map_to_list m).

Definition getAllTasks (d : Db) : list Task.t :=
  map (fun kr : list ascii * row =>
         {| Task.name := kr.1; Task.type := type kr.2; Task.data := data kr.2;
            Task.postType := postType kr.2; Task.postData := postData kr.2 |})
      (order_by_name (tasks d)).

Definition upsertTask (task : Task.t) (d : Db) : Db :=
  {| tasks := <[Task.name task :=
                {| type := Task.type task; data := Task.data task;
                   postType := Task.postType task;
                   postData := Task.postData task |}]> (tasks d);
     intervals := intervals d; logs := logs d; log_seq := log_seq d |}.

Definition deleteTask (name : list ascii) (d : Db) : Db :=
  {| tasks := delete name (tasks d);
     intervals := intervals d; logs := logs d; log_seq := log_seq d |}.

Definition getAllIntervalDefs (d : Db) : list (list ascii * Z) :=
  order_by_name (intervals d).

Definition addIntervalDef (name : list ascii) (timeMs : Z) (d : Db) : Db :=
  {| tasks := tasks d; intervals := <[name := timeMs]> (intervals d);
     logs := logs d; log_seq := log_seq d |}.

Definition deleteIntervalDef (name : list ascii) (d : Db) : Db :=
  {| tasks := tasks d; intervals := delete name (intervals d);
     logs := logs d; log_seq := log_seq d |}.

(** [INSERT INTO logs(message, created_at)] *)
Definition addLog (message : list ascii) (d : Db) : Db :=
  {| tasks := tasks d; intervals := intervals d;
     logs := logs d ++ [{| id := log_seq d + 1; message := message |}];
     log_seq := log_seq d + 1 |}.

(** [SELECT ... ORDER BY id DESC LIMIT ?], then
  [rows.reverse().map(r => r.message)].  [logs] is kept by rising id. *)
Definition getLastLogs (limit : nat) (d : Db) : list (list ascii) :=
  map message (reverse (take limit (reverse (logs d)))).

Definition clearLogsTable (d : Db) : Db :=
  {| tasks := tasks d; intervals := intervals d; logs := [];
     log_seq := log_seq d |}.

Definition clearAllData (d : Db) : Db :=
  {| tasks := ∅; intervals := ∅; logs := []; log_seq := log_seq d |}.

End Store.

(* ================================================================= *)
(** ** The server state and its operations (index.js) *)

Module Interval.
(** An entry of [gIntervals]; [id] is the handle of [setInterval]. *)
Record t : Type := { name : list ascii; id : nat; time : Z }.
End Interval.

Module Engine.
Import JsString JsNumber Macro.

Definition host : list ascii := str "localhost".
Definition port : Z := 1337.
Definition MAX_LOG_ENTRIES : nat := 1000.

(** What a timer runs on a tick: the refresh of the storage statistics,
  or [doTask({ body: { name } })]. *)
Inductive Callback : Type :=
  | StatsRefresh
  | RunTask (name : list ascii).

Global Instance Callback_eq_dec : EqDecision Callback.
Proof. solve_decision. Defined.

(** A live timer of [setInterval], with the delay that was handed over. *)
Record Timer : Type := { tid : nat; callback : Callback; delay : Z }.

(** The period of a timer.  Node runs a timer at the delay it was given
  when that lies between one and [TIMEOUT_MAX] milliseconds, and at one
  millisecond when it lies outside. *)
Definition TIMEOUT_MAX : Z := 2 ^ 31 - 1.

Definition period (tm : Timer) : Z :=
  if bool_decide (1 ≤ delay tm ≤ TIMEOUT_MAX) then delay tm else 1.

Record State : Type := {
  db : Store.Db;
  gTasks : list Task.t;
  gTasksLog : list (list ascii);
  gIntervals : list Interval.t;
  timers : list Timer;
  next_tid : nat
  }.

Definition with_db (d : Store.Db) (s : State) : State :=
  {| db := d; gTasks := gTasks s; gTasksLog := gTasksLog s;
     gIntervals := gIntervals s; timers := timers s; next_tid := next_tid s |}.

Definition with_gTasks (l : list Task.t) (s : State) : State :=
  {| db := db s; gTasks := l; gTasksLog := gTasksLog s;
     gIntervals := gIntervals s; timers := timers s; next_tid := next_tid s |}.

Definition with_gTasksLog (l : list (list ascii)) (s : State) : State :=
  {| db := db s; gTasks := gTasks s; gTasksLog := l;
     gIntervals := gIntervals s; timers := timers s; next_tid := next_tid s |}.

Definition with_gIntervals (l : list Interval.t) (s : State) : State :=
  {| db := db s; gTasks := gTasks s; gTasksLog := gTasksLog s;
     gIntervals := l; timers := timers s; next_tid := next_tid s |}.

(** [setInterval(cb, delay)]: a fresh handle and a new live timer, which
  keeps the delay as it was handed over; [period] is what it runs at. *)
Definition setInterval (cb : Callback) (ms : Z) (s : State) : nat * State :=
  (next_tid s,
   {| db := db s; gTasks := gTasks s; gTasksLog := gTasksLog s;
      gIntervals := gIntervals s;
      timers := timers s ++ [{| tid := next_tid s; callback := cb; delay := ms |}];
      next_tid := S (next_tid s) |}).

(** [clearInterval(id)].  Called with a number, as
  [/api/task/interval/kill] does, Node stops a timer only when its
  handle was turned into a number before, which the comparisons of
  that route do for the entries of [gIntervals] and nothing does for
  the statistics timer; the model stops the timer of that number
  whatever it runs. *)
Definition clearInterval (i : nat) (s : State) : State :=
  {| db := db s; gTasks := gTasks s; gTasksLog := gTasksLog s;
     gIntervals := gIntervals s;
     timers := filter (λ t, tid t ≠ i) (timers s);
     next_tid := next_tid s |}.

(** [gTasks.some(t => t.name === name)] *)
Definition task_exists (name : list ascii) (l : list Task.t) : bool :=
  bool_decide (Exists (λ t, Task.name t = name) l).

Definition pushLog (entry : list ascii) (s : State) : State :=
  let s := with_db (Store.addLog entry (db s)) s in
  let log := gTasksLog s ++ [entry] in
  let log :=
    if (MAX_LOG_ENTRIES <? length log)%nat
    then drop (length log - MAX_LOG_ENTRIES) log
    else log in
  with_gTasksLog log s.

Inductive Method : Type := GET | POST.

(** The request that [doTask] hands to [http.get] or [http.request].
  For a POST the path sent is [url.parse(target).path]. *)
Record Request : Type := {
  method : Method;
  target : list ascii;
  contentType : option (list ascii);
  contentLength : option Z;
  payload : list ascii
  }.

(** [Buffer.byteLength(s)]: the length of the UTF-8 encoding. *)
Definition byteLength (s : list ascii) : Z :=
  fold_right (fun c n => (if (nat_of_ascii c <? 128)%nat then 1 else 2) + n) 0 s.

(** The [switch (a.type)] of [doTask]: the path, whether [data] is
  appended to it, and whether the request is a POST. *)
Definition endpoints : list (string * (string * bool * bool)) :=
  [ ("http", ("/api/httpp/", true, false));
    ("httppost", ("/api/httpp/", true, true));
    ("https", ("/api/httpps/", true, false));
    ("httpspost", ("/api/httpps/", true, true));
    ("httptxt", ("/api/txt/httpp/", true, false));
    ("httpstxt", ("/api/txt/httpps/", true, false));
    ("scrapurl", ("/api/scraper/links/?link=", true, false));
    ("scrapimg", ("/api/scraper/imgs/?link=", true, false));
    ("cheerioc", ("/api/scraper/cheeriohtml/?link=", true, false));
    ("scraprss", ("/api/scraper/rss?link=", true, false));
    ("cclip", ("/api/clip/erase", false, false));
    ("delfile", ("/api/files/del?path=", true, false));
    ("mvfile", ("/api/files/mv", true, false));
    ("uploadlink", ("/api/uploadLink", false, true));
    ("saveclip", ("/api/clip/save", false, true));
    ("logfile", ("/api/task/log/toFile?name=", true, false));
    ("cfgimport", ("/api/cfg/import?path=", true, false));
    ("cfgexport", ("/api/cfg/export?name=", true, false));
    ("consoleget", ("/api/console?text=", true, false));
    ("consolepost", ("/api/console", false, true));
    ("sendfile", ("/api/files/send", true, false));
    ("reload", ("/api/reload?cfg=", true, false)) ].

Definition request_url (type data : list ascii) : list ascii * bool :=
  match list_find (λ e, str e.1 = type) endpoints with
  | Some (_, (_, (path, with_data, isPost))) =>
      (str "http://" ++ host ++ str ":" ++ decimal port ++ str path ++
       (if with_data then data else []), isPost)
  | None => (str "http://example.com", false)
  end.

Definition build_request (a : Task.t) (data postData : list ascii) : Request :=
  let '(reqd, isPost) := request_url (Task.type a) data in
  if isPost then
    {| method := POST; target := reqd;
       contentType := Some (Task.postType a);
       contentLength := Some (byteLength postData);
       payload := postData |}
  else
    {| method := GET; target := reqd; contentType := None;
       contentLength := None; payload := [] |}.

(** What one call of [doTask] does, in program order. *)
Inductive Effect : Type :=
  | Assign (name data postData : list ascii)  (* a.data = ..; a.postData = .. *)
  | Dispatch (r : Request)                    (* http.get / http.request *)
  | Logged (entry : list ascii).              (* pushLog(entry) *)

(** [doTask(req)] with [tName = String(req.body.name)], in a run whose
  request [http.get] or [http.request] accepts.  [a] is the first
  object of [gTasks] with that name, and the assignments change that
  object in place.  The run in which the request is refused, which
  ends in the [catch] branch, is [Runtime.doTask]. *)
Definition doTask (e : Env) (tName : list ascii) (s : State)
    : option (State * list Effect) :=
  match list_find (λ ob, Task.name ob = tName) (gTasks s) with
  | None =>
      let entry := str "Task '" ++ tName ++ str "' not found" in
      Some (pushLog entry s, [Logged entry])
  | Some (i, a) =>
      data ← evalTemplate e (Task.data a);
      postData ← evalTemplate e (Task.postData a);
      data' ← advanceTemplate (Task.data a);
      postData' ← advanceTemplate (Task.postData a);
      let a' := {| Task.name := Task.name a; Task.type := Task.type a;
                   Task.data := data'; Task.postType := Task.postType a;
                   Task.postData := postData' |} in
      Some (with_gTasks (<[i := a']> (gTasks s)) s,
            [Assign tName data' postData';
             Dispatch (build_request a data postData)])
  end.

(** [app.post('/api/task/add')]; the answer is its status code. *)
Definition task_add (name type data pType pData : list ascii) (s : State)
    : Z * State :=
  let tName := trim name in
  match tName with
  | [] => (400, s)
  | _ :: _ =>
      let task := {| Task.name := tName; Task.type := type; Task.data := data;
                     Task.postType := pType; Task.postData := pData |} in
      let s := with_db (Store.upsertTask task (db s)) s in
      match list_find (λ ob, Task.name ob = tName) (gTasks s) with
      | Some (idx, _) => (200, with_gTasks (<[idx := task]> (gTasks s)) s)
      | None => (200, with_gTasks (gTasks s ++ [task]) s)
      end
  end.

(** [app.get('/api/task/del/:name')] *)
Definition task_del (tName : list ascii) (s : State) : State :=
  let s := with_db (Store.deleteTask tName (db s)) s in
  let s := with_gTasks (filter (λ ob, Task.name ob ≠ tName) (gTasks s)) s in
  let affected := filter (λ inte, Interval.name inte = tName) (gIntervals s) in
  let s :=
    fold_left
      (fun s inte =>
         clearInterval (Interval.id inte)
           (with_db (Store.deleteIntervalDef (Interval.name inte) (db s)) s))
      affected s in
  with_gIntervals (filter (λ inte, Interval.name inte ≠ tName) (gIntervals s)) s.

(** [app.get('/api/task/log/clear')] *)
Definition log_clear (s : State) : State :=
  with_gTasksLog [] (with_db (Store.clearLogsTable (db s)) s).

(** [app.post('/api/task/interval/add')] on [req.body.name] and
  [req.body.time]. *)
Definition interval_add (body_name body_time : list ascii) (s : State)
    : option (Z * State) :=
  intTime ← parseInt body_time;
  let name := trim body_name in
  match name with
  | [] => Some (400, s)                          (* !name *)
  | _ :: _ =>
      match intTime with
      | JNaN => Some (400, s)                    (* !Number.isFinite(intTime) *)
      | JNum ms =>
          if ms <=? 0 then Some (400, s)         (* intTime <= 0 *)
          else if negb (task_exists name (gTasks s)) then Some (400, s)
          else
            let s := with_db (Store.addIntervalDef name ms (db s)) s in
            let '(id, s) := setInterval (RunTask name) ms s in
            Some (200, with_gIntervals
                         (gIntervals s ++
                          [{| Interval.name := name; Interval.id := id;
                              Interval.time := ms |}]) s)
      end
  end.

(** [app.get('/api/task/interval/kill/:iid')] with
  [iid = parseInt(req.params.iid, 10)]. *)
Definition interval_kill (iid : jsnum) (s : State) : State :=
  match iid with
  | JNaN => s
  | JNum z =>
      let s :=
        match list_find (λ inte, Z.of_nat (Interval.id inte) = z) (gIntervals s) with
        | Some (_, found) =>
            with_db (Store.deleteIntervalDef (Interval.name found) (db s)) s
        | None => s
        end in
      let s := if 0 <=? z then clearInterval (Z.to_nat z) s else s in
      with_gIntervals
        (filter (λ inte, Z.of_nat (Interval.id inte) ≠ z) (gIntervals s)) s
  end.

(** [clearAllIntervals()] *)
Definition clearAllIntervals (s : State) : State :=
  with_gIntervals []
    (fold_left (fun s i => clearInterval (Interval.id i) s) (gIntervals s) s).

(** [app.get('/api/restart')] *)
Definition restart (s : State) : State :=
  let s := clearAllIntervals s in
  let s := with_db (Store.clearAllData (db s)) s in
  with_gTasksLog [] (with_gTasks [] s).

(** An entry of a configuration file, after [JSON.parse]. *)
Inductive CfgEntry : Type :=
  | CfgTask (t : Task.t)
  | CfgRoutine (name : list ascii) (time : Z)
  | CfgOther.

Definition tasksToUpsert (parsed : list CfgEntry) : list Task.t :=
  omap (fun i => match i with CfgTask t => Some t | _ => None end) parsed.

Definition routinesToAdd (parsed : list CfgEntry) : list (list ascii * Z) :=
  omap (fun i => match i with CfgRoutine n t => Some (n, t) | _ => None end) parsed.

(** The loop over [tasksToUpsert]; [replace] tells the import, which
  overwrites a task of the same name, from the reload, which pushes. *)
Definition load_task (replace : bool) (s : State) (t : Task.t) : State :=
  let nm := trim (Task.name t) in
  match nm with
  | [] => s
  | _ :: _ =>
      let t := {| Task.name := nm; Task.type := Task.type t;
                  Task.data := Task.data t; Task.postType := Task.postType t;
                  Task.postData := Task.postData t |} in
      let s := with_db (Store.upsertTask t (db s)) s in
      match list_find (λ ob, Task.name ob = nm) (gTasks s) with
      | Some (idx, _) =>
          if replace then with_gTasks (<[idx := t]> (gTasks s)) s
          else with_gTasks (gTasks s ++ [t]) s
      | None => with_gTasks (gTasks s ++ [t]) s
      end
  end.

(** The loop over [routinesToAdd]. *)
Definition load_routine (s : State) (r : list ascii * Z) : State :=
  if negb (task_exists r.1 (gTasks s)) then s
  else
    let s := with_db (Store.addIntervalDef r.1 r.2 (db s)) s in
    let '(id, s) := setInterval (RunTask r.1) r.2 s in
    with_gIntervals
      (gIntervals s ++
       [{| Interval.name := r.1; Interval.id := id; Interval.time := r.2 |}]) s.

Definition load_config (replace : bool) (parsed : list CfgEntry) (s : State) : State :=
  fold_left load_routine (routinesToAdd parsed)
    (fold_left (load_task replace) (tasksToUpsert parsed) s).

(** [app.get('/api/cfg/import')], once the file is read and parsed. *)
Definition cfg_import (parsed : list CfgEntry) (s : State) : State :=
  load_config true parsed s.

(** [app.get('/api/reload')]: the reset done at once, and the load done
  when the file has been read and parsed. *)
Definition reload_reset (s : State) : State := restart s.

Definition reload_load (parsed : list CfgEntry) (s : State) : State :=
  load_config false parsed s.

(** The body of [defs.forEach] in the startup block. *)
Definition rehydrate (s : State) (def : list ascii * Z) : State :=
  if negb (task_exists def.1 (gTasks s)) then
    with_db (Store.deleteIntervalDef def.1 (db s)) s
  else
    let '(id, s) := setInterval (RunTask def.1) def.2 s in
    with_gIntervals
      (gIntervals s ++
       [{| Interval.name := def.1; Interval.id := id; Interval.time := def.2 |}]) s.

(** The start of the process over the database [d] that it finds: the
  statistics timer, the hydration of the caches, the rehydration of
  the intervals. *)
Definition startup (d : Store.Db) : State :=
  let s := {| db := d; gTasks := []; gTasksLog := []; gIntervals := [];
              timers := []; next_tid := 0 |} in
  let s := (setInterval StatsRefresh 300000 s).2 in
  let s := with_gTasks
             (filter (λ t, trim (Task.name t) ≠ []) (Store.getAllTasks d)) s in
  let s := with_gTasksLog (Store.getLastLogs MAX_LOG_ENTRIES d) s in
  fold_left rehydrate (Store.getAllIntervalDefs d) s.

(** A tick of the timer [i]. *)
Definition tick (e : Env) (i : nat) (s : State) : option (State * list Effect) :=
  match list_find (λ t, tid t = i) (timers s) with
  | Some (_, t) =>
      match callback t with
      | RunTask name => doTask e name s
      | StatsRefresh => Some (s, [])
      end
  | None => Some (s, [])
  end.

(** What can happen to a running server.  The timeouts of
  [/api/task/time/run] and the runs whose request is refused are
  in [Runtime]. *)
Inductive Op : Type :=
  | OpTaskAdd (name type data pType pData : list ascii)
  | OpTaskRun (name : list ascii)           (* /api/task/run *)
  | OpTaskDel (name : list ascii)
  | OpLogClear
  | OpIntervalAdd (name time : list ascii)
  | OpIntervalKill (iid : jsnum)
  | OpCfgImport (parsed : list CfgEntry)
  | OpRestart
  | OpReloadReset
  | OpReloadLoad (parsed : list CfgEntry)
  | OpTick (i : nat)
  | OpAnswer (entry : list ascii).          (* pushLog of a finished request *)

Definition step (e : Env) (o : Op) (s : State) : option State :=
  match o with
  | OpTaskAdd n t d pt pd => Some (task_add n t d pt pd s).2
  | OpTaskRun n => fst <$> doTask e n s
  | OpTaskDel n => Some (task_del n s)
  | OpLogClear => Some (log_clear s)
  | OpIntervalAdd n t => snd <$> interval_add n t s
  | OpIntervalKill i => Some (interval_kill i s)
  | OpCfgImport p => Some (cfg_import p s)
  | OpRestart => Some (restart s)
  | OpReloadReset => Some (reload_reset s)
  | OpReloadLoad p => Some (reload_load p s)
  | OpTick i => fst <$> tick e i s
  | OpAnswer m => Some (pushLog m s)
  end.

Definition has_task (name : list ascii) (l : list Task.t) : Prop :=
  ∃ t, t ∈ l ∧ Task.name t = name.

Definition has_interval (name : list ascii) (l : list Interval.t) : Prop :=
  ∃ i, i ∈ l ∧ Interval.name i = name.

(** No interval without its task, in the caches and in the store. *)
Definition no_orphans (s : State) : Prop :=
  (∀ i, i ∈ gIntervals s → has_task (Interval.name i) (gTasks s)) ∧
  (∀ n, is_Some (Store.intervals (db s) !! n) →
        is_Some (Store.tasks (db s) !! n)).

(** What holds of the caches, the store and the timers together; during
  the startup the definitions [pending] are still to be rehydrated. *)
Record consistent_upto (pending : list (list ascii)) (s : State) : Prop := {
  mem_no_orphan : ∀ i, i ∈ gIntervals s → has_task (Interval.name i) (gTasks s);
  defs_live : ∀ n, is_Some (Store.intervals (db s) !! n) →
                   has_interval n (gIntervals s) ∨ n ∈ pending;
  tasks_stored : ∀ t, t ∈ gTasks s → is_Some (Store.tasks (db s) !! Task.name t);
  ids_unique : NoDup (Interval.id <$> gIntervals s);
  ids_fresh : ∀ i, i ∈ gIntervals s → (Interval.id i < next_tid s)%nat;
  timers_fresh : ∀ tm, tm ∈ timers s → (tid tm < next_tid s)%nat
  }.

Definition consistent (s : State) : Prop := consistent_upto [] s.

(** The states of a server started over some database. *)
Inductive reachable : State → Prop :=
  | reach_startup d : reachable (startup d)
  | reach_step e o s s' : reachable s → step e o s = Some s' → reachable s'.

End Engine.

(* ================================================================= *)
(** ** What the routes read back (index.js) *)

Module Views.
Import JsString JsNumber Engine.

(** The timers of [setInterval] that run a task, as the triples that
  [gIntervals] keeps of them: the task name, the handle and the delay
  handed over. *)
Definition task_timers (l : list Timer) : list (list ascii * nat * Z) :=
  omap (λ tm, match callback tm with
              | RunTask n => Some (n, tid tm, delay tm)
              | StatsRefresh => None
              end) l.

Definition interval_entries (l : list Interval.t) : list (list ascii * nat * Z) :=
  (λ i, (Interval.name i, Interval.id i, Interval.time i)) <$> l.

(** [app.get('/api/cfg/export')]: the array [toJson] that is written to
  the file; [JSON.parse] of the file gives it back. *)
Definition cfg_export (s : State) : list CfgEntry :=
  (CfgTask <$> gTasks s) ++
  ((λ e, CfgRoutine (Interval.name e) (Interval.time e)) <$> gIntervals s).

(** [logs[logs.length - 1] || ''] and [logs[idx] || ''] *)
Definition log_at (idp : list ascii) (logs : list (list ascii))
    : option (list ascii) :=
  if decide (idp = str "n") then Some (default [] (last logs))
  else
    idx ← parseInt idp;
    match idx with
    | JNum z => Some (if 0 <=? z then default [] (logs !! Z.to_nat z) else [])
    | JNaN => Some []
    end.

(** The handler of [app.get('/api/task/log/:logid')] on the parameter
  [idp]: the answer of the [try] branch, read from the store, and that
  of the [catch] branch, read from [gTasksLog]. *)
Definition log_get (idp : list ascii) (s : State) : option (list ascii) :=
  log_at idp (Store.getLastLogs MAX_LOG_ENTRIES (db s)).

Definition log_get_fallback (idp : list ascii) (s : State) : option (list ascii) :=
  log_at idp (gTasksLog s).

(** The ids that Express hands to that handler.  The paths
  [/api/task/log/clear] and [/api/task/log/toFile] go to the routes
  registered before it, in any letter case, as Express matches paths,
  and the path without an id goes to [/api/task/log/]. *)
Definition lower (c : ascii) : ascii :=
  let n := nat_of_ascii c in
  if (65 <=? n)%nat && (n <=? 90)%nat then ascii_of_nat (n + 32) else c.

Definition reaches_logid (idp : list ascii) : bool :=
  negb (bool_decide (idp = [])) &&
  negb (bool_decide (lower <$> idp = str "clear")) &&
  negb (bool_decide (lower <$> idp = str "tofile")).

End Views.

(* ================================================================= *)
(** ** Refused requests and timed runs (index.js) *)

Module Runtime.
Import JsString JsNumber Macro Engine.

(** [url.parse], [http.get] and [http.request] throw on a request that
  they do not accept, a path or a header value with a character they
  refuse: [refused r] is the message of that error. *)
Definition Refusal : Type := Request → option (list ascii).

(** [doTask(req)] with its [catch] branch.  The templates are assigned
  before the request is handed over, so a refused request leaves them
  advanced; nothing is sent, and the error is logged. *)
Definition doTask (refused : Refusal) (e : Env) (tName : list ascii) (s : State)
    : option (State * list Effect) :=
  match list_find (λ ob, Task.name ob = tName) (gTasks s) with
  | None =>
      let entry := str "Task '" ++ tName ++ str "' not found" in
      Some (pushLog entry s, [Logged entry])
  | Some (i, a) =>
      data ← evalTemplate e (Task.data a);
      postData ← evalTemplate e (Task.postData a);
      data' ← advanceTemplate (Task.data a);
      postData' ← advanceTemplate (Task.postData a);
      let a' := {| Task.name := Task.name a; Task.type := Task.type a;
                   Task.data := data'; Task.postType := Task.postType a;
                   Task.postData := postData' |} in
      let s := with_gTasks (<[i := a']> (gTasks s)) s in
      let r := build_request a data postData in
      match refused r with
      | None => Some (s, [Assign tName data' postData'; Dispatch r])
      | Some message =>
          let entry := str "doTask error: " ++ message in
          Some (pushLog entry s, [Assign tName data' postData'; Logged entry])
      end
  end.

(** A tick of the timer [i]. *)
Definition tick (refused : Refusal) (e : Env) (i : nat) (s : State)
    : option (State * list Effect) :=
  match list_find (λ t, tid t = i) (timers s) with
  | Some (_, t) =>
      match callback t with
      | RunTask name => doTask refused e name s
      | StatsRefresh => Some (s, [])
      end
  | None => Some (s, [])
  end.

(** [n] runs of the task [tName] in a row, by [/api/task/run], by the
  ticks of a routine or by timeouts. *)
Definition run_times (refused : Refusal) (e : Env) (tName : list ascii) (n : nat)
    (s : State) : option State :=
  Nat.iter n (λ o, o ≫= λ s, fst <$> doTask refused e tName s) (Some s).

(** The server with the timeouts of [/api/task/time/run] that have not
  fired: the task name of the request and the delay.  Their handles are
  dropped by the route, and no list of the program holds them. *)
Record Server : Type := {
  core : State;
  timeouts : list (list ascii * jsnum)
  }.

(** [app.post('/api/task/time/run')] on [req.body.name] and
  [req.body.time]. *)
Definition time_run (body_name body_time : list ascii) (v : Server)
    : option Server :=
  tTime ← parseInt body_time;
  Some {| core := core v; timeouts := timeouts v ++ [(body_name, tTime)] |}.

(** The timeout at [k] fires: [doTask(req)] of its request. *)
Definition fire (refused : Refusal) (e : Env) (k : nat) (v : Server)
    : option (Server * list Effect) :=
  match timeouts v !! k with
  | Some (name, _) =>
      r ← doTask refused e name (core v);
      Some ({| core := r.1; timeouts := delete k (timeouts v) |}, r.2)
  | None => Some (v, [])
  end.

Inductive Op : Type :=
  | OpRoute (o : Engine.Op)
  | OpTimeRun (name time : list ascii)
  | OpFire (k : nat).

(** A step of the server; a run reads [refused]. *)
Definition step (refused : Refusal) (e : Env) (o : Op) (v : Server)
    : option Server :=
  match o with
  | OpRoute o =>
      s ← match o with
          | OpTaskRun n => fst <$> doTask refused e n (core v)
          | OpTick i => fst <$> tick refused e i (core v)
          | _ => Engine.step e o (core v)
          end;
      Some {| core := s; timeouts := timeouts v |}
  | OpTimeRun n t => time_run n t v
  | OpFire k => fst <$> fire refused e k v
  end.

Definition startup (d : Store.Db) : Server :=
  {| core := Engine.startup d; timeouts := [] |}.

(** The states of a server started over some database. *)
Inductive reachable : Server → Prop :=
  | reach_startup d : reachable (startup d)
  | reach_step refused e o v v' :
      reachable v → step refused e o v = Some v' → reachable v'.

End Runtime.

(* ================================================================= *)
(** ** Two placeholders in one template *)

Module Template.
Import JsString.

(** A character that follows the [~] at the start of an expression of
  [doTask]: a digit, the first letter of [hour], [date], [inc$], [dec$],
  [files], [lines] and [words], or the brace. *)
Definition opens (c : ascii) : bool :=
  is_digit c ||
  match c with
  | "h" | "d" | "i" | "{" | "f" | "l" | "w" => true
  | _ => false
  end%char.

(** A text that can stand between two placeholders: it holds no [~],
  and behind the [~] that closes the first it starts no expression. *)
Definition apart (mid : list ascii) : Prop :=
  plain mid ∧ match mid with [] => True | c :: _ => opens c = false end.

(** A path that the expressions of [files], [lines] and [words] capture
  whole: it holds no white space and no [~]. *)
Definition path (p : list ascii) : Prop :=
  all is_nonspace p ∧ p ≠ [] ∧ plain p.

(** A template of two placeholders [p] and [q] in a text. *)
Definition sited (pre p mid q post : list ascii) : list ascii :=
  pre ++ p ++ mid ++ q ++ post.

End Template.

(* ================================================================= *)
(** ** What a call of withRetries costs *)

Module Trace.
Import Retry.

(** The requests sent and the delays slept in a run of [withRetries]. *)
Definition calls (evs : list event) : nat :=
  length (omap (λ ev, match ev with Call => Some () | Sleep _ => None end) evs).

Definition sleeps (evs : list event) : list Z :=
  omap (λ ev, match ev with Sleep ms => Some ms | Call => None end) evs.

Definition total (l : list Z) : Z := foldr Z.add 0 l.

End Trace.

(* ================================================================= *)
(** ** The clipboard and the notes (db/drizzle.js, index.js) *)

Module Pad.
Import JsString.

(** A note as [getAllNotes] returns it and as [gNotes] keeps it. *)
Record note : Type := {
  name : list ascii;
  text : list ascii;
  date : list ascii
  }.

Global Instance note_eq_dec : EqDecision note.
Proof. solve_decision. Defined.

(** The tables [clips] and [notes], their rows kept by rising id, with
  their AUTOINCREMENT counters; the column [created_at] is written and
  never read. *)
Record Db : Type := {
  clips : list (Z * list ascii);
  clip_seq : Z;
  notes : list (Z * note);
  note_seq : Z
  }.

Definition empty_db : Db :=
  {| clips := []; clip_seq := 0; notes := []; note_seq := 0 |}.

Definition addClipEntry (textV : list ascii) (d : Db) : Db :=
  {| clips := clips d ++ [(clip_seq d + 1, textV)]; clip_seq := clip_seq d + 1;
     notes := notes d; note_seq := note_seq d |}.

(** [SELECT id, text FROM clips ORDER BY id ASC] *)
Definition getClipHistory (d : Db) : list (list ascii) := snd <$> clips d.

(** [SELECT text FROM clips ORDER BY id DESC LIMIT 1] *)
Definition getLastClipText (d : Db) : list ascii :=
  match last (clips d) with
  | Some row => row.2
  | None => []
  end.

Definition clearClipsTable (d : Db) : Db :=
  {| clips := []; clip_seq := clip_seq d; notes := notes d; note_seq := note_seq d |}.

(** [SELECT id, name, text, date FROM notes ORDER BY id ASC] *)
Definition getAllNotes (d : Db) : list note := snd <$> notes d.

Definition addNoteEntry (name textV date : list ascii) (d : Db) : Db :=
  {| clips := clips d; clip_seq := clip_seq d;
     notes := notes d ++
       [(note_seq d + 1, {| name := name; text := textV; date := date |})];
     note_seq := note_seq d + 1 |}.

(** [DELETE FROM notes WHERE name = ?] *)
Definition deleteNoteEntry (nm : list ascii) (d : Db) : Db :=
  {| clips := clips d; clip_seq := clip_seq d;
     notes := filter (λ row, name row.2 ≠ nm) (notes d);
     note_seq := note_seq d |}.

Definition clearNotesTable (d : Db) : Db :=
  {| clips := clips d; clip_seq := clip_seq d; notes := []; note_seq := note_seq d |}.

(** What [clearAllData] does to these two tables. *)
Definition clearAllData (d : Db) : Db := clearNotesTable (clearClipsTable d).

(** The store with the caches [gClip] and [gNotes] of index.js. *)
Record State : Type := {
  db : Db;
  gClip : list (list ascii);
  gNotes : list note
  }.

(** The hydration of the two caches at the start of the process. *)
Definition startup (d : Db) : State :=
  {| db := d; gClip := getClipHistory d; gNotes := getAllNotes d |}.

(** [app.get('/api/clip')]: the [try] branch and the [catch] branch. *)
Definition clip_get (s : State) : list ascii := getLastClipText (db s).

Definition clip_get_fallback (s : State) : list ascii := default [] (last (gClip s)).

(** [app.post('/api/clip/save')] on [req.body.data] *)
Definition clip_save (data : list ascii) (s : State) : Z * State :=
  let text := trim data in
  match text with
  | [] => (400, s)
  | _ :: _ =>
      (200, {| db := addClipEntry text (db s); gClip := gClip s ++ [text];
               gNotes := gNotes s |})
  end.

(** [app.get('/api/clip/erase')] *)
Definition clip_erase (s : State) : State :=
  {| db := clearClipsTable (db s); gClip := []; gNotes := gNotes s |}.

(** [app.post('/api/notes/add')] on the fields of [req.body] *)
Definition notes_add (body_name body_text body_date : list ascii) (s : State)
    : Z * State :=
  let nName := trim body_name in
  let nText := trim body_text in
  let nDate := trim body_date in
  if bool_decide (nName = []) || bool_decide (nText = []) || bool_decide (nDate = [])
  then (400, s)
  else
    (200, {| db := addNoteEntry nName nText nDate (db s); gClip := gClip s;
             gNotes := gNotes s ++
               [{| name := nName; text := nText; date := nDate |}] |}).

(** [app.get('/api/notes/del/:name')] *)
Definition notes_del (noteName : list ascii) (s : State) : State :=
  {| db := deleteNoteEntry noteName (db s); gClip := gClip s;
     gNotes := filter (λ ob, name ob ≠ noteName) (gNotes s) |}.

(** What [/api/restart] and the first part of [/api/reload] do here. *)
Definition restart (s : State) : State :=
  {| db := clearAllData (db s); gClip := []; gNotes := [] |}.

Inductive Op : Type :=
  | OpClipSave (data : list ascii)
  | OpClipErase
  | OpNotesAdd (name text date : list ascii)
  | OpNotesDel (name : list ascii)
  | OpRestart.

Definition step (o : Op) (s : State) : State :=
  match o with
  | OpClipSave data => (clip_save data s).2
  | OpClipErase => clip_erase s
  | OpNotesAdd n t d => (notes_add n t d s).2
  | OpNotesDel n => notes_del n s
  | OpRestart => restart s
  end.

(** The states of a server started over the tables [d]. *)
Inductive reachable (d : Db) : State → Prop :=
  | reach_startup : reachable d (startup d)
  | reach_step o s : reachable d s → reachable d (step o s).

(** A stored string that passed the validation of a route. *)
Definition kept (s : list ascii) : Prop := s ≠ [] ∧ trim s = s.

End Pad.

(* ================================================================= *)
(** ** How the caches, the store and the timers agree *)

Module Agreement.
Import JsString Engine Views.

(** The log cache is what the store gives back. *)
Definition log_mirrored (s : State) : Prop :=
  gTasksLog s = Store.getLastLogs MAX_LOG_ENTRIES (db s).

(** The task timers are the entries of [gIntervals], one for one. *)
Definition timers_listed (s : State) : Prop :=
  task_timers (timers s) = interval_entries (gIntervals s).

(** The cache and the table hold the same task names, blank names of
  the table apart. *)
Definition names_agree (s : State) : Prop :=
  ∀ n, has_task n (gTasks s) ↔ is_Some (Store.tasks (db s) !! n) ∧ trim n ≠ [].

(** No two timers share a handle. *)
Definition handles_unique (s : State) : Prop := NoDup (tid <$> timers s).

End Agreement.

(* ================================================================= *)
(** * Properties *)

(** ** The retry policy *)

Section RetryPolicy.
Import JsString Retry.

Variable net : nat → outcome.

Lemma schedule_retry ms rest k :
  schedule (S k) (ms :: rest) = Call :: Sleep ms :: schedule k rest.
Proof. reflexivity. Qed.

Lemma retry_loop_stops rest : ∀ n,
  ∃ k, (k ≤ length rest)%nat ∧
       (∀ i, (i < k)%nat → retried (net (n + i)) = true) ∧
       ((k < length rest)%nat → retried (net (n + k)) = false) ∧
       retry_loop net n rest = (schedule k rest, net (n + k)%nat).
Proof.
induction rest as [|ms rest IH]; intros n.
- exists 0%nat. rewrite Nat.add_0_r. cbn. repeat split; auto; lia.
- destruct (retried (net n)) eqn:Hn.
  + destruct (IH (S n)) as (k & Hk & Hlt & Hstop & Hrun).
    exists (S k). cbn [length]. repeat split.
    * lia.
    * intros [|i] Hi; [by rewrite Nat.add_0_r|].
      replace (n + S i)%nat with (S n + i)%nat by lia. apply Hlt. lia.
    * intros Hi. replace (n + S k)%nat with (S n + k)%nat by lia.
      apply Hstop. lia.
    * rewrite schedule_retry.
      replace (n + S k)%nat with (S n + k)%nat by lia.
      cbn [retry_loop]. rewrite Hrun.
      unfold retried in Hn. destruct (net n); by rewrite Hn.
  + exists 0%nat. rewrite Nat.add_0_r. cbn [length]. repeat split.
    * lia.
    * lia.
    * done.
    * cbn [retry_loop]. unfold retried in Hn.
      destruct (net n); by rewrite Hn.
Qed.

End RetryPolicy.

(** C2.  [withRetries] sleeps the backoffs 500, 1500, 3500 in order and
    sends a request again exactly while the outcome is a status of 408,
    429 or at least 500, or an error whose code is one of the transient
    network codes; the first other outcome is returned (or thrown) at
    once, and when every backoff is used one last request is sent without
    a sleep and its outcome is the result, whatever it is. *)
Theorem withRetries_policy :
    Retry.RETRY_BACKOFFS_MS = [500; 1500; 3500] ∧
    (∀ res, Retry.retried (Retry.Resolved res) = true ↔
            Retry.statusCode res = 408 ∨ Retry.statusCode res = 429 ∨
            500 ≤ Retry.statusCode res) ∧
    (∀ err, Retry.retried (Retry.Rejected err) = true ↔
            ∃ c, Retry.code err = Some c ∧
                 c ∈ map JsString.str
                       ["ETIMEDOUT"; "ECONNRESET"; "EAI_AGAIN"; "ENOTFOUND";
                        "ECONNREFUSED"; "EHOSTUNREACH"; "ENETUNREACH"; "EPIPE"]) ∧
    (∀ net backoffsMs,
       ∃ k, (k ≤ length backoffsMs)%nat ∧
            (∀ i, (i < k)%nat → Retry.retried (net i) = true) ∧
            ((k < length backoffsMs)%nat → Retry.retried (net k) = false) ∧
            Retry.withRetries net backoffsMs = (Retry.schedule k backoffsMs, net k)).
Proof.
  split; [reflexivity|]. split; [|split].
  - intros res. cbn. unfold Retry.isTransientStatus.
    rewrite !orb_true_iff, !Z.eqb_eq, Z.leb_le. tauto.
  - intros err. cbn. unfold Retry.isTransientError.
    destruct (Retry.code err) as [c|].
    + rewrite bool_decide_eq_true. split.
      * intros Hc. exists c. split; [done|].
        unfold Retry.transient_codes in Hc. cbn [map] in *.
        rewrite !elem_of_cons in *. tauto.
      * intros (c' & [= <-] & Hc).
        unfold Retry.transient_codes. cbn [map] in *.
        rewrite !elem_of_cons in *. tauto.
    + split; [done|]. by intros (c & ? & _).
  - intros net backoffsMs.
    destruct (retry_loop_stops net backoffsMs 0) as (k & ? & ? & ? & ?).
    exists k. auto.
Qed.

(** ** The log sink *)

Section LogSink.
Import JsString Engine.

Lemma pushLog_db entry s :
  db (pushLog entry s) = Store.addLog entry (db s).
Proof. reflexivity. Qed.

Lemma pushLog_mirror entry s :
  gTasksLog (pushLog entry s) =
  drop (length (gTasksLog s ++ [entry]) - MAX_LOG_ENTRIES) (gTasksLog s ++ [entry]).
Proof.
unfold pushLog. cbn -[Nat.ltb Nat.sub drop MAX_LOG_ENTRIES].
destruct (Nat.ltb _ _) eqn:Hlt; [done|].
apply Nat.ltb_ge in Hlt.
replace (_ - _)%nat with 0%nat by lia. done.
Qed.

Lemma getLastLogs_last limit d :
  Store.getLastLogs limit d =
  drop (length (Store.logs d) - limit) (map Store.message (Store.logs d)).
Proof.
unfold Store.getLastLogs. rewrite take_reverse, reverse_involutive.
by rewrite fmap_drop.
Qed.

End LogSink.

(** C3, as the code has it.  An append keeps the most recent 1000 entries
    of the in-memory log, evicting the oldest on that insert, so that the
    mirror never holds more than 1000; the persisted log gains one row
    and loses none, and only what is read back from it is limited to the
    most recent 1000. *)
Theorem pushLog_retention entry s :
    let s' := Engine.pushLog entry s in
    Engine.gTasksLog s' =
      drop (length (Engine.gTasksLog s ++ [entry]) - 1000) (Engine.gTasksLog s ++ [entry]) ∧
    (length (Engine.gTasksLog s') ≤ 1000)%nat ∧
    Store.message <$> Store.logs (Engine.db s') =
      (Store.message <$> Store.logs (Engine.db s)) ++ [entry] ∧
    length (Store.logs (Engine.db s')) = S (length (Store.logs (Engine.db s))) ∧
    (length (Store.getLastLogs Engine.MAX_LOG_ENTRIES (Engine.db s')) ≤ 1000)%nat ∧
    Store.getLastLogs Engine.MAX_LOG_ENTRIES (Engine.db s') =
      drop (length (Store.logs (Engine.db s')) - 1000)
           (Store.message <$> Store.logs (Engine.db s')).
Proof.
  cbn zeta. rewrite pushLog_mirror, pushLog_db, getLastLogs_last.
  change Engine.MAX_LOG_ENTRIES with 1000%nat.
  repeat split.
  - rewrite length_drop. lia.
  - cbn. by rewrite fmap_app.
  - cbn. rewrite length_app. cbn. lia.
  - rewrite length_drop, length_map. lia.
Qed.

(** C3 fails as stated: after 1001 appends the persisted log holds 1001
    rows. *)
Lemma pushLog_store_unbounded :
    let s := Nat.iter 1000 (Engine.pushLog (JsString.str "ok"))
               (Engine.startup Store.empty_db) in
    ¬ (length (Store.logs (Engine.db (Engine.pushLog (JsString.str "ok") s))) ≤ 1000)%nat.
Proof.
  cbn zeta. 
  assert (H : length (Store.logs (Engine.db (Engine.pushLog (JsString.str "ok")
             (Nat.iter 1000 (Engine.pushLog (JsString.str "ok"))
                (Engine.startup Store.empty_db))))) = 1001%nat)
    by (vm_compute; reflexivity).
  rewrite H. lia.
Qed.

(** ** Numbers and numerals *)

Section Numerals.
Import JsString JsNumber.

Lemma digit_char_digit d : 0 ≤ d < 10 → is_digit (digit_char d) = true.
Proof.
intros Hd. assert (Hc : d = 0 ∨ d = 1 ∨ d = 2 ∨ d = 3 ∨ d = 4 ∨ d = 5 ∨
                    d = 6 ∨ d = 7 ∨ d = 8 ∨ d = 9) by lia.
destruct Hc as [->|[->|[->|[->|[->|[->|[->|[->|[->| ->]]]]]]]]]; reflexivity.
Qed.

Lemma digit_val_char d : 0 ≤ d < 10 → digit_val (digit_char d) = d.
Proof.
intros Hd. assert (Hc : d = 0 ∨ d = 1 ∨ d = 2 ∨ d = 3 ∨ d = 4 ∨ d = 5 ∨
                    d = 6 ∨ d = 7 ∨ d = 8 ∨ d = 9) by lia.
destruct Hc as [->|[->|[->|[->|[->|[->|[->|[->|[->| ->]]]]]]]]]; reflexivity.
Qed.

Lemma decimal_digits_acc fuel : ∀ n acc,
  decimal_digits fuel n acc = decimal_digits fuel n [] ++ acc.
Proof.
induction fuel as [|fuel IH]; intros n acc; [done|].
cbn [decimal_digits]. destruct (n <? 10); [done|].
rewrite (IH _ (_ :: acc)), (IH _ [_]). by rewrite <- app_assoc.
Qed.

Lemma decimal_digits_all fuel : ∀ n acc,
  all is_digit acc → all is_digit (decimal_digits fuel n acc).
Proof.
induction fuel as [|fuel IH]; intros n acc Hacc; [done|].
assert (all is_digit (digit_char (n mod 10) :: acc)).
{ constructor; [|done]. apply digit_char_digit. apply Z.mod_pos_bound. lia. }
cbn [decimal_digits]. destruct (n <? 10); auto.
Qed.

Lemma decimal_all n : all is_digit (decimal n).
Proof. apply decimal_digits_all. constructor. Qed.

Lemma decimal_digits_nonempty fuel n : decimal_digits (S fuel) n [] ≠ [].
Proof.
cbn [decimal_digits]. destruct (n <? 10); [done|].
rewrite decimal_digits_acc. by destruct (decimal_digits _ _ _).
Qed.

Lemma decimal_nonempty n : decimal n ≠ [].
Proof. apply decimal_digits_nonempty. Qed.

Lemma digits_value_snoc s c :
  digits_value (s ++ [c]) = 10 * digits_value s + digit_val c.
Proof. unfold digits_value. by rewrite fold_left_app. Qed.

Lemma digits_value_decimal_digits fuel : ∀ n,
  0 ≤ n < 2 ^ Z.of_nat fuel →
  digits_value (decimal_digits fuel n []) = n.
Proof.
induction fuel as [|fuel IH]; intros n Hn.
- cbn in Hn. cbn. lia.
- cbn [decimal_digits]. destruct (n <? 10) eqn:Hlt.
  + apply Z.ltb_lt in Hlt. cbn. rewrite Z.mod_small by lia.
    rewrite digit_val_char; lia.
  + apply Z.ltb_ge in Hlt. rewrite decimal_digits_acc, digits_value_snoc.
    rewrite Nat2Z.inj_succ, Z.pow_succ_r in Hn by lia.
    rewrite IH.
    * rewrite digit_val_char by (apply Z.mod_pos_bound; lia).
      pose proof (Z.div_mod n 10). lia.
    * split; [apply Z.div_pos; lia|].
      apply Z.div_lt_upper_bound; lia.
Qed.

Lemma digits_value_decimal n : 0 ≤ n → digits_value (decimal n) = n.
Proof.
intros Hn. apply digits_value_decimal_digits. split; [done|].
destruct (decide (n = 0)) as [->|]; [done|].
rewrite Nat2Z.inj_succ, Z2Nat.id by apply Z.log2_nonneg.
apply Z.log2_spec. lia.
Qed.

Lemma digit_not_space c : is_digit c = true → is_space c = false.
Proof. destruct c as [[] [] [] [] [] [] [] []]; done. Qed.

Lemma digit_not_tilde c : is_digit c = true → c ≠ "~"%char.
Proof. destruct c as [[] [] [] [] [] [] [] []]; done. Qed.

Lemma digit_not_sign c :
  is_digit c = true → c ≠ "-"%char ∧ c ≠ "+"%char.
Proof. destruct c as [[] [] [] [] [] [] [] []]; done. Qed.

Lemma digits_plain s : all is_digit s → plain s.
Proof. intros Hs. eapply Forall_impl; [exact Hs|]. apply digit_not_tilde. Qed.

Lemma take_while_all f s : all f s → take_while f s = s.
Proof. induction 1 as [|c s Hc _ IH]; cbn; [done|]. by rewrite Hc, IH. Qed.

(** [parseInt] on a run of digits, as the groups [(\d+)] are. *)
Lemma parseInt_digits s :
  all is_digit s → s ≠ [] → digits_value s < 10 ^ 20 →
  parseInt s = Some (JNum (round_double (digits_value s))).
Proof.
intros Hs Hne Hv. destruct s as [|c s]; [done|].
pose proof (Forall_inv Hs) as Hc. cbn beta in Hc.
unfold parseInt. cbn [drop_while]. rewrite (digit_not_space _ Hc).
destruct (digit_not_sign _ Hc) as [Hm Hp].
assert (Hsign : match c :: s with
                | "-"%char :: t => (true, t)
                | "+"%char :: t => (false, t)
                | _ => (false, c :: s)
                end = (false, c :: s)).
{ destruct c as [[] [] [] [] [] [] [] []]; done. }
rewrite Hsign. rewrite (take_while_all _ _ Hs).
apply Z.leb_gt in Hv. by rewrite Hv.
Qed.

Lemma round_double_safe z : Z.abs z ≤ 2 ^ 53 → round_double z = z.
Proof.
intros Hz. unfold round_double.
destruct (Z.abs z <? 2 ^ 53) eqn:Hlt; [done|].
apply Z.ltb_ge in Hlt.
assert (Ha : z = 2 ^ 53 ∨ z = - 2 ^ 53) by lia.
destruct Ha as [-> | ->]; reflexivity.
Qed.

Lemma parseInt_decimal n :
  0 ≤ n ≤ 2 ^ 53 → parseInt (decimal n) = Some (JNum n).
Proof.
intros Hn. rewrite parseInt_digits.
- rewrite digits_value_decimal by lia. rewrite round_double_safe; [done|lia].
- apply decimal_all.
- apply decimal_nonempty.
- rewrite digits_value_decimal; lia.
Qed.

Lemma toString_num z : Z.abs z ≤ 2 ^ 53 → toString (JNum z) = Some (numeral z).
Proof. intros Hz. cbn. apply Z.ltb_ge in Hz. by rewrite Hz. Qed.

Lemma numeral_nonneg z : 0 ≤ z → numeral z = decimal z.
Proof. intros Hz. unfold numeral. apply Z.ltb_ge in Hz. by rewrite Hz. Qed.

Lemma numeral_neg z : z < 0 → numeral z = "-"%char :: decimal (- z).
Proof. intros Hz. unfold numeral. apply Z.ltb_lt in Hz. by rewrite Hz. Qed.

End Numerals.

(** ** The matcher *)

Section Matcher.
Import JsString Regex.

Lemma rep_greedy_run {A} cls (k : list ascii → list ascii → option A) run :
  ∀ taken rest r,
    all cls run → stops cls rest → k (taken ++ run) rest = Some r →
    rep_greedy cls k taken (run ++ rest) = Some r.
Proof.
induction run as [|c run IH]; intros taken rest r Hrun Hstop Hk.
- rewrite app_nil_r in Hk. cbn [app].
  destruct rest as [|x rest]; cbn in *; [done|]. by rewrite Hstop.
- apply Forall_cons in Hrun as [Hc Hrun]. cbn [app rep_greedy].
  rewrite Hc, (IH (taken ++ [c]) rest r); auto.
  by rewrite <- app_assoc.
Qed.

(** A greedy quantifier followed by a match of the rest takes the whole
  run when the run cannot go on. *)
Lemma match_greedy min capture cls p run rest caps rest' :
  all cls run → stops cls rest → (min ≤ length run)%nat →
  match_items p rest = Some (caps, rest') →
  match_items (Rep true min capture cls :: p) (run ++ rest) =
  Some (if capture then run :: caps else caps, rest').
Proof.
intros Hrun Hstop Hmin Hp. cbn [match_items].
apply rep_greedy_run; auto. cbn [app].
apply Nat.leb_le in Hmin. by rewrite Hmin, Hp.
Qed.

(** A lazy quantifier stops at the first place where the rest matches. *)
Lemma rep_lazy_run {A} cls (k : list ascii → list ascii → option A) run :
  ∀ taken rest r,
    all cls run →
    (∀ a b, run = a ++ b → b ≠ [] → k (taken ++ a) (b ++ rest) = None) →
    k (taken ++ run) rest = Some r →
    rep_lazy cls k taken (run ++ rest) = Some r.
Proof.
induction run as [|c run IH]; intros taken rest r Hrun Hnot Hk.
- rewrite app_nil_r in Hk. cbn [app].
  destruct rest; cbn [rep_lazy]; by rewrite Hk.
- apply Forall_cons in Hrun as [Hc Hrun]. cbn [app rep_lazy].
  pose proof (Hnot [] (c :: run) eq_refl ltac:(done)) as H0.
  rewrite app_nil_r in H0. cbn [app] in H0. rewrite H0, Hc.
  apply IH; auto.
  + intros a b -> Hb. rewrite <- app_assoc. by apply (Hnot (c :: a) b).
  + by rewrite <- app_assoc.
Qed.

Lemma rep_greedy_none {A} cls (k : list ascii → list ascii → option A)
    (P : list ascii → Prop) :
  (∀ c s, P (c :: s) → P s) →
  (∀ taken rest, P rest → k taken rest = None) →
  ∀ s taken, P s → rep_greedy cls k taken s = None.
Proof.
intros Htl Hk. induction s as [|c s IH]; intros taken Hs; cbn; [auto|].
destruct (cls c); [|auto]. rewrite IH by eauto. auto.
Qed.

Lemma rep_lazy_none {A} cls (k : list ascii → list ascii → option A)
    (P : list ascii → Prop) :
  (∀ c s, P (c :: s) → P s) →
  (∀ taken rest, P rest → k taken rest = None) →
  ∀ s taken, P s → rep_lazy cls k taken s = None.
Proof.
intros Htl Hk. induction s as [|c s IH]; intros taken Hs; cbn.
- by rewrite Hk.
- rewrite Hk by done. destruct (cls c); eauto.
Qed.

Lemma plain_tail c s : plain (c :: s) → plain s.
Proof. apply Forall_inv_tail. Qed.

(** An expression that ends in [~] matches nothing in a text without. *)
Lemma match_items_plain p : ∀ s,
  last p = Some (Chr "~") → plain s → match_items p s = None.
Proof.
induction p as [|i p IH]; intros s Hlast Hs; [done|].
destruct i as [c|greedy min capture cls].
- destruct s as [|x s]; [done|]. cbn [match_items].
  destruct (Ascii.eqb x c) eqn:Hx; [|done].
  destruct p as [|j p].
  + cbn in Hlast. injection Hlast as ->. apply Ascii.eqb_eq in Hx as ->.
    by apply Forall_inv in Hs.
  + apply IH; [done|]. by apply plain_tail in Hs.
- assert (Hp : last p = Some (Chr "~")) by (by destruct p).
  assert (Hk : ∀ taken rest, plain rest →
            (if (min <=? length taken)%nat
             then match match_items p rest with
                  | Some (caps, rest') =>
                      Some (if capture then taken :: caps else caps, rest')
                  | None => None
                  end
             else None) = None).
  { intros taken rest Hrest. rewrite (IH rest) by done.
    by destruct (_ <=? _)%nat. }
  cbn [match_items]. destruct greedy.
  + apply (rep_greedy_none _ _ plain); [apply plain_tail|exact Hk|exact Hs].
  + apply (rep_lazy_none _ _ plain); [apply plain_tail|exact Hk|exact Hs].
Qed.

Lemma search_nil p : match_items p [] = None → search p [] = None.
Proof. intros H. cbn. by rewrite H. Qed.

Lemma search_miss p c s :
  match_items p (c :: s) = None →
  search p (c :: s) = pre_add [c] (search p s).
Proof. intros H. cbn [search]. rewrite H. by destruct (search p s) as [[[??]?]|]. Qed.

Lemma search_hit p s caps rest :
  match_items p s = Some (caps, rest) → search p s = Some ([], caps, rest).
Proof. intros H. destruct s; cbn [search]; by rewrite H. Qed.

Lemma pre_add_app w1 w2 r : pre_add w1 (pre_add w2 r) = pre_add (w1 ++ w2) r.
Proof. destruct r as [[[??]?]|]; cbn; [|done]. by rewrite app_assoc. Qed.

(** The scan steps over a text without [~]. *)
Lemma search_plain p w s :
  head p = Some (Chr "~") → plain w →
  search p (w ++ s) = pre_add w (search p s).
Proof.
intros Hp. destruct p as [|i p]; [done|]. injection Hp as ->.
induction 1 as [|c w Hc _ IH]; cbn [app].
- by destruct (search _ s) as [[[??]?]|].
- rewrite search_miss, IH, pre_add_app; [done|].
  cbn. apply Ascii.eqb_neq in Hc. by rewrite Hc.
Qed.

Lemma search_plain_none p s :
  head p = Some (Chr "~") → plain s → search p s = None.
Proof.
intros Hp Hs. rewrite <- (app_nil_r s), search_plain by done.
rewrite search_nil; [done|]. by destruct p as [|[]].
Qed.

(** After the last [~] of a text nothing can match. *)
Lemma search_tail p post :
  head p = Some (Chr "~") → last (tail p) = Some (Chr "~") → plain post →
  search p ("~"%char :: post) = None.
Proof.
intros Hp Hlast Hpost. rewrite search_miss, search_plain_none; auto.
destruct p as [|i p]; [done|]. injection Hp as ->. cbn.
by apply match_items_plain.
Qed.

Lemma rep_greedy_length {A} cls (k : list ascii → list ascii → option A) r :
  ∀ s taken, rep_greedy cls k taken s = Some r →
  ∃ taken' s', k taken' s' = Some r ∧ (length s' ≤ length s)%nat.
Proof.
induction s as [|c s IH]; intros taken H; cbn in H; [by eauto|].
destruct (cls c); [|by eauto].
destruct (rep_greedy cls k (taken ++ [c]) s) as [r'|] eqn:Hr; [|by eauto].
injection H as ->. destruct (IH _ Hr) as (t' & s' & ? & ?).
exists t', s'. cbn. split; [done|lia].
Qed.

Lemma rep_lazy_length {A} cls (k : list ascii → list ascii → option A) r :
  ∀ s taken, rep_lazy cls k taken s = Some r →
  ∃ taken' s', k taken' s' = Some r ∧ (length s' ≤ length s)%nat.
Proof.
induction s as [|c s IH]; intros taken H; cbn in H.
- destruct (k taken []) eqn:Hk; [|done]. injection H as ->. eauto.
- destruct (k taken (c :: s)) eqn:Hk.
  + injection H as ->. eauto.
  + destruct (cls c); [|done]. destruct (IH _ H) as (t' & s' & ? & ?).
    exists t', s'. cbn. split; [done|lia].
Qed.

Lemma match_items_length p : ∀ s caps rest,
  match_items p s = Some (caps, rest) → (length rest ≤ length s)%nat.
Proof.
induction p as [|i p IH]; intros s caps rest H.
- cbn in H. by injection H as _ ->.
- destruct i as [c|greedy min capture cls].
  + destruct s as [|x s]; [done|]. cbn in H.
    destruct (Ascii.eqb x c); [|done]. apply IH in H. cbn. lia.
  + cbn [match_items] in H.
    assert (∃ taken' s', (if (min <=? length taken')%nat
              then match match_items p s' with
                   | Some (caps, rest') =>
                       Some (if capture then taken' :: caps else caps, rest')
                   | None => None
                   end
              else None) = Some (caps, rest) ∧ (length s' ≤ length s)%nat)
      as (t' & s' & Hk & Hlen).
    { destruct greedy; [eapply rep_greedy_length|eapply rep_lazy_length];
        exact H. }
    destruct (_ <=? _)%nat; [|done].
    destruct (match_items p s') as [[caps' rest']|] eqn:Hp; [|done].
    injection Hk as _ ->. apply IH in Hp. lia.
Qed.

(** A match of an expression that starts with a character is not empty. *)
Lemma search_shorter p c : ∀ s pre caps rest,
  head p = Some (Chr c) → search p s = Some (pre, caps, rest) →
  (length rest < length s)%nat.
Proof.
intros s pre caps rest Hp. destruct p as [|i p]; [done|]. injection Hp as ->.
revert pre. induction s as [|x s IH]; intros pre H; [done|].
cbn [search] in H.
destruct (match_items (Chr c :: p) (x :: s)) as [[caps' rest']|] eqn:Hm.
- injection H as _ -> ->. cbn in Hm. destruct (Ascii.eqb x c); [|done].
  apply match_items_length in Hm. cbn. lia.
- destruct (search (Chr c :: p) s) as [[[pre' caps'] rest']|] eqn:Hs; [|done].
  injection H as _ -> ->. specialize (IH _ eq_refl). cbn. lia.
Qed.

Lemma replace_all_fuel_enough p c f :
  head p = Some (Chr c) →
  ∀ n m s, (length s < n)%nat → (length s < m)%nat →
  replace_all_fuel n p f s = replace_all_fuel m p f s.
Proof.
intros Hp. induction n as [|n IH]; intros [|m] s Hn Hm; try lia.
cbn [replace_all_fuel].
destruct (search p s) as [[[pre caps] rest]|] eqn:Hs; [|done].
pose proof (search_shorter _ _ _ _ _ _ Hp Hs).
by rewrite (IH m rest) by lia.
Qed.

Lemma replace_all_hit p c f s pre caps rest :
  head p = Some (Chr c) → search p s = Some (pre, caps, rest) →
  replace_all p f s =
  r ← f caps; tl ← replace_all p f rest; Some (pre ++ r ++ tl).
Proof.
intros Hp Hs. unfold replace_all at 1. cbn [replace_all_fuel]. rewrite Hs.
pose proof (search_shorter _ _ _ _ _ _ Hp Hs).
by rewrite (replace_all_fuel_enough p c f Hp (length s) (S (length rest)) rest)
  by lia.
Qed.

Lemma replace_all_miss p f s : search p s = None → replace_all p f s = Some s.
Proof. intros Hs. unfold replace_all. cbn. by rewrite Hs. Qed.

Lemma replace_miss p f s : search p s = None → replace p f s = Some s.
Proof. intros Hs. unfold replace. by rewrite Hs. Qed.

Lemma replace_hit p f s pre caps rest r :
  search p s = Some (pre, caps, rest) → f caps = Some r →
  replace p f s = Some (pre ++ r ++ rest).
Proof. intros Hs Hf. unfold replace. by rewrite Hs, Hf. Qed.

End Matcher.

(** ** The placeholder expressions *)

Section Placeholders.
Import JsString JsNumber Regex Macro.

Lemma match_chr c p s : match_items (Chr c :: p) (c :: s) = match_items p s.
Proof. cbn. by rewrite Ascii.eqb_refl. Qed.

Lemma min_one (D : list ascii) : D ≠ [] → (1 ≤ length D)%nat.
Proof. destruct D; cbn; [done|lia]. Qed.

Lemma space_not_digit c : is_space c = true → is_digit c = false.
Proof. destruct c as [[] [] [] [] [] [] [] []]; done. Qed.

Lemma plain_nil : plain [].
Proof. constructor. Qed.

Lemma plain_cons c s : c ≠ "~"%char → plain s → plain (c :: s).
Proof. by constructor. Qed.

Lemma plain_app a b : plain a → plain b → plain (a ++ b).
Proof. intros. by apply Forall_app. Qed.

Lemma decimal_plain n : plain (decimal n).
Proof. apply digits_plain, decimal_all. Qed.

Lemma numeral_plain z : plain (numeral z).
Proof.
unfold numeral. destruct (z <? 0); [apply plain_cons; [done|]|];
  apply decimal_plain.
Qed.

Lemma padStart2_plain s : plain s → plain (padStart2 s).
Proof.
intros Hs. destruct s as [|a [|b s]]; cbn; [|apply plain_cons; [done|]|]; try done.
repeat constructor; done.
Qed.

Lemma getHour_plain e : plain (getHour e).
Proof.
unfold getHour. repeat apply plain_app;
  auto using padStart2_plain, decimal_plain.
by repeat constructor.
Qed.

Lemma getDate_plain e : plain (getDate e).
Proof.
unfold getDate. repeat apply plain_app;
  auto using padStart2_plain, decimal_plain; by repeat constructor.
Qed.

(** An expression whose second character is not a digit does not match
  where a [~] is followed by a digit. *)
Lemma match_second_miss p x D rest :
  p !! 0%nat = Some (Chr "~") → p !! 1%nat = Some (Chr x) →
  is_digit x = false → all is_digit D → D ≠ [] →
  match_items p ("~"%char :: D ++ rest) = None.
Proof.
intros H0 H1 Hx HD Hne. destruct p as [|i [|j p]]; try done.
injection H0 as ->. injection H1 as ->. destruct D as [|d D]; [done|].
cbn. destruct (Ascii.eqb d x) eqn:Hd; [|done].
apply Ascii.eqb_eq in Hd as ->. apply Forall_inv in HD. cbn in HD. congruence.
Qed.

Lemma rep_greedy_none_cls {A} cls (k : list ascii → list ascii → option A)
    (P : list ascii → Prop) :
  (∀ c s, P (c :: s) → cls c = true → P s) →
  (∀ taken rest, P rest → k taken rest = None) →
  ∀ s taken, P s → rep_greedy cls k taken s = None.
Proof.
intros Htl Hk. induction s as [|c s IH]; intros taken Hs; cbn; [auto|].
destruct (cls c) eqn:Hc; [|auto]. rewrite IH by eauto. auto.
Qed.

(** [~A + B~] is no match of the subtraction, nor [~A - B~] one of the
  addition: behind the digits and the white space the sign differs. *)
Lemma match_other_sign x y p D ws rest :
  x ≠ y → is_digit x = false → is_space x = false →
  is_digit y = false → is_space y = false →
  all is_digit D → all is_space ws →
  match_items (Chr "~" :: Rep true 1 true is_digit :: Rep true 0 false is_space
               :: Chr x :: p) ("~"%char :: D ++ ws ++ y :: rest) = None.
Proof.
intros Hxy Hxd Hxs Hyd Hys HD Hws. rewrite match_chr.
set (P := λ s : list ascii,
       ∃ d w, all is_digit d ∧ all is_space w ∧ s = d ++ w ++ y :: rest).
assert (Hhead : ∀ s, P s → match_items (Chr x :: p) s = None).
{ intros s (d & w & Hd & Hw & ->).
  destruct d as [|c d]; [destruct w as [|c w]|]; cbn.
  - destruct (Ascii.eqb y x) eqn:E; [|done]. apply Ascii.eqb_eq in E. congruence.
  - destruct (Ascii.eqb c x) eqn:E; [|done]. apply Ascii.eqb_eq in E as ->.
    apply Forall_inv in Hw. cbn in Hw. congruence.
  - destruct (Ascii.eqb c x) eqn:E; [|done]. apply Ascii.eqb_eq in E as ->.
    apply Forall_inv in Hd. cbn in Hd. congruence. }
assert (Hsp : ∀ s taken, P s →
          rep_greedy is_space
            (λ taken rest0, if (0 <=? length taken)%nat
               then match match_items (Chr x :: p) rest0 with
                    | Some (caps, rest') => Some (caps, rest')
                    | None => None
                    end
               else None) taken s = None).
{ apply (rep_greedy_none_cls _ _ P).
  - intros c s (d & w & Hd & Hw & Hs) Hc.
    destruct d as [|c' d]; [destruct w as [|c' w]|]; cbn in Hs;
      injection Hs as -> ->.
    + congruence.
    + exists [], w. repeat split; [constructor|by apply Forall_inv_tail in Hw].
    + apply Forall_inv in Hd. cbn in Hd.
      apply space_not_digit in Hc. congruence.
  - intros taken rest0 H. by rewrite (Hhead _ H). }
cbn [match_items]. apply (rep_greedy_none_cls _ _ P).
- intros c s (d & w & Hd & Hw & Hs) Hc.
  destruct d as [|c' d]; [destruct w as [|c' w]|]; cbn in Hs;
    injection Hs as -> ->.
  + congruence.
  + apply Forall_inv in Hw. cbn in Hw. apply space_not_digit in Hw. congruence.
  + exists d, w. repeat split; [by apply Forall_inv_tail in Hd|done].
- intros taken rest0 H. destruct (_ <=? _)%nat; [|done].
  cbn [match_items]. by rewrite (Hsp _ _ H).
- by exists D, ws.
Qed.

End Placeholders.

Create HintDb plain.
#[export] Hint Resolve plain_nil plain_app digits_plain decimal_plain
    numeral_plain getHour_plain getDate_plain : plain.
#[export] Hint Extern 1 (JsString.plain (_ :: _)) =>
    apply plain_cons; [discriminate|] : plain.

(** Symbolic run of [search] over a text made of characters, of blocks
    without [~] and of digit blocks. *)
Ltac plain_side := first [reflexivity | assumption | solve [eauto 8 with plain]].

Ltac miss_here :=
    first
      [ reflexivity
      | eapply match_second_miss; [reflexivity|reflexivity|reflexivity|eassumption|eassumption]
      | eapply (match_other_sign "+" "-"); [discriminate|reflexivity..|eassumption|eassumption]
      | eapply (match_other_sign "-" "+"); [discriminate|reflexivity..|eassumption|eassumption] ].

Ltac scan :=
    repeat first
      [ rewrite search_nil by reflexivity
      | rewrite search_tail by plain_side
      | rewrite search_plain by plain_side
      | rewrite search_miss by miss_here ].

Ltac norm_str :=
    repeat (progress (cbn [app JsString.str list_ascii_of_string];
                      rewrite <- ?app_assoc)).

Ltac dead :=
    norm_str; first [ apply search_plain_none; plain_side
                    | scan; reflexivity ].

(** ** One run of a template *)

Lemma bind_some {A B} (x : A) (f : A → option B) : Some x ≫= f = f x.
Proof. reflexivity. Qed.

Ltac next_step := rewrite ?bind_some; cbv beta.

Ltac step_miss :=
    first [rewrite replace_miss by dead | rewrite replace_all_miss by dead];
    next_step.

Section Expansion.
Import JsString JsNumber Regex Macro.

Lemma eval_inert e s : inert s → evalTemplate e s = Some s.
Proof.
intros (H1 & H2 & H3 & H4 & H5 & H6 & H7 & H8 & H9 & H10).
unfold evalTemplate, replace_str.
repeat (first [rewrite replace_miss by assumption
            |rewrite replace_all_miss by assumption]; next_step).
done.
Qed.

Lemma advance_inert s : inert s → advanceTemplate s = Some s.
Proof.
intros (H1 & H2 & H3 & H4 & H5 & H6 & H7 & H8 & H9 & H10).
unfold advanceTemplate.
repeat (first [rewrite replace_miss by assumption
            |rewrite replace_all_miss by assumption]; next_step).
done.
Qed.

Lemma plain_inert s : plain s → inert s.
Proof. intros Hs. repeat split; by apply search_plain_none. Qed.

Lemma match_step tag D post :
  tag = "~inc$" ∨ tag = "~dec$" →
  all is_digit D → D ≠ [] →
  match_items (lit tag ++ [Rep true 1 true is_digit] ++ lit "~")
              (str tag ++ D ++ str "~" ++ post) = Some ([D], post).
Proof.
intros Htag HD Hne.
destruct Htag as [-> | ->];
cbn [lit str list_ascii_of_string map app]; rewrite !match_chr;
(apply (match_greedy 1 true);
  [exact HD|reflexivity|by apply min_one|by rewrite match_chr]).
Qed.

Lemma search_inc pre D post :
  plain pre → all is_digit D → D ≠ [] →
  search re_inc (pre ++ str "~inc$" ++ D ++ str "~" ++ post) = Some (pre, [D], post).
Proof.
intros Hpre HD Hne. rewrite search_plain by done.
rewrite (search_hit _ _ [D] post) by (apply match_step; auto).
cbn. by rewrite app_nil_r.
Qed.

Lemma search_dec pre D post :
  plain pre → all is_digit D → D ≠ [] →
  search re_dec (pre ++ str "~dec$" ++ D ++ str "~" ++ post) = Some (pre, [D], post).
Proof.
intros Hpre HD Hne. rewrite search_plain by done.
rewrite (search_hit _ _ [D] post) by (apply match_step; auto).
cbn. by rewrite app_nil_r.
Qed.

Lemma cb_number_digits D :
  all is_digit D → D ≠ [] → 0 ≤ digits_value D ≤ 2 ^ 53 →
  cb_number [D] = Some (decimal (digits_value D)).
Proof.
intros HD Hne Hv. cbn. rewrite parseInt_digits by (auto; lia). cbn [mbind option_bind].
rewrite round_double_safe by lia. rewrite toString_num by lia.
by rewrite numeral_nonneg by lia.
Qed.

Lemma cb_step_digits tag op D z :
  all is_digit D → D ≠ [] → 0 ≤ digits_value D ≤ 2 ^ 53 →
  op (JNum (digits_value D)) (JNum 1) = JNum z → Z.abs z ≤ 2 ^ 53 →
  cb_step tag op [D] = Some (str tag ++ numeral z ++ str "~").
Proof.
intros HD Hne Hv Hop Hz. cbn -[str]. rewrite parseInt_digits by (auto; lia).
cbn [mbind option_bind]. rewrite round_double_safe by lia.
rewrite Hop, toString_num by lia. done.
Qed.

(** The value and the next template of [~inc$D~] in a text without
  other placeholders. *)
Lemma eval_inc e pre post D :
  plain pre → plain post → all is_digit D → D ≠ [] →
  0 ≤ digits_value D ≤ 2 ^ 53 →
  evalTemplate e (pre ++ str "~inc$" ++ D ++ str "~" ++ post) =
  Some (pre ++ decimal (digits_value D) ++ post).
Proof.
intros Hpre Hpost HD Hne Hv. unfold evalTemplate, replace_str.
do 2 step_miss.
rewrite (replace_hit _ _ _ _ _ _ _ (search_inc _ _ _ Hpre HD Hne)
         (cb_number_digits _ HD Hne Hv)). next_step.
repeat step_miss. done.
Qed.

Lemma advance_inc pre post D :
  plain pre → plain post → all is_digit D → D ≠ [] →
  0 ≤ digits_value D < 2 ^ 53 →
  advanceTemplate (pre ++ str "~inc$" ++ D ++ str "~" ++ post) =
  Some (pre ++ str "~inc$" ++ decimal (digits_value D + 1) ++ str "~" ++ post).
Proof.
intros Hpre Hpost HD Hne Hv. unfold advanceTemplate.
rewrite (replace_hit _ _ _ _ _ _ _ (search_inc _ _ _ Hpre HD Hne)
         (cb_step_digits "~inc$" add D (digits_value D + 1) HD Hne
            ltac:(lia) ltac:(cbn; by rewrite round_double_safe by lia) ltac:(lia))).
next_step. rewrite numeral_nonneg by lia.
repeat step_miss. by norm_str.
Qed.

Lemma eval_dec e pre post D :
  plain pre → plain post → all is_digit D → D ≠ [] →
  0 ≤ digits_value D ≤ 2 ^ 53 →
  evalTemplate e (pre ++ str "~dec$" ++ D ++ str "~" ++ post) =
  Some (pre ++ decimal (digits_value D) ++ post).
Proof.
intros Hpre Hpost HD Hne Hv. unfold evalTemplate, replace_str.
do 3 step_miss.
rewrite (replace_hit _ _ _ _ _ _ _ (search_dec _ _ _ Hpre HD Hne)
         (cb_number_digits _ HD Hne Hv)). next_step.
repeat step_miss. done.
Qed.

Lemma advance_dec pre post D :
  plain pre → plain post → all is_digit D → D ≠ [] →
  0 ≤ digits_value D ≤ 2 ^ 53 →
  advanceTemplate (pre ++ str "~dec$" ++ D ++ str "~" ++ post) =
  Some (pre ++ str "~dec$" ++ numeral (digits_value D - 1) ++ str "~" ++ post).
Proof.
intros Hpre Hpost HD Hne Hv. unfold advanceTemplate.
step_miss.
rewrite (replace_hit _ _ _ _ _ _ _ (search_dec _ _ _ Hpre HD Hne)
         (cb_step_digits "~dec$" sub D (digits_value D - 1) HD Hne
            ltac:(lia) ltac:(cbn; by rewrite round_double_safe by lia) ltac:(lia))).
next_step.
repeat step_miss. by norm_str.
Qed.

End Expansion.

(** ** Sums and differences *)

Section Arithmetic.
Import JsString JsNumber Regex Macro.

Lemma spaces_plain ws : all is_space ws → plain ws.
Proof.
intros Hws. eapply Forall_impl; [exact Hws|].
intros c. destruct c as [[] [] [] [] [] [] [] []]; done.
Qed.

(** The shape shared by [re_plus] and [re_minus]. *)
Lemma match_arith x A ws1 ws2 B post :
  is_digit x = false → is_space x = false →
  all is_digit A → A ≠ [] → all is_space ws1 → all is_space ws2 →
  all is_digit B → B ≠ [] →
  match_items
  [Chr "~"; Rep true 1 true is_digit; Rep true 0 false is_space; Chr x;
   Rep true 0 false is_space; Rep true 1 true is_digit; Chr "~"]
  (str "~" ++ A ++ ws1 ++ [x] ++ ws2 ++ B ++ str "~" ++ post) =
  Some ([A; B], post).
Proof.
intros Hxd Hxs HA HAne Hw1 Hw2 HB HBne.
cbn [str list_ascii_of_string app]. rewrite match_chr.
apply (match_greedy 1 true _ _ A _ [B]); [done| |by apply min_one|].
{ destruct ws1 as [|c ws1]; cbn; [done|].
apply space_not_digit, (Forall_inv Hw1). }
apply (match_greedy 0 false _ _ ws1 _ [B]); [done|exact Hxs|lia|].
rewrite match_chr.
apply (match_greedy 0 false _ _ ws2 _ [B]); [done| |lia|].
{ destruct B as [|b B]; [done|]. cbn. apply digit_not_space, (Forall_inv HB). }
apply (match_greedy 1 true _ _ B _ []); [done|reflexivity|by apply min_one|].
by rewrite match_chr.
Qed.

Lemma search_plus pre A ws1 ws2 B post :
  plain pre → all is_digit A → A ≠ [] → all is_space ws1 → all is_space ws2 →
  all is_digit B → B ≠ [] →
  search re_plus (pre ++ str "~" ++ A ++ ws1 ++ str "+" ++ ws2 ++ B ++ str "~" ++ post)
  = Some (pre, [A; B], post).
Proof.
intros. rewrite search_plain by done.
rewrite (search_hit _ _ [A; B] post) by (by apply (match_arith "+")).
cbn. by rewrite app_nil_r.
Qed.

Lemma search_minus pre A ws1 ws2 B post :
  plain pre → all is_digit A → A ≠ [] → all is_space ws1 → all is_space ws2 →
  all is_digit B → B ≠ [] →
  search re_minus (pre ++ str "~" ++ A ++ ws1 ++ str "-" ++ ws2 ++ B ++ str "~" ++ post)
  = Some (pre, [A; B], post).
Proof.
intros. rewrite search_plain by done.
rewrite (search_hit _ _ [A; B] post) by (by apply (match_arith "-")).
cbn. by rewrite app_nil_r.
Qed.

Lemma match_other_sign_sp x y p D rest :
  x ≠ y → is_digit x = false → is_space x = false →
  is_digit y = false → is_space y = false → all is_digit D →
  match_items (Chr "~" :: Rep true 1 true is_digit :: Rep true 0 false is_space
             :: Chr x :: p) ("~"%char :: D ++ " "%char :: y :: rest) = None.
Proof.
intros. apply (match_other_sign x y p D [" "%char] rest); auto.
by repeat constructor.
Qed.

Lemma cb_arith_digits sign op A B z :
  all is_digit A → A ≠ [] → 0 ≤ digits_value A ≤ 2 ^ 53 →
  all is_digit B → B ≠ [] → 0 ≤ digits_value B ≤ 2 ^ 53 →
  op (JNum (digits_value A)) (JNum (digits_value B)) = JNum z →
  Z.abs z ≤ 2 ^ 53 →
  cb_arith sign op [A; B] = Some (str "~" ++ numeral z ++ str sign ++ B ++ str "~").
Proof.
intros HA HAne Ha HB HBne Hb Hop Hz. cbn -[str].
rewrite !parseInt_digits by (auto; lia). cbn [mbind option_bind].
rewrite !round_double_safe by lia. rewrite Hop, toString_num by lia. done.
Qed.

End Arithmetic.

#[export] Hint Resolve spaces_plain : plain.

Ltac digit_side :=
    first [eassumption | apply decimal_all | apply decimal_nonempty].

Ltac miss_here ::=
    first
      [ reflexivity
      | eapply match_second_miss; [reflexivity|reflexivity|reflexivity|digit_side|digit_side]
      | eapply (match_other_sign "+" "-"); [discriminate|reflexivity..|digit_side|eassumption]
      | eapply (match_other_sign "-" "+"); [discriminate|reflexivity..|digit_side|eassumption]
      | eapply (match_other_sign_sp "+" "-"); [discriminate|reflexivity..|digit_side]
      | eapply (match_other_sign_sp "-" "+"); [discriminate|reflexivity..|digit_side] ].

Section ArithmeticRuns.
Import JsString JsNumber Regex Macro.

Lemma eval_minus e pre post A ws1 ws2 B :
  plain pre → plain post →
  all is_digit A → A ≠ [] → all is_space ws1 → all is_space ws2 →
  all is_digit B → B ≠ [] →
  evalTemplate e (pre ++ str "~" ++ A ++ ws1 ++ str "-" ++ ws2 ++ B ++ str "~" ++ post) =
  Some (pre ++ A ++ post).
Proof.
intros Hpre Hpost HA HAne Hw1 Hw2 HB HBne. unfold evalTemplate, replace_str.
do 6 step_miss.
rewrite (replace_hit _ _ _ _ _ _ A
       (search_minus _ _ _ _ _ _ Hpre HA HAne Hw1 Hw2 HB HBne) eq_refl).
next_step. repeat step_miss. done.
Qed.

Lemma advance_minus pre post A ws1 ws2 B :
  plain pre → plain post →
  all is_digit A → A ≠ [] → all is_space ws1 → all is_space ws2 →
  all is_digit B → B ≠ [] →
  0 ≤ digits_value A ≤ 2 ^ 53 → 0 ≤ digits_value B ≤ 2 ^ 53 →
  advanceTemplate (pre ++ str "~" ++ A ++ ws1 ++ str "-" ++ ws2 ++ B ++ str "~" ++ post) =
  Some (pre ++ str "~" ++ numeral (digits_value A - digits_value B) ++
      str " - " ++ B ++ str "~" ++ post).
Proof.
intros Hpre Hpost HA HAne Hw1 Hw2 HB HBne Ha Hb. unfold advanceTemplate.
do 4 step_miss.
rewrite (replace_hit _ _ _ _ _ _ _
       (search_minus _ _ _ _ _ _ Hpre HA HAne Hw1 Hw2 HB HBne)
       (cb_arith_digits " - " sub A B (digits_value A - digits_value B)
          HA HAne Ha HB HBne Hb
          ltac:(cbn; by rewrite round_double_safe by lia) ltac:(lia))).
next_step.
destruct (decide (digits_value A - digits_value B < 0)) as [Hneg|Hpos].
- rewrite numeral_neg by done. repeat step_miss. by norm_str.
- rewrite numeral_nonneg by lia. repeat step_miss. by norm_str.
Qed.

(** A template whose placeholder starts with a minus sign is left alone. *)
Lemma negative_inert pre post body rest :
  plain pre → plain post → plain body → plain rest →
  inert (pre ++ str "~-" ++ body ++ rest ++ str "~" ++ post).
Proof. intros. repeat split; dead. Qed.

Lemma dec_negative_inert pre post body :
  plain pre → plain post → plain body →
  inert (pre ++ str "~dec$-" ++ body ++ str "~" ++ post).
Proof. intros. repeat split; dead. Qed.

End ArithmeticRuns.

(** ** Counters *)

Section Counters.
Import JsString JsNumber Regex Macro.

Lemma digit_val_nonneg c : is_digit c = true → 0 ≤ digit_val c.
Proof. destruct c as [[] [] [] [] [] [] [] []]; done. Qed.

Lemma fold_digits_nonneg s : ∀ acc,
  all is_digit s → 0 ≤ acc →
  0 ≤ fold_left (fun acc c => 10 * acc + digit_val c) s acc.
Proof.
induction s as [|c s IH]; intros acc Hs Hacc; [done|].
apply Forall_cons in Hs as [Hc Hs]. cbn. apply IH; [done|].
pose proof (digit_val_nonneg _ Hc). lia.
Qed.

Lemma digits_value_nonneg s : all is_digit s → 0 ≤ digits_value s.
Proof. intros. by apply fold_digits_nonneg. Qed.

Lemma later_runs_fixed s :
  advanceTemplate s = Some s → ∀ n, later_runs n s = Some s.
Proof.
intros Hs. induction n as [|n IH]; [done|].
change (later_runs (S n) s) with (later_runs n s ≫= advanceTemplate).
by rewrite IH.
Qed.

End Counters.

(** C5, within the integers that a JavaScript number holds exactly.  For
    [0 <= N < 2^53] and a template whose text around the placeholder holds
    no other [~]: [~inc$N~] has the value [N] in this run and becomes
    [~inc$(N+1)~] for the next; [~dec$N~] has the value [N] and becomes
    [~dec$(N-1)~]. *)
Theorem inc_dec_exact e pre post N :
    JsString.plain pre → JsString.plain post → 0 ≤ N < 2 ^ 53 →
    let inc n := pre ++ JsString.str "~inc$" ++ JsNumber.numeral n ++ JsString.str "~" ++ post in
    let dec n := pre ++ JsString.str "~dec$" ++ JsNumber.numeral n ++ JsString.str "~" ++ post in
    Macro.evalTemplate e (inc N) = Some (pre ++ JsNumber.numeral N ++ post) ∧
    Macro.advanceTemplate (inc N) = Some (inc (N + 1)) ∧
    Macro.evalTemplate e (dec N) = Some (pre ++ JsNumber.numeral N ++ post) ∧
    Macro.advanceTemplate (dec N) = Some (dec (N - 1)).
Proof.
intros Hpre Hpost HN inc dec. subst inc dec. cbv beta.
rewrite !(numeral_nonneg N), (numeral_nonneg (N + 1)) by lia.
pose proof (decimal_all N) as HD. pose proof (decimal_nonempty N) as Hne.
pose proof (digits_value_decimal N ltac:(lia)) as Hv.
repeat split.
- rewrite eval_inc by (auto; lia). by rewrite Hv.
- rewrite advance_inc by (auto; lia). by rewrite Hv.
- rewrite eval_dec by (auto; lia). by rewrite Hv.
- rewrite advance_dec by (auto; lia). by rewrite Hv.
Qed.

Lemma inc_dec_exact_witness :
    Macro.evalTemplate Macro.midnight (JsString.str "~inc$5~") = Some (JsString.str "5") ∧
    Macro.advanceTemplate (JsString.str "~inc$5~") = Some (JsString.str "~inc$6~") ∧
    Macro.evalTemplate Macro.midnight (JsString.str "~dec$5~") = Some (JsString.str "5") ∧
    Macro.advanceTemplate (JsString.str "~dec$5~") = Some (JsString.str "~dec$4~").
Proof.
apply (inc_dec_exact Macro.midnight [] [] 5); [constructor|constructor|lia].
Defined.

(** C5 fails as stated at [N = 2^53]: the next template is the same
    template, because [2^53 + 1] is no JavaScript number.  And a second
    [~inc$N~] of a template is neither evaluated nor advanced. *)
Lemma inc_stalls_at_2_53 :
    Macro.advanceTemplate (JsString.str "~inc$9007199254740992~") ≠
      Some (JsString.str "~inc$9007199254740993~") ∧
    Macro.advanceTemplate (JsString.str "~inc$9007199254740992~") =
      Some (JsString.str "~inc$9007199254740992~") ∧
    Macro.evalTemplate Macro.midnight (JsString.str "~inc$1~ ~inc$5~") =
      Some (JsString.str "1 ~inc$5~") ∧
    Macro.advanceTemplate (JsString.str "~inc$1~ ~inc$5~") =
      Some (JsString.str "~inc$2~ ~inc$5~").
Proof. repeat split; [|vm_compute; reflexivity..]. vm_compute. discriminate. Qed.

(** C10.  When the number of a [~dec$..~] or of a [~A - B~] goes below
    zero, the template that is stored matches no expression of [doTask]
    any more: every later run has the stored text as its value and stores
    it again. *)
Theorem negative_placeholder_stuck e pre post :
    JsString.plain pre → JsString.plain post →
    (∀ D, JsString.all JsString.is_digit D → D ≠ [] → JsNumber.digits_value D = 0 →
       let t := pre ++ JsString.str "~dec$-1~" ++ post in
       Macro.advanceTemplate (pre ++ JsString.str "~dec$" ++ D ++ JsString.str "~" ++ post)
         = Some t ∧
       Macro.inert t ∧ Macro.evalTemplate e t = Some t ∧
       ∀ n, Macro.later_runs n t = Some t) ∧
    (∀ A B ws1 ws2,
       JsString.all JsString.is_digit A → A ≠ [] →
       JsString.all JsString.is_digit B → B ≠ [] →
       JsString.all JsString.is_space ws1 → JsString.all JsString.is_space ws2 →
       JsNumber.digits_value A < JsNumber.digits_value B ≤ 2 ^ 53 →
       let t := pre ++ JsString.str "~" ++
                JsNumber.numeral (JsNumber.digits_value A - JsNumber.digits_value B) ++
                JsString.str " - " ++ B ++ JsString.str "~" ++ post in
       Macro.advanceTemplate
         (pre ++ JsString.str "~" ++ A ++ ws1 ++ JsString.str "-" ++ ws2 ++ B ++
          JsString.str "~" ++ post) = Some t ∧
       Macro.inert t ∧ Macro.evalTemplate e t = Some t ∧
       ∀ n, Macro.later_runs n t = Some t).
Proof.
intros Hpre Hpost. split.
- intros D HD Hne Hv t.
  assert (Hin : Macro.inert t).
  { apply (dec_negative_inert pre post (JsString.str "1")); auto.
    by repeat constructor. }
  split; [|split; [exact Hin|split;
    [by apply eval_inert|by apply later_runs_fixed, advance_inert]]].
  rewrite advance_dec by (auto; lia). by rewrite Hv.
- intros A B ws1 ws2 HA HAne HB HBne Hw1 Hw2 Hv t.
  pose proof (digits_value_nonneg _ HA). pose proof (digits_value_nonneg _ HB).
  assert (Hin : Macro.inert t).
  { subst t. rewrite numeral_neg by lia.
    apply (negative_inert pre post _ (JsString.str " - " ++ B));
      auto 8 with plain.
    apply plain_app; [by repeat constructor|auto with plain]. }
  split; [|split; [exact Hin|split;
    [by apply eval_inert|by apply later_runs_fixed, advance_inert]]].
  by rewrite advance_minus by (auto; lia).
Qed.

Lemma negative_placeholder_stuck_witness :
    Macro.advanceTemplate (JsString.str "~dec$0~") = Some (JsString.str "~dec$-1~") ∧
    Macro.evalTemplate Macro.midnight (JsString.str "~dec$-1~") =
      Some (JsString.str "~dec$-1~") ∧
    Macro.advanceTemplate (JsString.str "~2 - 7~") = Some (JsString.str "~-5 - 7~") ∧
    Macro.evalTemplate Macro.midnight (JsString.str "~-5 - 7~") =
      Some (JsString.str "~-5 - 7~") ∧
    Macro.later_runs 3 (JsString.str "~-5 - 7~") = Some (JsString.str "~-5 - 7~").
Proof.
pose proof (negative_placeholder_stuck Macro.midnight [] []
              ltac:(constructor) ltac:(constructor)) as [Hdec Hminus].
pose proof (Hdec (JsString.str "0") ltac:(by repeat constructor)
              ltac:(done) ltac:(reflexivity)) as (H1 & _ & H2 & _).
pose proof (Hminus (JsString.str "2") (JsString.str "7")
              (JsString.str " ") (JsString.str " ")
              ltac:(by repeat constructor) ltac:(done)
              ltac:(by repeat constructor) ltac:(done)
              ltac:(by repeat constructor) ltac:(by repeat constructor)
              ltac:(vm_compute; split; congruence)) as (H3 & _ & H4 & H5).
split; [exact H1|]. split; [exact H2|]. split; [exact H3|].
split; [exact H4|exact (H5 3%nat)].
Defined.

(** ** Two placeholders of one kind *)

Ltac hit Hs Hf := rewrite (replace_hit _ _ _ _ _ _ _ Hs Hf); next_step.

Section Lists.
Import JsString JsNumber Regex Macro.

Lemma match_braces c post :
  all is_not_rbrace c →
  match_items re_braces (str "~{" ++ c ++ str "}~" ++ post) = Some ([c], post).
Proof.
intros Hc. unfold re_braces.
cbn [lit str list_ascii_of_string map app]. rewrite !match_chr.
apply (match_greedy 0 true _ _ c _ []); [done|reflexivity|lia|].
by rewrite !match_chr.
Qed.

Lemma split_space_plain c : plain c → Forall plain (split_space c).
Proof.
induction 1 as [|x c Hx Hc IH]; cbn; [by repeat constructor|].
destruct (Ascii.eqb x " "); [constructor; [constructor|done]|].
destruct (split_space c) as [|w ws]; [by repeat constructor|].
apply Forall_cons in IH as [Hw Hws]. constructor; [by constructor|done].
Qed.

Lemma join_plain sep l : plain sep → Forall plain l → plain (join sep l).
Proof.
intros Hsep. induction 1 as [|w l Hw Hl IH]; [constructor|].
cbn [join]. destruct l as [|w' l]; [done|]. by repeat apply plain_app.
Qed.

Lemma first_token_plain c : plain c → plain (first_token c).
Proof.
intros Hc. apply split_space_plain in Hc. unfold first_token.
destruct Hc; [constructor|done].
Qed.

Lemma rotated_plain c : plain c → plain (rotated c).
Proof.
intros Hc. apply split_space_plain in Hc. unfold rotated.
repeat apply plain_app.
- apply join_plain; [by repeat constructor|by apply Forall_drop].
- by repeat constructor.
- apply join_plain; [by repeat constructor|by apply Forall_take].
Qed.

End Lists.

#[export] Hint Resolve first_token_plain rotated_plain : plain.

Ltac norm_str_in H :=
    repeat (progress (cbn [app JsString.str list_ascii_of_string] in H;
                      rewrite <- ?app_assoc in H)).

(** ** Lists of tokens *)

Section TokenLists.
Import JsString JsNumber Regex Macro.

Lemma split_space_token w : " "%char ∉ w → split_space w = [w].
Proof.
induction w as [|x w IH]; intros Hw; [done|].
apply not_elem_of_cons in Hw as [Hx Hw]. cbn.
assert (Ascii.eqb x " " = false) as -> by (apply Ascii.eqb_neq; congruence).
by rewrite IH.
Qed.

Lemma split_space_app w r :
  " "%char ∉ w → split_space (w ++ " "%char :: r) = w :: split_space r.
Proof.
induction w as [|x w IH]; intros Hw; [done|].
apply not_elem_of_cons in Hw as [Hx Hw]. cbn.
assert (Ascii.eqb x " " = false) as -> by (apply Ascii.eqb_neq; congruence).
by rewrite IH.
Qed.

Lemma split_join toks :
  toks ≠ [] → Forall token toks → split_space (join (str " ") toks) = toks.
Proof.
intros Hne Htok. induction Htok as [|t toks [_ Ht] Htoks IH]; [done|].
destruct toks as [|t' toks]; [by apply split_space_token|].
change (join (str " ") (t :: t' :: toks))
with (t ++ " "%char :: join (str " ") (t' :: toks)).
rewrite split_space_app by done. by rewrite IH.
Qed.

Lemma join_snoc sep l t :
  l ≠ [] → join sep (l ++ [t]) = join sep l ++ sep ++ t.
Proof.
induction l as [|w l IH]; intros Hne; [done|].
destruct l as [|w' l]; [done|].
cbn [app join] in *. rewrite IH by done. by rewrite <- !app_assoc.
Qed.

Lemma join_list_text toks :
  Forall token toks → list_text (join (str " ") toks).
Proof.
induction 1 as [|t toks [[Hb Hp] _] Htoks [IHb IHp]]; [by split; constructor|].
destruct toks as [|t' toks]; [done|]. cbn [join]. split.
- apply Forall_app. split; [done|]. apply Forall_app. split; [by repeat constructor|done].
- repeat apply plain_app; auto. by repeat constructor.
Qed.

Lemma first_token_join t toks :
  Forall token (t :: toks) → first_token (join (str " ") (t :: toks)) = t.
Proof. intros Htok. unfold first_token. by rewrite split_join. Qed.

Lemma rotated_join t toks :
  toks ≠ [] → Forall token (t :: toks) →
  rotated (join (str " ") (t :: toks)) = join (str " ") (toks ++ [t]).
Proof.
intros Hne Htok. unfold rotated. rewrite split_join by done.
cbn [drop take]. rewrite take_0. by rewrite join_snoc.
Qed.

Lemma search_list pre c post :
  plain pre → all is_not_rbrace c →
  search re_braces (pre ++ ph_list c ++ post) = Some (pre, [c], post).
Proof.
intros Hpre Hc. rewrite search_plain by done.
rewrite (search_hit _ _ [c] post).
- cbn. by rewrite app_nil_r.
- unfold ph_list. rewrite <- !app_assoc. by apply match_braces.
Qed.

(** The value and the next template of one list in a text without other
  placeholders, in terms of [split(' ')]. *)
Lemma list_run e pre post c :
  plain pre → plain post → list_text c →
  evalTemplate e (pre ++ ph_list c ++ post) = Some (pre ++ first_token c ++ post) ∧
  advanceTemplate (pre ++ ph_list c ++ post) =
    Some (pre ++ ph_list (rotated c) ++ post).
Proof.
intros Hpre Hpost [Hb Hp]. unfold ph_list.
assert (Hall : ∀ f r, f [c] = Some r →
        replace_all re_braces f (pre ++ (str "~{" ++ c ++ str "}~") ++ post) =
        Some (pre ++ r ++ post)).
{ intros f r Hf.
rewrite (replace_all_hit re_braces "~" f
           (pre ++ (str "~{" ++ c ++ str "}~") ++ post) pre [c] post eq_refl
           (search_list pre c post Hpre Hb)), Hf. next_step.
by rewrite replace_all_miss by (by apply search_plain_none). }
split.
- unfold evalTemplate, replace_str. do 4 step_miss.
rewrite (Hall cb_first _ eq_refl). next_step. repeat step_miss. done.
- unfold advanceTemplate. do 2 step_miss.
rewrite (Hall cb_rotate _ eq_refl). next_step.
repeat step_miss. done.
Qed.

(** A list of two or more tokens is rotated to the left. *)
Lemma list_rotation e pre post t toks :
  plain pre → plain post → toks ≠ [] → Forall token (t :: toks) →
  evalTemplate e (pre ++ ph_list (join (str " ") (t :: toks)) ++ post) =
    Some (pre ++ t ++ post) ∧
  advanceTemplate (pre ++ ph_list (join (str " ") (t :: toks)) ++ post) =
    Some (pre ++ ph_list (join (str " ") (toks ++ [t])) ++ post).
Proof.
intros Hpre Hpost Hne Htok.
destruct (list_run e pre post (join (str " ") (t :: toks)) Hpre Hpost
          (join_list_text _ Htok)) as [He Ha].
rewrite He, Ha, first_token_join, rotated_join by done. done.
Qed.

End TokenLists.

(** C6 at the list of one token.  [~{a}~] has the value [a], but the
    template stored for the next run is [~{ a}~], with a space in front
    and not the list [~{a}~] rotated; the run after that has the empty
    string as its value. *)
Theorem single_token_list_gains_space e :
    Macro.evalTemplate e (JsString.str "~{a}~") = Some (JsString.str "a") ∧
    Macro.advanceTemplate (JsString.str "~{a}~") = Some (JsString.str "~{ a}~") ∧
    Macro.advanceTemplate (JsString.str "~{a}~") ≠ Some (JsString.str "~{a}~") ∧
    Macro.evalTemplate e (JsString.str "~{ a}~") = Some (JsString.str "") ∧
    Macro.advanceTemplate (JsString.str "~{ a}~") = Some (JsString.str "~{a }~").
Proof.
assert (H1 : JsString.list_text (JsString.str "a"))
  by (split; repeat constructor; done).
assert (H2 : JsString.list_text (JsString.str " a"))
  by (split; repeat constructor; done).
destruct (list_run e [] [] _ plain_nil plain_nil H1) as [He1 Ha1].
destruct (list_run e [] [] _ plain_nil plain_nil H2) as [He2 Ha2].
split; [exact He1|]. split; [exact Ha1|]. split.
{ intros Hx. pose proof (eq_trans (eq_sym Ha1) Hx) as Hy.
  vm_compute in Hy. discriminate. }
split; [exact He2|exact Ha2].
Qed.

(** ** The caches, the store and the timers *)

Section Consistency.
Import JsString JsNumber Macro Engine.

Lemma task_exists_spec n l : task_exists n l = true ↔ has_task n l.
Proof.
unfold task_exists, has_task. rewrite bool_decide_eq_true, Exists_exists. done.
Qed.

Lemma task_exists_false n l : task_exists n l = false ↔ ¬ has_task n l.
Proof. rewrite <- task_exists_spec. by destruct (task_exists n l). Qed.

Lemma has_task_insert n l i a a' :
  l !! i = Some a → Task.name a' = Task.name a →
  has_task n (<[i := a']> l) ↔ has_task n l.
Proof.
intros Hi Hn. unfold has_task. split.
- intros (t & Ht & <-). apply list_elem_of_lookup in Ht as [j Hj].
destruct (decide (i = j)) as [<-|Hne].
+ rewrite list_lookup_insert_eq in Hj by (by eapply lookup_lt_Some).
  injection Hj as <-. exists a. split; [by eapply list_elem_of_lookup_2|done].
+ rewrite list_lookup_insert_ne in Hj by done.
  exists t. split; [by eapply list_elem_of_lookup_2|done].
- intros (t & Ht & <-). apply list_elem_of_lookup in Ht as [j Hj].
destruct (decide (i = j)) as [<-|Hne].
+ exists a'. split.
  * apply list_elem_of_insert. by eapply lookup_lt_Some.
  * congruence.
+ exists t. split; [|done]. apply (list_elem_of_lookup_2 _ j).
  by rewrite list_lookup_insert_ne.
Qed.

Lemma elem_of_insert_inv {A} (l : list A) i x y :
  y ∈ <[i := x]> l → y = x ∨ y ∈ l.
Proof.
intros Hy. apply list_elem_of_lookup in Hy as [j Hj].
destruct (decide (i = j)) as [<-|Hne].
- destruct (decide (i < length l)%nat).
+ rewrite list_lookup_insert_eq in Hj by done. left. congruence.
+ rewrite list_insert_ge in Hj by lia. right. by eapply list_elem_of_lookup_2.
- rewrite list_lookup_insert_ne in Hj by done. right.
by eapply list_elem_of_lookup_2.
Qed.

Lemma has_task_app n l k : has_task n (l ++ k) ↔ has_task n l ∨ has_task n k.
Proof. unfold has_task. setoid_rewrite elem_of_app. naive_solver. Qed.

Lemma pushLog_consistent m s : consistent s → consistent (pushLog m s).
Proof. intros []. by split. Qed.

Lemma log_clear_consistent s : consistent s → consistent (log_clear s).
Proof. intros []. by split. Qed.

Lemma defs_live_now s n :
  consistent s → is_Some (Store.intervals (db s) !! n) →
  has_interval n (gIntervals s).
Proof.
intros [] Hn. destruct (defs_live0 n Hn) as [?|Hin]; [done|].
by apply elem_of_nil in Hin.
Qed.

Lemma list_find_name (l : list Task.t) n i a :
  list_find (λ ob, Task.name ob = n) l = Some (i, a) →
  l !! i = Some a ∧ Task.name a = n.
Proof. intros H. apply list_find_Some in H. naive_solver. Qed.

(** [doTask] leaves the store of tasks and intervals as it is. *)
Lemma doTask_store e n s s' effs :
  doTask e n s = Some (s', effs) →
  Store.tasks (db s') = Store.tasks (db s) ∧
  Store.intervals (db s') = Store.intervals (db s) ∧
  gIntervals s' = gIntervals s ∧ timers s' = timers s ∧
  next_tid s' = next_tid s ∧
  (∀ m, has_task m (gTasks s') ↔ has_task m (gTasks s)) ∧
  (∀ t, t ∈ gTasks s' → ∃ t0, t0 ∈ gTasks s ∧ Task.name t0 = Task.name t).
Proof.
unfold doTask. intros H.
destruct (list_find _ (gTasks s)) as [[i a]|] eqn:Hfind.
- destruct (evalTemplate e (Task.data a)) as [data|]; [|done].
destruct (evalTemplate e (Task.postData a)) as [postData|]; [|done].
destruct (advanceTemplate (Task.data a)) as [data'|]; [|done].
destruct (advanceTemplate (Task.postData a)) as [postData'|]; [|done].
cbn in H. injection H as <- <-. cbn.
apply list_find_name in Hfind as [Hi Hn].
split_and!; try done.
+ intros m. by apply (has_task_insert m _ i a).
+ intros t Ht. apply elem_of_insert_inv in Ht as [->|Ht].
  * exists a. split; [by eapply list_elem_of_lookup_2|done].
  * by exists t.
- injection H as <- <-. split_and!; try done. eauto.
Qed.

Lemma doTask_consistent e n s s' effs :
  consistent s → doTask e n s = Some (s', effs) → consistent s'.
Proof.
intros [] H. apply doTask_store in H as (Ht & Hi & Hg & Htm & Hn & Hhas & Hsub).
split; rewrite ?Ht, ?Hi, ?Hg, ?Htm, ?Hn; auto.
- intros i Hin. apply Hhas. auto.
- intros t Hin. destruct (Hsub t Hin) as (t0 & Hin0 & <-). auto.
Qed.

End Consistency.

Section Operations.
Import JsString JsNumber Macro Engine.

(** Storing a task under a name that the cache keeps or gains. *)
Lemma put_task_consistent pending s task l' :
  consistent_upto pending s →
  (∀ m, has_task m (gTasks s) → has_task m l') →
  (∀ t, t ∈ l' → t = task ∨ t ∈ gTasks s) →
  consistent_upto pending
    {| db := Store.upsertTask task (db s); gTasks := l';
       gTasksLog := gTasksLog s; gIntervals := gIntervals s;
       timers := timers s; next_tid := next_tid s |}.
Proof.
intros [H1 H2 H3 H4 H5 H6] Hkeep Hnew. split; cbn; auto.
intros t Ht. destruct (Hnew t Ht) as [->|Hold].
- rewrite lookup_insert_eq. eauto.
- destruct (decide (Task.name task = Task.name t)) as [->|Hne].
+ rewrite lookup_insert_eq. eauto.
+ rewrite lookup_insert_ne by done. auto.
Qed.

Lemma load_task_consistent pending replace s t :
  consistent_upto pending s → consistent_upto pending (load_task replace s t).
Proof.
intros Hs. unfold load_task. destruct (trim (Task.name t)) as [|c nm] eqn:Hnm; [done|].
cbn -[list_find].
destruct (list_find _ (gTasks s)) as [[idx old]|] eqn:Hfind; [destruct replace|].
- apply list_find_name in Hfind as [Hi Hn].
apply (put_task_consistent _ s); [done| |].
+ intros m. by apply (has_task_insert m _ idx old).
+ intros x Hx. by apply elem_of_insert_inv in Hx.
- apply (put_task_consistent _ s); [done| |].
+ intros m Hm. apply has_task_app. by left.
+ intros x Hx. apply elem_of_app in Hx as [?|Hx]; [by right|].
  apply list_elem_of_singleton in Hx. by left.
- apply (put_task_consistent _ s); [done| |].
+ intros m Hm. apply has_task_app. by left.
+ intros x Hx. apply elem_of_app in Hx as [?|Hx]; [by right|].
  apply list_elem_of_singleton in Hx. by left.
Qed.

Lemma task_add_consistent n ty d pt pd s :
  consistent s → consistent (task_add n ty d pt pd s).2.
Proof.
intros Hs. unfold task_add. destruct (trim n) as [|c nm] eqn:Hnm; [done|].
cbn -[list_find].
destruct (list_find _ (gTasks s)) as [[idx old]|] eqn:Hfind; cbn.
- apply list_find_name in Hfind as [Hi Hn].
apply (put_task_consistent _ s); [done| |].
+ intros m. by apply (has_task_insert m _ idx old).
+ intros x Hx. by apply elem_of_insert_inv in Hx.
- apply (put_task_consistent _ s); [done| |].
+ intros m Hm. apply has_task_app. by left.
+ intros x Hx. apply elem_of_app in Hx as [?|Hx]; [by right|].
  apply list_elem_of_singleton in Hx. by left.
Qed.

(** One more interval for a task that exists, with its timer. *)
Lemma schedule_consistent pending pending' s d' n ms :
  consistent_upto pending' s → has_task n (gTasks s) →
  Store.tasks d' = Store.tasks (db s) →
  (∀ m, is_Some (Store.intervals d' !! m) →
        is_Some (Store.intervals (db s) !! m) ∨ m = n) →
  (∀ m, m ∈ pending' → m = n ∨ m ∈ pending) →
  consistent_upto pending
    {| db := d'; gTasks := gTasks s; gTasksLog := gTasksLog s;
       gIntervals := gIntervals s ++
         [{| Interval.name := n; Interval.id := next_tid s; Interval.time := ms |}];
       timers := timers s ++
         [{| tid := next_tid s; callback := RunTask n; delay := ms |}];
       next_tid := S (next_tid s) |}.
Proof.
intros [H1 H2 H3 H4 H5 H6] Hn Htasks Hdefs Hpend. split; cbn.
- intros i Hi. apply elem_of_app in Hi as [Hi|Hi]; [auto|].
apply list_elem_of_singleton in Hi as ->. done.
- intros m Hm. unfold has_interval. setoid_rewrite elem_of_app.
setoid_rewrite list_elem_of_singleton.
destruct (Hdefs m Hm) as [Hold| ->]; [|by eauto].
destruct (H2 m Hold) as [(i & ? & ?)|Hin]; [by eauto|].
destruct (Hpend m Hin) as [->|?]; eauto.
- intros t Ht. rewrite Htasks. auto.
- rewrite fmap_app. apply NoDup_app. split; [done|]. split; [|apply NoDup_singleton].
intros x Hx Hx'. apply list_elem_of_singleton in Hx' as ->.
apply list_elem_of_fmap in Hx as (i & Hid & Hi). apply H5 in Hi.
cbn in Hid. lia.
- intros i Hi. apply elem_of_app in Hi as [Hi|Hi]; [apply H5 in Hi; lia|].
apply list_elem_of_singleton in Hi as ->. cbn. lia.
- intros tm Hi. apply elem_of_app in Hi as [Hi|Hi]; [apply H6 in Hi; lia|].
apply list_elem_of_singleton in Hi as ->. cbn. lia.
Qed.

Lemma insert_is_Some {A} (m : gmap (list ascii) A) n x k :
  is_Some (<[n := x]> m !! k) → is_Some (m !! k) ∨ k = n.
Proof.
destruct (decide (n = k)) as [->|Hne]; [by right|].
rewrite lookup_insert_ne by done. by left.
Qed.

Lemma load_routine_consistent s r :
  consistent s → consistent (load_routine s r).
Proof.
intros Hs. unfold load_routine.
destruct (task_exists r.1 (gTasks s)) eqn:Hex; [|done]. cbn.
apply task_exists_spec in Hex.
apply (schedule_consistent [] [] s); auto.
intros m. apply insert_is_Some.
Qed.

Lemma interval_add_consistent n t s r :
  consistent s → interval_add n t s = Some r → consistent r.2.
Proof.
intros Hs. unfold interval_add.
destruct (parseInt t) as [intTime|]; [|done]. cbn.
destruct (trim n) as [|c nm] eqn:Hn; [by intros [= <-]|].
destruct intTime as [ms|]; [|by intros [= <-]].
destruct (ms <=? 0); [by intros [= <-]|].
destruct (task_exists (c :: nm) (gTasks s)) eqn:Hex; [|by intros [= <-]].
cbn. intros [= <-]. cbn. apply task_exists_spec in Hex.
apply (schedule_consistent [] [] s); auto.
intros m. apply insert_is_Some.
Qed.

Lemma load_config_consistent replace parsed s :
  consistent s → consistent (load_config replace parsed s).
Proof.
intros Hs. unfold load_config.
assert (Ht : consistent (fold_left (load_task replace) (tasksToUpsert parsed) s)).
{ revert s Hs. induction (tasksToUpsert parsed) as [|t l IH]; intros s Hs; [done|].
cbn. apply IH. by apply load_task_consistent. }
revert Ht. generalize (fold_left (load_task replace) (tasksToUpsert parsed) s).
induction (routinesToAdd parsed) as [|r l IH]; intros s' Hs'; [done|].
cbn. apply IH. by apply load_routine_consistent.
Qed.

End Operations.

Section Removal.
Import JsString JsNumber Macro Engine.

(** The loop of [/api/task/del] over the intervals of the task. *)
Lemma del_loop affected : ∀ s,
  let s' := fold_left
              (fun s inte =>
                 clearInterval (Interval.id inte)
                   (with_db (Store.deleteIntervalDef (Interval.name inte) (db s)) s))
              affected s in
  gTasks s' = gTasks s ∧ gIntervals s' = gIntervals s ∧
  next_tid s' = next_tid s ∧ Store.tasks (db s') = Store.tasks (db s) ∧
  (∀ n, Store.intervals (db s') !! n =
        if decide (n ∈ Interval.name <$> affected) then None
        else Store.intervals (db s) !! n) ∧
  (∀ tm, tm ∈ timers s' ↔
         tm ∈ timers s ∧ tid tm ∉ Interval.id <$> affected).
Proof.
induction affected as [|inte affected IH]; intros s; cbn zeta.
- split_and!; try done.
intros tm. split; [|naive_solver]. intros ?. split; [done|]. apply not_elem_of_nil.
- cbn [fold_left]. destruct (IH (clearInterval (Interval.id inte)
  (with_db (Store.deleteIntervalDef (Interval.name inte) (db s)) s)))
  as (H1 & H2 & H3 & H4 & H5 & H6).
split_and!; try done.
+ intros n. rewrite H5. cbn. rewrite ?fmap_cons.
  destruct (decide (n ∈ Interval.name <$> affected)) as [Hin|Hnin].
  * rewrite decide_True; [done|]. by apply list_elem_of_further.
  * destruct (decide (n = Interval.name inte)) as [->|Hne].
    -- rewrite decide_True by apply list_elem_of_here.
       by rewrite lookup_delete_eq.
    -- rewrite decide_False by (rewrite elem_of_cons; naive_solver).
       by rewrite lookup_delete_ne.
+ intros tm. rewrite H6. cbn. rewrite list_elem_of_filter, ?fmap_cons, not_elem_of_cons.
  naive_solver.
Qed.

Lemma task_del_spec tName s :
  let s' := task_del tName s in
  gTasks s' = filter (λ ob, Task.name ob ≠ tName) (gTasks s) ∧
  gIntervals s' = filter (λ i, Interval.name i ≠ tName) (gIntervals s) ∧
  next_tid s' = next_tid s ∧
  Store.tasks (db s') = delete tName (Store.tasks (db s)) ∧
  (∀ n, Store.intervals (db s') !! n =
        if decide (n = tName ∧ tName ∈ Interval.name <$> gIntervals s) then None
        else Store.intervals (db s) !! n) ∧
  (∀ tm, tm ∈ timers s' ↔
         tm ∈ timers s ∧
         ∀ i, i ∈ gIntervals s → Interval.name i = tName → tid tm ≠ Interval.id i).
Proof.
cbn zeta. unfold task_del.
set (s1 := with_gTasks _ (with_db _ s)).
destruct (del_loop (filter (λ inte, Interval.name inte = tName) (gIntervals s1)) s1)
as (H1 & H2 & H3 & H4 & H5 & H6).
cbn [gTasks gIntervals next_tid db timers with_gIntervals] in *.
split_and!.
- by rewrite H1.
- by rewrite H2.
- by rewrite H3.
- by rewrite H4.
- intros n. rewrite H5. subst s1. cbn.
destruct (decide (n = tName ∧ tName ∈ Interval.name <$> gIntervals s))
  as [[-> Hi]|Hn].
+ rewrite decide_True; [done|].
  apply list_elem_of_fmap in Hi as (i & Hname & Hi).
  apply list_elem_of_fmap. exists i. split; [done|].
  by apply list_elem_of_filter.
+ rewrite decide_False; [done|]. intros Hin.
  apply list_elem_of_fmap in Hin as (i & -> & Hi).
  apply list_elem_of_filter in Hi as [Hname Hi]. apply Hn.
  split; [done|]. apply list_elem_of_fmap. by exists i.
- intros tm. rewrite H6. subst s1. cbn. split.
+ intros [Htm Hid]. split; [done|]. intros i Hi Hname Heq. apply Hid.
  apply list_elem_of_fmap. exists i. split; [done|]. by apply list_elem_of_filter.
+ intros [Htm Hid]. split; [done|]. intros Hin.
  apply list_elem_of_fmap in Hin as (i & Heq & Hi).
  apply list_elem_of_filter in Hi as [Hname Hi]. by apply (Hid i).
Qed.

Lemma NoDup_fmap_filter {A B} (f : A → B) (P : A → Prop) `{∀ x, Decision (P x)} l :
  NoDup (f <$> l) → NoDup (f <$> filter P l).
Proof.
induction l as [|x l IH]; [done|]. rewrite fmap_cons, NoDup_cons.
intros [Hx Hl]. rewrite filter_cons. destruct (decide (P x)); [|auto].
rewrite fmap_cons, NoDup_cons. split; [|auto].
intros Hin. apply Hx. apply list_elem_of_fmap in Hin as (y & -> & Hy).
apply list_elem_of_filter in Hy as [_ Hy]. by apply list_elem_of_fmap_2.
Qed.

Lemma NoDup_fmap_eq {A B} (f : A → B) l x y :
  NoDup (f <$> l) → x ∈ l → y ∈ l → f x = f y → x = y.
Proof.
induction l as [|z l IH]; [by intros _ ?%elem_of_nil|].
rewrite fmap_cons, NoDup_cons. intros [Hz Hl] Hx Hy Hf.
apply elem_of_cons in Hx as [->|Hx]; apply elem_of_cons in Hy as [->|Hy]; auto.
- destruct Hz. rewrite Hf. by apply list_elem_of_fmap_2.
- destruct Hz. rewrite <- Hf. by apply list_elem_of_fmap_2.
Qed.

Lemma task_del_consistent tName s :
  consistent s → consistent (task_del tName s).
Proof.
intros Hs. pose proof Hs as [H1 H2 H3 H4 H5 H6].
destruct (task_del_spec tName s) as (Ht & Hi & Hn & Hdb & Hdefs & Htm).
split; rewrite ?Ht, ?Hi, ?Hn, ?Hdb.
- intros i Hin. apply list_elem_of_filter in Hin as [Hname Hin].
destruct (H1 i Hin) as (t & Hin' & Heq). exists t. split; [|done].
apply list_elem_of_filter. split; [congruence|done].
- intros n Hsome. left. rewrite Hdefs in Hsome.
destruct (decide _) as [|Hno]; [by destruct Hsome|].
destruct (defs_live_now s n Hs Hsome) as (i & Hin & Hname).
exists i. split; [|done]. apply list_elem_of_filter. split; [|done].
intros Heq. apply Hno. split; [congruence|].
apply list_elem_of_fmap. exists i. split; [congruence|done].
- intros t Hin. apply list_elem_of_filter in Hin as [Hname Hin].
rewrite lookup_delete_ne by done. auto.
- by apply NoDup_fmap_filter.
- intros i Hin. apply list_elem_of_filter in Hin as [_ Hin]. auto.
- intros tm Hin. apply Htm in Hin as [Hin _]. auto.
Qed.

Lemma interval_kill_consistent iid s :
  consistent s → consistent (interval_kill iid s).
Proof.
intros Hs. pose proof Hs as [H1 H2 H3 H4 H5 H6].
destruct iid as [z|]; [|done]. unfold interval_kill.
set (s1 := match list_find _ (gIntervals s) with Some _ => _ | None => s end).
assert (Hs1 : gTasks s1 = gTasks s ∧ gIntervals s1 = gIntervals s ∧
            next_tid s1 = next_tid s ∧ timers s1 = timers s ∧
            Store.tasks (db s1) = Store.tasks (db s) ∧
            ∀ n, is_Some (Store.intervals (db s1) !! n) →
                 is_Some (Store.intervals (db s) !! n) ∧
                 ∀ i, i ∈ gIntervals s → Z.of_nat (Interval.id i) = z →
                      Interval.name i ≠ n).
{ subst s1. destruct (list_find _ (gIntervals s)) as [[j found]|] eqn:Hfind.
- cbn. split_and!; try done. intros n Hn.
  apply list_find_Some in Hfind as (Hj & Hz & _).
  destruct (decide (n = Interval.name found)) as [->|Hne].
  + rewrite lookup_delete_eq in Hn. by destruct Hn.
  + rewrite lookup_delete_ne in Hn by done. split; [done|].
    intros i Hi Hid Hname. apply Hne. rewrite <- Hname. f_equal.
    apply (NoDup_fmap_eq Interval.id (gIntervals s)); auto.
    * by eapply list_elem_of_lookup_2.
    * lia.
- split_and!; try done. intros n Hn. split; [done|].
  intros i Hi Hid _. apply list_find_None in Hfind.
  rewrite Forall_forall in Hfind. by apply (Hfind i). }
destruct Hs1 as (Ht & Hi & Hn & Htm & Hdb & Hdefs).
set (s2 := if 0 <=? z then clearInterval (Z.to_nat z) s1 else s1).
assert (Hs2 : gTasks s2 = gTasks s1 ∧ gIntervals s2 = gIntervals s1 ∧
            next_tid s2 = next_tid s1 ∧ db s2 = db s1 ∧
            ∀ tm, tm ∈ timers s2 → tm ∈ timers s1).
{ subst s2. destruct (0 <=? z); [|done]. cbn. split_and!; try done.
intros tm Hin. by apply list_elem_of_filter in Hin as [_ ?]. }
destruct Hs2 as (Ht2 & Hi2 & Hn2 & Hdb2 & Htm2).
split; cbn; rewrite ?Ht2, ?Hi2, ?Hn2, ?Hdb2, ?Ht, ?Hi, ?Hn, ?Hdb.
- intros i Hin. apply list_elem_of_filter in Hin as [_ Hin]. auto.
- intros n Hsome. left. destruct (Hdefs n Hsome) as [Hold Hid].
destruct (defs_live_now s n Hs Hold) as (i & Hin & Hname).
exists i. split; [|done]. apply list_elem_of_filter. split; [|done].
intros Heq. by apply (Hid i).
- auto.
- by apply NoDup_fmap_filter.
- intros i Hin. apply list_elem_of_filter in Hin as [_ Hin]. auto.
- intros tm Hin. apply Htm2 in Hin. rewrite Htm in Hin. auto.
Qed.

Lemma clear_loop l : ∀ s,
  let s' := fold_left (fun s i => clearInterval (Interval.id i) s) l s in
  db s' = db s ∧ gTasks s' = gTasks s ∧ next_tid s' = next_tid s ∧
  ∀ tm, tm ∈ timers s' → tm ∈ timers s.
Proof.
induction l as [|i l IH]; intros s; cbn zeta; [done|].
cbn [fold_left]. destruct (IH (clearInterval (Interval.id i) s)) as (H1 & H2 & H3 & H4).
split_and!; try done. intros tm Hin. apply H4 in Hin.
by apply list_elem_of_filter in Hin as [_ ?].
Qed.

Lemma restart_consistent s : consistent s → consistent (restart s).
Proof.
intros [H1 H2 H3 H4 H5 H6]. unfold restart, clearAllIntervals.
destruct (clear_loop (gIntervals s) s) as (Hdb & Ht & Hn & Htm).
split; cbn.
- by intros i ?%elem_of_nil.
- intros n Hsome. rewrite lookup_empty in Hsome. by destruct Hsome.
- by intros t ?%elem_of_nil.
- constructor.
- by intros i ?%elem_of_nil.
- intros tm Hin. rewrite Hn. auto.
Qed.

End Removal.

Section Startup.
Import JsString JsNumber Macro Engine.

Lemma order_by_name_elem {A} (m : gmap (list ascii) A) k x :
  (k, x) ∈ Store.order_by_name m ↔ m !! k = Some x.
Proof.
unfold Store.order_by_name. rewrite merge_sort_Permutation.
apply elem_of_map_to_list.
Qed.

Lemma order_by_name_NoDup {A} (m : gmap (list ascii) A) :
  NoDup (Store.order_by_name m).*1.
Proof.
unfold Store.order_by_name. rewrite merge_sort_Permutation.
apply NoDup_fst_map_to_list.
Qed.

Lemma getAllTasks_elem d t :
  t ∈ Store.getAllTasks d → is_Some (Store.tasks d !! Task.name t).
Proof.
unfold Store.getAllTasks. intros Ht.
apply list_elem_of_fmap in Ht as ([k r] & -> & Hin).
apply order_by_name_elem in Hin. cbn. eauto.
Qed.

Lemma getAllTasks_has d n :
  is_Some (Store.tasks d !! n) → has_task n (Store.getAllTasks d).
Proof.
intros [r Hr]. apply order_by_name_elem in Hr.
eexists. split; [apply list_elem_of_fmap; by exists (n, r)|done].
Qed.

Lemma rehydrate_consistent pending s def :
  consistent_upto (def.1 :: pending) s →
  consistent_upto pending (rehydrate s def).
Proof.
intros Hs. unfold rehydrate.
destruct (task_exists def.1 (gTasks s)) eqn:Hex; cbn.
- apply task_exists_spec in Hex.
apply (schedule_consistent pending (def.1 :: pending) s); auto.
intros m Hm. by apply elem_of_cons in Hm.
- destruct Hs as [H1 H2 H3 H4 H5 H6]. split; cbn; auto.
intros n Hn. destruct (decide (n = def.1)) as [->|Hne].
+ rewrite lookup_delete_eq in Hn. by destruct Hn.
+ rewrite lookup_delete_ne in Hn by done.
  destruct (H2 n Hn) as [?|Hin]; [by left|]. right.
  apply elem_of_cons in Hin as [?|?]; done.
Qed.

Lemma rehydrate_all L : ∀ s,
  consistent_upto L.*1 s → consistent (fold_left rehydrate L s).
Proof.
induction L as [|def L IH]; intros s Hs; [done|].
cbn [fold_left]. apply IH. by apply rehydrate_consistent.
Qed.

Lemma startup_consistent d : consistent (startup d).
Proof.
unfold startup. apply rehydrate_all. split; cbn.
- by intros i ?%elem_of_nil.
- intros n [ms Hn]. right. apply list_elem_of_fmap. exists (n, ms).
split; [done|]. by apply order_by_name_elem.
- intros t Ht. apply list_elem_of_filter in Ht as [_ Ht].
by apply getAllTasks_elem.
- constructor.
- by intros i ?%elem_of_nil.
- intros tm Htm. apply list_elem_of_singleton in Htm as ->. cbn. lia.
Qed.

Lemma tick_consistent e i s r :
  consistent s → tick e i s = Some r → consistent r.1.
Proof.
intros Hs. unfold tick. destruct (list_find _ (timers s)) as [[j t]|].
- destruct (callback t).
+ by intros [= <-].
+ destruct r. by apply doTask_consistent.
- by intros [= <-].
Qed.

Lemma step_consistent e o s s' :
  consistent s → step e o s = Some s' → consistent s'.
Proof.
intros Hs. destruct o; cbn.
- intros [= <-]. by apply task_add_consistent.
- destruct (doTask e name s) as [[s1 effs]|] eqn:Hrun; [|done].
intros [= <-]. by eapply doTask_consistent.
- intros [= <-]. by apply task_del_consistent.
- intros [= <-]. by apply log_clear_consistent.
- destruct (interval_add name time s) as [r|] eqn:Hadd; [|done].
intros [= <-]. by eapply interval_add_consistent.
- intros [= <-]. by apply interval_kill_consistent.
- intros [= <-]. by apply load_config_consistent.
- intros [= <-]. by apply restart_consistent.
- intros [= <-]. by apply restart_consistent.
- intros [= <-]. by apply load_config_consistent.
- destruct (tick e i s) as [r|] eqn:Htick; [|done].
intros [= <-]. by eapply tick_consistent.
- intros [= <-]. by apply pushLog_consistent.
Qed.

Lemma reachable_consistent s : reachable s → consistent s.
Proof.
induction 1 as [d|e o s s' _ IH Hstep]; [apply startup_consistent|].
by eapply step_consistent.
Qed.

Lemma consistent_no_orphans s : consistent s → no_orphans s.
Proof.
intros Hs. pose proof Hs as [H1 H2 H3 H4 H5 H6]. split; [done|].
intros n Hn. destruct (defs_live_now s n Hs Hn) as (i & Hi & <-).
destruct (H1 i Hi) as (t & Ht & <-). auto.
Qed.

End Startup.

(** C7.  In a running server, deleting a task removes the task and every
    interval of its name from the caches and from the store and cancels
    the timers of these intervals; and whatever the server has done since
    its start (the rehydration, then additions, deletions, imports and
    the rest), no interval is left, in the cache or in the store, whose
    name has no task. *)
Theorem delete_cascades_no_orphans s :
    Engine.reachable s →
    (∀ tName,
       let s' := Engine.task_del tName s in
       (∀ t, t ∈ Engine.gTasks s' → Task.name t ≠ tName) ∧
       Store.tasks (Engine.db s') !! tName = None ∧
       (∀ i, i ∈ Engine.gIntervals s' → Interval.name i ≠ tName) ∧
       Store.intervals (Engine.db s') !! tName = None ∧
       (∀ i tm, i ∈ Engine.gIntervals s → Interval.name i = tName →
                tm ∈ Engine.timers s' → Engine.tid tm ≠ Interval.id i) ∧
       Engine.no_orphans s') ∧
    Engine.no_orphans s ∧
    (∀ e o s', Engine.step e o s = Some s' → Engine.no_orphans s').
Proof.
intros Hreach. pose proof (reachable_consistent s Hreach) as Hs.
split; [|split].
- intros tName s'.
  destruct (task_del_spec tName s) as (Ht & Hi & Hn & Hdb & Hdefs & Htm).
  fold s' in Ht, Hi, Hn, Hdb, Hdefs, Htm. split_and!.
  + intros t Hin. rewrite Ht in Hin. by apply list_elem_of_filter in Hin as [? _].
  + rewrite Hdb. apply lookup_delete_eq.
  + intros i Hin. rewrite Hi in Hin. by apply list_elem_of_filter in Hin as [? _].
  + rewrite Hdefs. destruct (decide _) as [|Hno]; [done|].
    destruct (Store.intervals (Engine.db s) !! tName) as [ms|] eqn:Hdef; [|done].
    destruct (defs_live_now s tName Hs ltac:(eauto)) as (i & Hin & Hname).
    destruct Hno. split; [done|]. apply list_elem_of_fmap. by exists i.
  + intros i tm Hin Hname Htimer. apply Htm in Htimer as [_ Hid]. by apply Hid.
  + apply consistent_no_orphans. by apply task_del_consistent.
- by apply consistent_no_orphans.
- intros e o s' Hstep. apply consistent_no_orphans. by eapply step_consistent.
Qed.

Lemma delete_cascades_no_orphans_witness :
    match Engine.interval_add (JsString.str "t") (JsString.str "60000")
            (Engine.task_add (JsString.str "t") (JsString.str "http")
               (JsString.str "x") [] [] (Engine.startup Store.empty_db)).2 with
    | Some (_, s) =>
        Store.intervals (Engine.db (Engine.task_del (JsString.str "t") s))
          !! JsString.str "t" = None ∧
        (∀ i, i ∈ Engine.gIntervals (Engine.task_del (JsString.str "t") s) →
              Interval.name i ≠ JsString.str "t") ∧
        Engine.no_orphans s
    | None => False
    end.
Proof.
destruct (Engine.interval_add _ _ _) as [[status s]|] eqn:Hadd;
  [|vm_compute in Hadd; discriminate].
assert (Hreach : Engine.reachable s).
{ eapply (Engine.reach_step Macro.midnight
            (Engine.OpIntervalAdd (JsString.str "t") (JsString.str "60000")));
    [|cbn [Engine.step]; by rewrite Hadd].
  eapply (Engine.reach_step Macro.midnight
            (Engine.OpTaskAdd (JsString.str "t") (JsString.str "http")
               (JsString.str "x") [] []));
    [apply Engine.reach_startup|reflexivity]. }
destruct (delete_cascades_no_orphans s Hreach) as (Hdel & Horph & _).
destruct (Hdel (JsString.str "t")) as (_ & _ & Hint & Hdef & _).
split; [exact Hdef|]. split; [exact Hint|exact Horph].
Defined.

(** ** Rehydration *)

Section Rehydration.
Import JsString JsNumber Macro Engine.

Local Abbreviation runs name := (λ tm : Timer, callback tm = RunTask name).
Local Abbreviation called name := (λ i : Interval.t, Interval.name i = name).

Lemma rehydrate_other name s def :
  def.1 ≠ name →
  gTasks (rehydrate s def) = gTasks s ∧
  filter (runs name) (timers (rehydrate s def)) = filter (runs name) (timers s) ∧
  filter (called name) (gIntervals (rehydrate s def)) =
    filter (called name) (gIntervals s) ∧
  Store.intervals (db (rehydrate s def)) !! name = Store.intervals (db s) !! name.
Proof.
intros Hne. unfold rehydrate. destruct (task_exists def.1 (gTasks s)); cbn.
- split_and!; try done.
+ rewrite filter_app, filter_cons_False, filter_nil, app_nil_r; [done|].
  cbn. congruence.
+ rewrite filter_app, filter_cons_False, filter_nil, app_nil_r; [done|].
  cbn. congruence.
- split_and!; try done. by rewrite lookup_delete_ne.
Qed.

Lemma rehydrate_others name L : ∀ s,
  name ∉ L.*1 →
  gTasks (fold_left rehydrate L s) = gTasks s ∧
  filter (runs name) (timers (fold_left rehydrate L s)) = filter (runs name) (timers s) ∧
  filter (called name) (gIntervals (fold_left rehydrate L s)) =
    filter (called name) (gIntervals s) ∧
  Store.intervals (db (fold_left rehydrate L s)) !! name =
    Store.intervals (db s) !! name.
Proof.
induction L as [|def L IH]; intros s Hnot; [done|].
rewrite fmap_cons, not_elem_of_cons in Hnot. destruct Hnot as [Hne Hnot].
cbn [fold_left]. destruct (IH (rehydrate s def) Hnot) as (H1 & H2 & H3 & H4).
destruct (rehydrate_other name s def ltac:(congruence)) as (G1 & G2 & G3 & G4).
split_and!; congruence.
Qed.

(** What the startup loop does with the definition of [name]. *)
Lemma rehydrate_one name ms L : ∀ s,
  NoDup L.*1 → (name, ms) ∈ L →
  let s' := fold_left rehydrate L s in
  (task_exists name (gTasks s) = false →
     Store.intervals (db s') !! name = None ∧
     filter (runs name) (timers s') = filter (runs name) (timers s) ∧
     filter (called name) (gIntervals s') = filter (called name) (gIntervals s)) ∧
  (task_exists name (gTasks s) = true →
     Store.intervals (db s') !! name = Store.intervals (db s) !! name ∧
     ∃ id, filter (runs name) (timers s') =
             filter (runs name) (timers s) ++
             [{| tid := id; callback := RunTask name; delay := ms |}] ∧
           filter (called name) (gIntervals s') =
             filter (called name) (gIntervals s) ++
             [{| Interval.name := name; Interval.id := id; Interval.time := ms |}]).
Proof.
induction L as [|def L IH]; intros s Hnd Hin; [by apply elem_of_nil in Hin|].
rewrite fmap_cons, NoDup_cons in Hnd. destruct Hnd as [Hhead Hnd].
cbn zeta. cbn [fold_left].
apply elem_of_cons in Hin as [<-|Hin].
- cbn in Hhead.
destruct (rehydrate_others name L (rehydrate s (name, ms)) Hhead)
  as (H1 & H2 & H3 & H4).
rewrite H2, H3, H4. unfold rehydrate. cbn [fst snd].
split; intros Hex; rewrite Hex; cbn.
+ split_and!; try done. apply lookup_delete_eq.
+ split; [done|]. exists (next_tid s).
  rewrite !filter_app, !filter_cons_True, !filter_nil by done. done.
- assert (Hne : def.1 ≠ name).
{ intros <-. apply Hhead. apply list_elem_of_fmap. by exists (def.1, ms). }
destruct (rehydrate_other name s def Hne) as (G1 & G2 & G3 & G4).
specialize (IH (rehydrate s def) Hnd Hin). cbn zeta in IH.
rewrite G1, G2, G3, G4 in IH. exact IH.
Qed.

End Rehydration.




(** ** Adding a routine *)

Section Routines.
Import JsString JsNumber Macro Engine.

Lemma list_find_snoc {A} (P : A → Prop) `{∀ x, Decision (P x)} l x :
  (∀ y, y ∈ l → ¬ P y) → P x → list_find P (l ++ [x]) = Some (length l, x).
Proof.
intros Hl Hx. apply list_find_Some. split_and!.
- by rewrite lookup_app_r, Nat.sub_diag by lia.
- done.
- intros j y Hj Hlt. rewrite lookup_app_l in Hj by done.
apply Hl. by eapply list_elem_of_lookup_2.
Qed.

Lemma tick_new_timer e s name ms l :
  (∀ tm, tm ∈ timers s → (tid tm < next_tid s)%nat) →
  let s' := {| db := Store.addIntervalDef name ms (db s); gTasks := gTasks s;
               gTasksLog := gTasksLog s; gIntervals := l;
               timers := timers s ++
                 [{| tid := next_tid s; callback := RunTask name; delay := ms |}];
               next_tid := S (next_tid s) |} in
  tick e (next_tid s) s' = doTask e name s'.
Proof.
intros Hfresh s'. unfold tick. cbn [timers s'].
rewrite list_find_snoc; [done| |done].
intros tm Htm Heq. apply Hfresh in Htm. lia.
Qed.

End Routines.

(** C9.  On a running server, adding a routine is refused with status 400,
    the state left as it was, exactly when the trimmed task name is empty,
    the parsed period is not a positive number, or no cached task has that
    name; otherwise the definition is persisted under the name with the
    period, and a timer handed that period is created whose every tick
    runs [doTask] for the name. *)
Theorem interval_add_validation s body_name body_time intTime :
    Engine.reachable s → JsNumber.parseInt body_time = Some intTime →
    let name := JsString.trim body_name in
    let invalid :=
      name = [] ∨ (∀ ms, intTime = JsNumber.JNum ms → ms ≤ 0) ∨
      ¬ Engine.has_task name (Engine.gTasks s) in
    (invalid → Engine.interval_add body_name body_time s = Some (400, s)) ∧
    (¬ invalid →
       ∃ ms, intTime = JsNumber.JNum ms ∧ 0 < ms ∧
         let s' :=
           {| Engine.db := Store.addIntervalDef name ms (Engine.db s);
              Engine.gTasks := Engine.gTasks s;
              Engine.gTasksLog := Engine.gTasksLog s;
              Engine.gIntervals := Engine.gIntervals s ++
                [{| Interval.name := name; Interval.id := Engine.next_tid s;
                    Interval.time := ms |}];
              Engine.timers := Engine.timers s ++
                [{| Engine.tid := Engine.next_tid s;
                    Engine.callback := Engine.RunTask name; Engine.delay := ms |}];
              Engine.next_tid := S (Engine.next_tid s) |} in
         Engine.interval_add body_name body_time s = Some (200, s') ∧
         Store.intervals (Engine.db s') !! name = Some ms ∧
         ∀ e, Engine.tick e (Engine.next_tid s) s' = Engine.doTask e name s').
Proof.
intros Hreach Hparse name invalid. subst invalid.
pose proof (reachable_consistent s Hreach) as [_ _ _ _ _ Hfresh].
unfold Engine.interval_add. rewrite Hparse. cbn [mbind option_bind]. fold name.
split.
- intros [Hname|[Htime|Htask]].
  + by rewrite Hname.
  + destruct name as [|c nm]; [done|]. destruct intTime as [ms|]; [|done].
    specialize (Htime ms eq_refl). apply Z.leb_le in Htime. by rewrite Htime.
  + destruct name as [|c nm]; [done|]. destruct intTime as [ms|]; [|done].
    destruct (ms <=? 0); [done|].
    apply task_exists_false in Htask. by rewrite Htask.
- intros Hvalid.
  destruct name as [|c nm] eqn:Hname; [destruct Hvalid; by left|].
  destruct intTime as [ms|]; [|destruct Hvalid; right; by left].
  destruct (ms <=? 0) eqn:Hms.
  { destruct Hvalid. right. left. intros ? [= <-]. by apply Z.leb_le. }
  destruct (Engine.task_exists (c :: nm) (Engine.gTasks s)) eqn:Hex.
  2:{ destruct Hvalid. right. right. by apply task_exists_false. }
  apply Z.leb_gt in Hms. exists ms. split; [done|]. split; [lia|].
  cbn zeta. split; [done|]. split.
  + cbn. apply lookup_insert_eq.
  + intros e. by apply tick_new_timer.
Qed.

Lemma interval_add_validation_witness :
    let s := (Engine.task_add (JsString.str "t") (JsString.str "http")
                (JsString.str "x") [] [] (Engine.startup Store.empty_db)).2 in
    Engine.interval_add (JsString.str "") (JsString.str "60000") s = Some (400, s) ∧
    Engine.interval_add (JsString.str "t") (JsString.str "0") s = Some (400, s) ∧
    Engine.interval_add (JsString.str "u") (JsString.str "60000") s = Some (400, s) ∧
    ∃ s', Engine.interval_add (JsString.str " t ") (JsString.str "60000") s
            = Some (200, s') ∧
          Store.intervals (Engine.db s') !! JsString.str "t" = Some 60000.
Proof.
intros s.
assert (Hreach : Engine.reachable s).
{ eapply (Engine.reach_step Macro.midnight
            (Engine.OpTaskAdd (JsString.str "t") (JsString.str "http")
               (JsString.str "x") [] []));
    [apply Engine.reach_startup|reflexivity]. }
assert (Htask : Engine.has_task (JsString.str "t") (Engine.gTasks s)).
{ apply task_exists_spec. by vm_compute. }
split; [|split; [|split]].
- apply (interval_add_validation s (JsString.str "") (JsString.str "60000")
           (JsNumber.JNum 60000) Hreach eq_refl).
  by left.
- apply (interval_add_validation s (JsString.str "t") (JsString.str "0")
           (JsNumber.JNum 0) Hreach eq_refl).
  right. left. intros ms [= <-]. lia.
- apply (interval_add_validation s (JsString.str "u") (JsString.str "60000")
           (JsNumber.JNum 60000) Hreach eq_refl).
  right. right. intros Hu. apply task_exists_spec in Hu. by vm_compute in Hu.
- destruct (interval_add_validation s (JsString.str " t ") (JsString.str "60000")
              (JsNumber.JNum 60000) Hreach eq_refl) as [_ Hok].
  destruct Hok as (ms & [= <-] & _ & Hadd & Hdef & _).
  + intros [Hn|[Ht|Hn]].
    * by vm_compute in Hn.
    * specialize (Ht 60000 eq_refl). lia.
    * by apply Hn.
  + eexists. split; [exact Hadd|exact Hdef].
Defined.

(** ** A run of a task *)

(** C1 against the code.  A run of a saved task computes the next
    templates and assigns them to the cached task before the request built
    from this run's values is dispatched, but it writes nothing to the
    task store: the persisted templates stay as they were. *)
Theorem doTask_advance_not_persisted e tName s s' effs :
    Engine.doTask e tName s = Some (s', effs) →
    Store.tasks (Engine.db s') = Store.tasks (Engine.db s) ∧
    ∀ i a,
      list_find (λ ob, Task.name ob = tName) (Engine.gTasks s) = Some (i, a) →
      ∃ data postData data' postData',
        Macro.evalTemplate e (Task.data a) = Some data ∧
        Macro.evalTemplate e (Task.postData a) = Some postData ∧
        Macro.advanceTemplate (Task.data a) = Some data' ∧
        Macro.advanceTemplate (Task.postData a) = Some postData' ∧
        effs = [Engine.Assign tName data' postData';
                Engine.Dispatch (Engine.build_request a data postData)] ∧
        Task.data <$> Engine.gTasks s' !! i = Some data' ∧
        Task.postData <$> Engine.gTasks s' !! i = Some postData' ∧
        Engine.db s' = Engine.db s.
Proof.
intros Hrun. split; [by apply doTask_store in Hrun as (? & _)|].
intros i a Hfind. unfold Engine.doTask in Hrun. rewrite Hfind in Hrun.
destruct (Macro.evalTemplate e (Task.data a)) as [data|]; [|done].
destruct (Macro.evalTemplate e (Task.postData a)) as [postData|]; [|done].
destruct (Macro.advanceTemplate (Task.data a)) as [data'|]; [|done].
destruct (Macro.advanceTemplate (Task.postData a)) as [postData'|]; [|done].
cbn in Hrun. injection Hrun as <- <-.
exists data, postData, data', postData'. cbn.
apply list_find_name in Hfind as [Hi _].
rewrite list_lookup_insert_eq by (by eapply lookup_lt_Some). done.
Qed.

Lemma doTask_advance_not_persisted_witness :
    let s := (Engine.task_add (JsString.str "t") (JsString.str "http")
                (JsString.str "~inc$5~") [] [] (Engine.startup Store.empty_db)).2 in
    match Engine.doTask Macro.midnight (JsString.str "t") s with
    | Some (s', effs) =>
        effs = [Engine.Assign (JsString.str "t") (JsString.str "~inc$6~") [];
                Engine.Dispatch
                  {| Engine.method := Engine.GET;
                     Engine.target := JsString.str "http://localhost:1337/api/httpp/5";
                     Engine.contentType := None; Engine.contentLength := None;
                     Engine.payload := [] |}] ∧
        Task.data <$> Engine.gTasks s' = [JsString.str "~inc$6~"] ∧
        Store.tasks (Engine.db s') = Store.tasks (Engine.db s) ∧
        Store.data <$> Store.tasks (Engine.db s') !! JsString.str "t" =
          Some (JsString.str "~inc$5~") ∧
        Task.data <$> Engine.gTasks (Engine.startup (Engine.db s')) =
          [JsString.str "~inc$5~"]
    | None => False
    end.
Proof.
intros s.
destruct (Engine.doTask Macro.midnight (JsString.str "t") s) as [[s' effs]|] eqn:Hrun;
  [|vm_compute in Hrun; discriminate].
destruct (doTask_advance_not_persisted _ _ _ _ _ Hrun) as [Hdb _].
assert (Hs' : Engine.doTask Macro.midnight (JsString.str "t") s =
              Some (s', effs)) by exact Hrun.
vm_compute in Hrun. injection Hrun as <- <-.
split; [reflexivity|]. split; [reflexivity|]. split; [exact Hdb|].
split; by vm_compute.
Defined.

(** ** Runs in a row *)

Section Progressions.
Import JsString JsNumber Regex Macro.

Lemma later_runs_S n s : later_runs (S n) s = later_runs n s ≫= advanceTemplate.
Proof. reflexivity. Qed.

Lemma later_runs_0 s : later_runs 0 s = Some s.
Proof. reflexivity. Qed.

Lemma eval_plus e pre post A ws1 ws2 B :
  plain pre → plain post →
  all is_digit A → A ≠ [] → all is_space ws1 → all is_space ws2 →
  all is_digit B → B ≠ [] →
  evalTemplate e (pre ++ str "~" ++ A ++ ws1 ++ str "+" ++ ws2 ++ B ++ str "~" ++ post) =
  Some (pre ++ A ++ post).
Proof.
intros Hpre Hpost HA HAne Hw1 Hw2 HB HBne. unfold evalTemplate, replace_str.
do 5 step_miss.
rewrite (replace_hit _ _ _ _ _ _ A
       (search_plus _ _ _ _ _ _ Hpre HA HAne Hw1 Hw2 HB HBne) eq_refl).
next_step. repeat step_miss. done.
Qed.

Lemma advance_plus pre post A ws1 ws2 B :
  plain pre → plain post →
  all is_digit A → A ≠ [] → all is_space ws1 → all is_space ws2 →
  all is_digit B → B ≠ [] →
  digits_value A + digits_value B ≤ 2 ^ 53 →
  advanceTemplate (pre ++ str "~" ++ A ++ ws1 ++ str "+" ++ ws2 ++ B ++ str "~" ++ post) =
  Some (pre ++ str "~" ++ decimal (digits_value A + digits_value B) ++
      str " + " ++ B ++ str "~" ++ post).
Proof.
intros Hpre Hpost HA HAne Hw1 Hw2 HB HBne Hv.
pose proof (digits_value_nonneg _ HA). pose proof (digits_value_nonneg _ HB).
unfold advanceTemplate. do 3 step_miss.
rewrite (replace_hit _ _ _ _ _ _ _
       (search_plus _ _ _ _ _ _ Hpre HA HAne Hw1 Hw2 HB HBne)
       (cb_arith_digits " + " add A B (digits_value A + digits_value B)
          HA HAne ltac:(lia) HB HBne ltac:(lia)
          ltac:(cbn; by rewrite round_double_safe by lia) ltac:(lia))).
next_step. rewrite numeral_nonneg by lia. repeat step_miss. by norm_str.
Qed.

Lemma one_space : all is_space (str " ").
Proof. by repeat constructor. Qed.

Lemma sum_runs pre post A ws1 ws2 B (n : nat) :
  plain pre → plain post →
  all is_digit A → A ≠ [] → all is_space ws1 → all is_space ws2 →
  all is_digit B → B ≠ [] →
  digits_value A + Z.of_nat (S n) * digits_value B ≤ 2 ^ 53 →
  later_runs (S n)
    (pre ++ str "~" ++ A ++ ws1 ++ str "+" ++ ws2 ++ B ++ str "~" ++ post) =
  Some (pre ++ str "~" ++
        decimal (digits_value A + Z.of_nat (S n) * digits_value B) ++
        str " + " ++ B ++ str "~" ++ post).
Proof.
intros Hpre Hpost HA HAne Hw1 Hw2 HB HBne.
pose proof (digits_value_nonneg _ HA). pose proof (digits_value_nonneg _ HB).
induction n as [|n IH]; intros Hv.
- rewrite later_runs_S, later_runs_0. next_step.
  rewrite advance_plus by (auto; lia).
  by replace (Z.of_nat 1 * digits_value B) with (digits_value B) by lia.
- rewrite later_runs_S, IH by nia. next_step.
  change (str " + " ++ B ++ str "~" ++ post)
    with (str " " ++ str "+" ++ str " " ++ B ++ str "~" ++ post).
  rewrite advance_plus
    by (auto using decimal_all, decimal_nonempty, one_space;
        rewrite ?digits_value_decimal by nia; nia).
  rewrite digits_value_decimal by nia.
  by replace (digits_value A + Z.of_nat (S (S n)) * digits_value B)
    with (digits_value A + Z.of_nat (S n) * digits_value B + digits_value B)
    by lia.
Qed.

Lemma diff_runs pre post A ws1 ws2 B (n : nat) :
  plain pre → plain post →
  all is_digit A → A ≠ [] → all is_space ws1 → all is_space ws2 →
  all is_digit B → B ≠ [] →
  digits_value A ≤ 2 ^ 53 → digits_value B ≤ 2 ^ 53 →
  Z.of_nat n * digits_value B ≤ digits_value A →
  later_runs (S n)
    (pre ++ str "~" ++ A ++ ws1 ++ str "-" ++ ws2 ++ B ++ str "~" ++ post) =
  Some (pre ++ str "~" ++
        numeral (digits_value A - Z.of_nat (S n) * digits_value B) ++
        str " - " ++ B ++ str "~" ++ post).
Proof.
intros Hpre Hpost HA HAne Hw1 Hw2 HB HBne Ha Hb.
pose proof (digits_value_nonneg _ HA). pose proof (digits_value_nonneg _ HB).
induction n as [|n IH]; intros Hv.
- rewrite later_runs_S, later_runs_0. next_step.
  rewrite advance_minus by (auto; lia).
  by replace (Z.of_nat 1 * digits_value B) with (digits_value B) by lia.
- rewrite later_runs_S, IH by nia. next_step.
  rewrite numeral_nonneg by nia.
  change (str " - " ++ B ++ str "~" ++ post)
    with (str " " ++ str "-" ++ str " " ++ B ++ str "~" ++ post).
  rewrite advance_minus
    by (auto using decimal_all, decimal_nonempty, one_space;
        rewrite ?digits_value_decimal by nia; nia).
  rewrite digits_value_decimal by nia.
  by replace (digits_value A - Z.of_nat (S (S n)) * digits_value B)
    with (digits_value A - Z.of_nat (S n) * digits_value B - digits_value B)
    by lia.
Qed.

Lemma inc_runs pre post N (n : nat) :
  plain pre → plain post → 0 ≤ N → N + Z.of_nat n ≤ 2 ^ 53 →
  later_runs n (pre ++ str "~inc$" ++ decimal N ++ str "~" ++ post) =
  Some (pre ++ str "~inc$" ++ decimal (N + Z.of_nat n) ++ str "~" ++ post).
Proof.
intros Hpre Hpost HN. induction n as [|n IH]; intros Hv.
- rewrite later_runs_0. by replace (N + Z.of_nat 0) with N by lia.
- rewrite later_runs_S, IH by lia. next_step.
  rewrite advance_inc
    by (auto using decimal_all, decimal_nonempty;
        rewrite digits_value_decimal by lia; lia).
  rewrite digits_value_decimal by lia.
  by replace (N + Z.of_nat n + 1) with (N + Z.of_nat (S n)) by lia.
Qed.

Lemma inc_top_fixed pre post :
  plain pre → plain post →
  advanceTemplate (pre ++ str "~inc$" ++ decimal (2 ^ 53) ++ str "~" ++ post) =
  Some (pre ++ str "~inc$" ++ decimal (2 ^ 53) ++ str "~" ++ post).
Proof.
intros Hpre Hpost. unfold advanceTemplate.
rewrite (replace_hit _ _ _ _ _ _ _
         (search_inc pre (decimal (2 ^ 53)) post Hpre
            (decimal_all _) (decimal_nonempty _))
         (cb_step_digits "~inc$" add (decimal (2 ^ 53)) (2 ^ 53)
            (decimal_all _) (decimal_nonempty _)
            ltac:(by vm_compute) ltac:(by vm_compute) ltac:(by vm_compute))).
next_step. rewrite numeral_nonneg by done.
repeat step_miss. by norm_str.
Qed.

Lemma dec_runs pre post N (n : nat) :
  plain pre → plain post → 0 ≤ N ≤ 2 ^ 53 →
  later_runs n (pre ++ str "~dec$" ++ numeral N ++ str "~" ++ post) =
  Some (pre ++ str "~dec$" ++ numeral (Z.max (N - Z.of_nat n) (-1)) ++
        str "~" ++ post).
Proof.
intros Hpre Hpost HN. induction n as [|n IH].
- rewrite later_runs_0. by replace (Z.max (N - Z.of_nat 0) (-1)) with N by lia.
- rewrite later_runs_S, IH. next_step.
  destruct (decide (N - Z.of_nat n < 0)) as [Hneg|Hpos].
  + replace (Z.max (N - Z.of_nat n) (-1)) with (-1) by lia.
    replace (Z.max (N - Z.of_nat (S n)) (-1)) with (-1) by lia.
    apply advance_inert.
    apply (dec_negative_inert pre post (str "1")); auto.
    by repeat constructor.
  + replace (Z.max (N - Z.of_nat n) (-1)) with (N - Z.of_nat n) by lia.
    rewrite numeral_nonneg by lia.
    rewrite advance_dec
      by (auto using decimal_all, decimal_nonempty;
          rewrite digits_value_decimal by lia; lia).
    rewrite digits_value_decimal by lia.
    by replace (Z.max (N - Z.of_nat (S n)) (-1)) with (N - Z.of_nat n - 1) by lia.
Qed.

End Progressions.

Section RoundRobin.
Import JsString JsNumber Regex Macro.

Lemma later_runs_add a b s s' :
  later_runs b s = Some s' → later_runs (a + b) s = later_runs a s'.
Proof. intros H. unfold later_runs in *. by rewrite Nat.iter_add, H. Qed.

Lemma later_runs_period k s :
  later_runs k s = Some s → ∀ q, later_runs (q * k) s = Some s.
Proof.
intros Hk. induction q as [|q IH]; [done|].
cbn [Nat.mul]. rewrite Nat.add_comm. by rewrite (later_runs_add _ _ _ _ Hk).
Qed.

Lemma list_turns e pre post toks (j : nat) x :
  plain pre → plain post → (2 ≤ length toks)%nat → Forall token toks →
  toks !! j = Some x →
  evalTemplate e
    (pre ++ ph_list (join (str " ") (drop j toks ++ take j toks)) ++ post) =
    Some (pre ++ x ++ post) ∧
  advanceTemplate
    (pre ++ ph_list (join (str " ") (drop j toks ++ take j toks)) ++ post) =
    Some (pre ++ ph_list (join (str " ") (drop (S j) toks ++ take (S j) toks)) ++
          post).
Proof.
intros Hpre Hpost Hk Htok Hx.
pose proof (lookup_lt_Some _ _ _ Hx) as Hj.
rewrite (drop_S _ _ _ Hx), (take_S_r _ _ _ Hx).
rewrite (app_assoc (drop (S j) toks) (take j toks) [x]).
cbn [app]. apply list_rotation; auto.
- intros Hnil. apply (f_equal length) in Hnil.
  rewrite length_app, length_drop, length_take in Hnil. cbn in Hnil. lia.
- constructor.
  + by eapply Forall_lookup_1 in Htok.
  + apply Forall_app. split; [by apply Forall_drop|by apply Forall_take].
Qed.

Lemma list_runs_upto pre post toks (j : nat) :
  plain pre → plain post → (2 ≤ length toks)%nat → Forall token toks →
  (j ≤ length toks)%nat →
  later_runs j (pre ++ ph_list (join (str " ") toks) ++ post) =
  Some (pre ++ ph_list (join (str " ") (drop j toks ++ take j toks)) ++ post).
Proof.
intros Hpre Hpost Hk Htok. induction j as [|j IH]; intros Hj.
- by rewrite later_runs_0, drop_0, take_0, app_nil_r.
- rewrite later_runs_S, IH by lia. next_step.
  destruct (lookup_lt_is_Some_2 toks j ltac:(lia)) as [x Hx].
  by destruct (list_turns midnight pre post toks j x) as [_ ->].
Qed.

Lemma list_runs pre post toks (j : nat) :
  plain pre → plain post → (2 ≤ length toks)%nat → Forall token toks →
  later_runs j (pre ++ ph_list (join (str " ") toks) ++ post) =
  Some (pre ++ ph_list (join (str " ") (rotate j toks)) ++ post).
Proof.
intros Hpre Hpost Hk Htok.
assert (Hper : later_runs (length toks)
                 (pre ++ ph_list (join (str " ") toks) ++ post) =
               Some (pre ++ ph_list (join (str " ") toks) ++ post)).
{ rewrite list_runs_upto by (auto; lia).
  by rewrite drop_all, take_ge by lia. }
rewrite (Nat.div_mod_eq j (length toks)) at 1.
rewrite (Nat.mul_comm (length toks)), Nat.add_comm.
rewrite (later_runs_add _ _ _ _
           (later_runs_period _ _ Hper (j / length toks)%nat)).
rewrite list_runs_upto; auto.
apply Nat.lt_le_incl, Nat.mod_upper_bound. lia.
Qed.

End RoundRobin.

(** ** Cursors into the upload directory *)

Section Cursors.
Import JsString JsNumber Regex Macro.

Lemma nonspace_dot c : is_nonspace c = true → is_dot c = true.
Proof. destruct c as [[] [] [] [] [] [] [] []]; done. Qed.

Lemma nonspace_all_dot P : all is_nonspace P → all is_dot P.
Proof. intros H. eapply Forall_impl; [exact H|]. apply nonspace_dot. Qed.

Lemma stops_head cls (run rest : list ascii) c :
  head run = Some c → cls c = false → stops cls (run ++ rest).
Proof. destruct run as [|x run]; [done|]. by intros [= ->]. Qed.

Lemma nonspace_head (P : list ascii) :
  all is_nonspace P → P ≠ [] → ∃ c, head P = Some c ∧ is_space c = false.
Proof.
destruct P as [|c P]; [done|]. intros HP _. exists c. split; [done|].
apply Forall_inv in HP. unfold is_nonspace in HP. by destruct (is_space c).
Qed.

Lemma space_head (ws : list ascii) :
  all is_space ws → ws ≠ [] → ∃ c, head ws = Some c ∧ is_nonspace c = false.
Proof.
destruct ws as [|c ws]; [done|]. intros Hws _. exists c. split; [done|].
apply Forall_inv in Hws. unfold is_nonspace. cbn in Hws. by rewrite Hws.
Qed.

Lemma digit_head (N : list ascii) :
  all is_digit N → N ≠ [] → ∃ c, head N = Some c ∧ is_space c = false.
Proof.
destruct N as [|c N]; [done|]. intros HN _. exists c. split; [done|].
apply digit_not_space, (Forall_inv HN).
Qed.

(** The tail [\s+(\d+)~] shared by the three expressions. *)
Lemma match_index ws N post :
  all is_space ws → ws ≠ [] → all is_digit N → N ≠ [] →
  match_items [Rep true 1 false is_space; Rep true 1 true is_digit; Chr "~"]
    (ws ++ N ++ "~"%char :: post) = Some ([N], post).
Proof.
intros Hws Hwne HN HNne.
destruct (digit_head N HN HNne) as (c & Hc & Hcs).
apply (match_greedy 1 false _ _ ws _ [N]);
  [done|by eapply stops_head|by apply min_one|].
apply (match_greedy 1 true _ _ N _ []); [done|reflexivity|by apply min_one|].
by rewrite match_chr.
Qed.

Lemma match_files ws1 P ws2 N post :
  all is_space ws1 → ws1 ≠ [] → all is_nonspace P → P ≠ [] →
  all is_space ws2 → ws2 ≠ [] → all is_digit N → N ≠ [] →
  match_items re_files
    (str "~files" ++ ws1 ++ P ++ ws2 ++ N ++ str "~" ++ post) =
  Some ([P; N], post).
Proof.
intros Hw1 Hw1ne HP HPne Hw2 Hw2ne HN HNne. unfold re_files.
cbn [lit str list_ascii_of_string map app]. rewrite !match_chr.
destruct (nonspace_head P HP HPne) as (c & Hc & Hcs).
destruct (space_head ws2 Hw2 Hw2ne) as (c2 & Hc2 & Hc2s).
apply (match_greedy 1 false _ _ ws1 _ [P; N]);
  [done|by eapply stops_head|by apply min_one|].
apply (match_greedy 1 true _ _ P _ [N]);
  [done|by eapply stops_head|by apply min_one|].
by apply (match_index ws2 N post).
Qed.

(** A lazy quantifier takes the shortest run behind which the rest of the
  expression matches. *)
Lemma match_lazy min capture cls p run rest caps rest' :
  all cls run → (min ≤ length run)%nat →
  (∀ a b, run = a ++ b → b ≠ [] → match_items p (b ++ rest) = None) →
  match_items p rest = Some (caps, rest') →
  match_items (Rep false min capture cls :: p) (run ++ rest) =
  Some (if capture then run :: caps else caps, rest').
Proof.
intros Hrun Hmin Hnot Hp. cbn [match_items]. apply rep_lazy_run; auto.
- intros a b Hab Hb. rewrite (Hnot a b Hab Hb). by destruct (_ <=? _)%nat.
- cbn [app]. apply Nat.leb_le in Hmin. by rewrite Hmin, Hp.
Qed.

(** The lazy group [(.+?)] takes a path without white space whole. *)
Lemma match_lazy_path ws1 P ws2 N post :
  all is_space ws1 → ws1 ≠ [] → all is_nonspace P → P ≠ [] →
  all is_space ws2 → ws2 ≠ [] → all is_digit N → N ≠ [] →
  match_items
    [Rep true 1 false is_space; Rep false 1 true is_dot;
     Rep true 1 false is_space; Rep true 1 true is_digit; Chr "~"]
    (ws1 ++ P ++ ws2 ++ N ++ "~"%char :: post) =
  Some ([P; N], post).
Proof.
intros Hw1 Hw1ne HP HPne Hw2 Hw2ne HN HNne.
destruct (nonspace_head P HP HPne) as (c & Hc & Hcs).
apply (match_greedy 1 false _ _ ws1 _ [P; N]);
  [done|by eapply stops_head|by apply min_one|].
apply (match_lazy 1 true is_dot _ P _ [N]).
- by apply nonspace_all_dot.
- by apply min_one.
- intros a b -> Hb. destruct b as [|x b]; [done|].
  assert (Hx : is_space x = false).
  { apply Forall_app in HP as [_ HP]. apply Forall_inv in HP.
    unfold is_nonspace in HP. by destruct (is_space x). }
  cbn. by rewrite Hx.
- by apply match_index.
Qed.

Lemma search_files pre ws1 P ws2 N post :
  plain pre → all is_space ws1 → ws1 ≠ [] → all is_nonspace P → P ≠ [] →
  all is_space ws2 → ws2 ≠ [] → all is_digit N → N ≠ [] →
  search re_files (pre ++ str "~files" ++ ws1 ++ P ++ ws2 ++ N ++ str "~" ++ post) =
  Some (pre, [P; N], post).
Proof.
intros. rewrite search_plain by done.
rewrite (search_hit _ _ [P; N] post) by (by apply match_files).
cbn. by rewrite app_nil_r.
Qed.

Lemma search_lines pre ws1 P ws2 N post :
  plain pre → all is_space ws1 → ws1 ≠ [] → all is_nonspace P → P ≠ [] →
  all is_space ws2 → ws2 ≠ [] → all is_digit N → N ≠ [] →
  search re_lines (pre ++ str "~lines" ++ ws1 ++ P ++ ws2 ++ N ++ str "~" ++ post) =
  Some (pre, [P; N], post).
Proof.
intros. rewrite search_plain by done.
rewrite (search_hit _ _ [P; N] post).
- cbn. by rewrite app_nil_r.
- unfold re_lines. cbn [lit str list_ascii_of_string map app].
  rewrite !match_chr. by apply match_lazy_path.
Qed.

Lemma search_words pre ws1 P ws2 N post :
  plain pre → all is_space ws1 → ws1 ≠ [] → all is_nonspace P → P ≠ [] →
  all is_space ws2 → ws2 ≠ [] → all is_digit N → N ≠ [] →
  search re_words (pre ++ str "~words" ++ ws1 ++ P ++ ws2 ++ N ++ str "~" ++ post) =
  Some (pre, [P; N], post).
Proof.
intros. rewrite search_plain by done.
rewrite (search_hit _ _ [P; N] post).
- cbn. by rewrite app_nil_r.
- unfold re_words. cbn [lit str list_ascii_of_string map app].
  rewrite !match_chr. by apply match_lazy_path.
Qed.

Lemma cb_next_digits tag P N :
  all is_digit N → N ≠ [] → 0 ≤ digits_value N < 2 ^ 53 →
  cb_next tag [P; N] =
  Some (str tag ++ P ++ str " " ++ decimal (digits_value N + 1) ++ str "~").
Proof.
intros HN Hne Hv. cbn -[str add]. rewrite parseInt_digits by (auto; lia).
cbn [mbind option_bind]. rewrite round_double_safe by lia.
cbn [add]. rewrite round_double_safe by lia.
rewrite toString_num by lia. cbn [mbind option_bind].
by rewrite numeral_nonneg by lia.
Qed.

Lemma files_run e pre post ws1 P ws2 N :
  plain pre → plain post → all is_space ws1 → ws1 ≠ [] →
  all is_nonspace P → P ≠ [] → plain P →
  all is_space ws2 → ws2 ≠ [] → all is_digit N → N ≠ [] →
  (plain (fileById e P N) →
   evalTemplate e (pre ++ str "~files" ++ ws1 ++ P ++ ws2 ++ N ++ str "~" ++ post) =
   Some (pre ++ fileById e P N ++ post)) ∧
  (0 ≤ digits_value N < 2 ^ 53 →
   advanceTemplate (pre ++ str "~files" ++ ws1 ++ P ++ ws2 ++ N ++ str "~" ++ post) =
   Some (pre ++ str "~files " ++ P ++ str " " ++ decimal (digits_value N + 1) ++
         str "~" ++ post)).
Proof.
intros Hpre Hpost Hw1 Hw1ne HP HPne HPp Hw2 Hw2ne HN HNne.
pose proof (search_files pre ws1 P ws2 N post
              Hpre Hw1 Hw1ne HP HPne Hw2 Hw2ne HN HNne) as Hs.
split.
- intros HF. unfold evalTemplate, replace_str. do 7 step_miss.
  hit Hs (eq_refl (Some (fileById e P N))). repeat step_miss. done.
- intros Hv. unfold advanceTemplate. do 5 step_miss.
  hit Hs (cb_next_digits "~files " P N HN HNne Hv).
  repeat step_miss. by norm_str.
Qed.

Lemma lines_run e pre post ws1 P ws2 N :
  plain pre → plain post → all is_space ws1 → ws1 ≠ [] →
  all is_nonspace P → P ≠ [] → plain P →
  all is_space ws2 → ws2 ≠ [] → all is_digit N → N ≠ [] →
  (plain (getLine e P N) →
   evalTemplate e (pre ++ str "~lines" ++ ws1 ++ P ++ ws2 ++ N ++ str "~" ++ post) =
   Some (pre ++ getLine e P N ++ post)) ∧
  (0 ≤ digits_value N < 2 ^ 53 →
   advanceTemplate (pre ++ str "~lines" ++ ws1 ++ P ++ ws2 ++ N ++ str "~" ++ post) =
   Some (pre ++ str "~lines " ++ P ++ str " " ++ decimal (digits_value N + 1) ++
         str "~" ++ post)).
Proof.
intros Hpre Hpost Hw1 Hw1ne HP HPne HPp Hw2 Hw2ne HN HNne.
pose proof (search_lines pre ws1 P ws2 N post
              Hpre Hw1 Hw1ne HP HPne Hw2 Hw2ne HN HNne) as Hs.
split.
- intros HF. unfold evalTemplate, replace_str. do 8 step_miss.
  hit Hs (eq_refl (Some (getLine e P N))). repeat step_miss. done.
- intros Hv. unfold advanceTemplate. do 6 step_miss.
  hit Hs (cb_next_digits "~lines " P N HN HNne Hv).
  repeat step_miss. by norm_str.
Qed.

Lemma words_run e pre post ws1 P ws2 N :
  plain pre → plain post → all is_space ws1 → ws1 ≠ [] →
  all is_nonspace P → P ≠ [] → plain P →
  all is_space ws2 → ws2 ≠ [] → all is_digit N → N ≠ [] →
  (evalTemplate e (pre ++ str "~words" ++ ws1 ++ P ++ ws2 ++ N ++ str "~" ++ post) =
   Some (pre ++ getWord e P N ++ post)) ∧
  (0 ≤ digits_value N < 2 ^ 53 →
   advanceTemplate (pre ++ str "~words" ++ ws1 ++ P ++ ws2 ++ N ++ str "~" ++ post) =
   Some (pre ++ str "~words " ++ P ++ str " " ++ decimal (digits_value N + 1) ++
         str "~" ++ post)).
Proof.
intros Hpre Hpost Hw1 Hw1ne HP HPne HPp Hw2 Hw2ne HN HNne.
pose proof (search_words pre ws1 P ws2 N post
              Hpre Hw1 Hw1ne HP HPne Hw2 Hw2ne HN HNne) as Hs.
split.
- unfold evalTemplate, replace_str. do 9 step_miss.
  by hit Hs (eq_refl (Some (getWord e P N))).
- intros Hv. unfold advanceTemplate. do 7 step_miss.
  hit Hs (cb_next_digits "~words " P N HN HNne Hv). by norm_str.
Qed.

End Cursors.

(** ** The clock *)

Section Clock.
Import JsString JsNumber Regex Macro.

Lemma two_digits n :
  0 ≤ n < 100 →
  padStart2 (decimal n) = [digit_char (n / 10); digit_char (n mod 10)].
Proof.
intros Hn. replace n with (Z.of_nat (Z.to_nat n)) by lia.
assert (Hk : (Z.to_nat n < 100)%nat) by lia. revert Hk.
generalize (Z.to_nat n). intros k Hk.
do 100 (destruct k as [|k]; [vm_compute; reflexivity|]). lia.
Qed.

Lemma hour_run e pre post :
  plain pre → plain post →
  evalTemplate e (pre ++ str "~hour~" ++ post) = Some (pre ++ getHour e ++ post) ∧
  advanceTemplate (pre ++ str "~hour~" ++ post) = Some (pre ++ str "~hour~" ++ post).
Proof.
intros Hpre Hpost. split.
- unfold evalTemplate, replace_str.
  assert (Hs : search (lit "~hour~") (pre ++ str "~hour~" ++ post) =
               Some (pre, [], post)).
  { rewrite search_plain by done.
    rewrite (search_hit _ _ [] post) by reflexivity. cbn. by rewrite app_nil_r. }
  hit Hs (eq_refl (Some (getHour e))). repeat step_miss. done.
- unfold advanceTemplate. repeat step_miss. by norm_str.
Qed.

Lemma date_run e pre post :
  plain pre → plain post →
  evalTemplate e (pre ++ str "~date~" ++ post) = Some (pre ++ getDate e ++ post) ∧
  advanceTemplate (pre ++ str "~date~" ++ post) = Some (pre ++ str "~date~" ++ post).
Proof.
intros Hpre Hpost. split.
- unfold evalTemplate, replace_str. step_miss.
  assert (Hs : search (lit "~date~") (pre ++ str "~date~" ++ post) =
               Some (pre, [], post)).
  { rewrite search_plain by done.
    rewrite (search_hit _ _ [] post) by reflexivity. cbn. by rewrite app_nil_r. }
  hit Hs (eq_refl (Some (getDate e))). repeat step_miss. done.
- unfold advanceTemplate. repeat step_miss. by norm_str.
Qed.

End Clock.

(** ** Two placeholders of one kind *)

Section Apart.
Import JsString JsNumber Regex Macro Template.

Lemma apart_plain mid : apart mid → plain mid.
Proof. by intros [? _]. Qed.

Lemma opens_digit c : opens c = false → is_digit c = false.
Proof. unfold opens. by intros [? _]%orb_false_iff. Qed.

(** Behind the [~] that closes a placeholder, a text that stands apart
  starts no expression, neither one with a letter or a brace behind its
  [~] nor one with a digit. *)
Lemma match_apart_chr p x mid rest :
  p !! 0%nat = Some (Chr "~") → p !! 1%nat = Some (Chr x) → opens x = true →
  apart mid → match_items p ("~"%char :: mid ++ "~"%char :: rest) = None.
Proof.
intros H0 H1 Hx [_ Hmid]. destruct p as [|i [|j p]]; try done.
injection H0 as ->. injection H1 as ->. rewrite match_chr.
destruct mid as [|c mid]; cbn [match_items app].
- destruct (Ascii.eqb "~" x) eqn:E; [|done]. apply Ascii.eqb_eq in E as <-.
  discriminate Hx.
- destruct (Ascii.eqb c x) eqn:E; [|done]. apply Ascii.eqb_eq in E as ->. congruence.
Qed.

Lemma match_apart_digit p capture mid rest :
  p !! 0%nat = Some (Chr "~") → p !! 1%nat = Some (Rep true 1 capture is_digit) →
  apart mid → match_items p ("~"%char :: mid ++ "~"%char :: rest) = None.
Proof.
intros H0 H1 [_ Hmid]. destruct p as [|i [|j p]]; try done.
injection H0 as ->. injection H1 as ->. rewrite match_chr.
destruct mid as [|c mid]; cbn [match_items app rep_greedy]; [done|].
by rewrite (opens_digit c Hmid).
Qed.

End Apart.

#[export] Hint Resolve apart_plain : plain.

Ltac miss_apart :=
    first
      [ miss_here
      | eapply match_apart_chr; [reflexivity|reflexivity|reflexivity|eassumption]
      | eapply match_apart_digit; [reflexivity|reflexivity|eassumption] ].

Ltac scan_apart :=
    repeat first
      [ rewrite search_nil by reflexivity
      | rewrite search_tail by plain_side
      | rewrite search_plain by plain_side
      | rewrite search_miss by miss_apart ].

Ltac dead_apart :=
    norm_str; first [ apply search_plain_none; plain_side
                    | scan_apart; reflexivity ].

Ltac step_apart :=
    first [rewrite replace_miss by dead_apart
          |rewrite replace_all_miss by dead_apart];
    next_step.

Section TwoOfAKind.
Import JsString JsNumber Regex Macro Template.

Variable e : Env.
Variables pre mid post : list ascii.
Hypothesis Hpre : plain pre.
Hypothesis Hmid : apart mid.
Hypothesis Hpost : plain post.

Lemma two_hours :
  evalTemplate e (sited pre (str "~hour~") mid (str "~hour~") post) =
    Some (sited pre (getHour e) mid (str "~hour~") post) ∧
  advanceTemplate (sited pre (str "~hour~") mid (str "~hour~") post) =
    Some (sited pre (str "~hour~") mid (str "~hour~") post).
Proof.
unfold sited. split.
- unfold evalTemplate, replace_str.
  assert (Hs : search (lit "~hour~") (pre ++ str "~hour~" ++ mid ++ str "~hour~" ++ post) =
               Some (pre, [], mid ++ str "~hour~" ++ post)).
  { rewrite search_plain by done.
    rewrite (search_hit _ _ [] (mid ++ str "~hour~" ++ post)) by reflexivity.
    cbn. by rewrite app_nil_r. }
  hit Hs (eq_refl (Some (getHour e))). repeat step_apart. done.
- unfold advanceTemplate. repeat step_apart. by norm_str.
Qed.

Lemma two_dates :
  evalTemplate e (sited pre (str "~date~") mid (str "~date~") post) =
    Some (sited pre (getDate e) mid (str "~date~") post) ∧
  advanceTemplate (sited pre (str "~date~") mid (str "~date~") post) =
    Some (sited pre (str "~date~") mid (str "~date~") post).
Proof.
unfold sited. split.
- unfold evalTemplate, replace_str. step_apart.
  assert (Hs : search (lit "~date~") (pre ++ str "~date~" ++ mid ++ str "~date~" ++ post) =
               Some (pre, [], mid ++ str "~date~" ++ post)).
  { rewrite search_plain by done.
    rewrite (search_hit _ _ [] (mid ++ str "~date~" ++ post)) by reflexivity.
    cbn. by rewrite app_nil_r. }
  hit Hs (eq_refl (Some (getDate e))). repeat step_apart. done.
- unfold advanceTemplate. repeat step_apart. by norm_str.
Qed.

Lemma two_incs X Y :
  all is_digit X → X ≠ [] → 0 ≤ digits_value X < 2 ^ 53 →
  all is_digit Y → Y ≠ [] →
  evalTemplate e
    (pre ++ str "~inc$" ++ X ++ str "~" ++ mid ++ str "~inc$" ++ Y ++ str "~" ++ post) =
    Some (pre ++ decimal (digits_value X) ++ mid ++ str "~inc$" ++ Y ++ str "~" ++ post) ∧
  advanceTemplate
    (pre ++ str "~inc$" ++ X ++ str "~" ++ mid ++ str "~inc$" ++ Y ++ str "~" ++ post) =
    Some (pre ++ str "~inc$" ++ decimal (digits_value X + 1) ++ str "~" ++ mid ++
          str "~inc$" ++ Y ++ str "~" ++ post).
Proof.
intros HX HXne Hv HY HYne.
pose proof (search_inc pre X (mid ++ str "~inc$" ++ Y ++ str "~" ++ post)
              Hpre HX HXne) as Hs.
split.
- unfold evalTemplate, replace_str. do 2 step_apart.
  hit Hs (cb_number_digits X HX HXne ltac:(lia)).
  repeat step_apart. done.
- unfold advanceTemplate.
  hit Hs (cb_step_digits "~inc$" add X (digits_value X + 1) HX HXne
            ltac:(lia) ltac:(cbn; by rewrite round_double_safe by lia) ltac:(lia)).
  rewrite numeral_nonneg by lia. repeat step_apart. by norm_str.
Qed.

Lemma two_decs X Y :
  all is_digit X → X ≠ [] → 0 < digits_value X ≤ 2 ^ 53 →
  all is_digit Y → Y ≠ [] →
  evalTemplate e
    (pre ++ str "~dec$" ++ X ++ str "~" ++ mid ++ str "~dec$" ++ Y ++ str "~" ++ post) =
    Some (pre ++ decimal (digits_value X) ++ mid ++ str "~dec$" ++ Y ++ str "~" ++ post) ∧
  advanceTemplate
    (pre ++ str "~dec$" ++ X ++ str "~" ++ mid ++ str "~dec$" ++ Y ++ str "~" ++ post) =
    Some (pre ++ str "~dec$" ++ decimal (digits_value X - 1) ++ str "~" ++ mid ++
          str "~dec$" ++ Y ++ str "~" ++ post).
Proof.
intros HX HXne Hv HY HYne.
pose proof (search_dec pre X (mid ++ str "~dec$" ++ Y ++ str "~" ++ post)
              Hpre HX HXne) as Hs.
split.
- unfold evalTemplate, replace_str. do 3 step_apart.
  hit Hs (cb_number_digits X HX HXne ltac:(lia)).
  repeat step_apart. done.
- unfold advanceTemplate. step_apart.
  hit Hs (cb_step_digits "~dec$" sub X (digits_value X - 1) HX HXne
            ltac:(lia) ltac:(cbn; by rewrite round_double_safe by lia) ltac:(lia)).
  rewrite numeral_nonneg by lia. repeat step_apart. by norm_str.
Qed.

Lemma two_lists c1 c2 :
  list_text c1 → list_text c2 →
  evalTemplate e (pre ++ ph_list c1 ++ mid ++ ph_list c2 ++ post) =
    Some (pre ++ first_token c1 ++ mid ++ first_token c2 ++ post) ∧
  advanceTemplate (pre ++ ph_list c1 ++ mid ++ ph_list c2 ++ post) =
    Some (pre ++ ph_list (rotated c1) ++ mid ++ ph_list (rotated c2) ++ post).
Proof.
intros [Hb1 Hp1] [Hb2 Hp2].
pose proof (apart_plain mid Hmid) as Hm.
pose proof (search_list pre c1 (mid ++ ph_list c2 ++ post) Hpre Hb1) as Hs1.
pose proof (search_list mid c2 post Hm Hb2) as Hs2.
assert (Hs3 : search re_braces post = None) by (by apply search_plain_none).
assert (Hall : ∀ f r1 r2, f [c1] = Some r1 → f [c2] = Some r2 →
          replace_all re_braces f (pre ++ ph_list c1 ++ mid ++ ph_list c2 ++ post) =
          Some (pre ++ r1 ++ mid ++ r2 ++ post)).
{ intros f r1 r2 H1 H2.
  rewrite (replace_all_hit re_braces "~" f _ _ _ _ eq_refl Hs1), H1. next_step.
  rewrite (replace_all_hit re_braces "~" f _ _ _ _ eq_refl Hs2), H2. next_step.
  by rewrite (replace_all_miss _ _ _ Hs3). }
split.
- unfold evalTemplate, replace_str. unfold ph_list in *. do 4 step_apart.
  norm_str. norm_str_in Hall. rewrite (Hall cb_first _ _ eq_refl eq_refl).
  next_step. repeat step_apart. done.
- unfold advanceTemplate. unfold ph_list in *. do 2 step_apart.
  norm_str. norm_str_in Hall. rewrite (Hall cb_rotate _ _ eq_refl eq_refl).
  next_step. repeat step_apart. by norm_str.
Qed.

Lemma two_sums A ws1 ws2 B C ws3 ws4 D :
  all is_digit A → A ≠ [] → all is_space ws1 → all is_space ws2 →
  all is_digit B → B ≠ [] →
  all is_digit C → C ≠ [] → all is_space ws3 → all is_space ws4 →
  all is_digit D → D ≠ [] →
  digits_value A + digits_value B ≤ 2 ^ 53 →
  evalTemplate e
    (pre ++ str "~" ++ A ++ ws1 ++ str "+" ++ ws2 ++ B ++ str "~" ++ mid ++
     str "~" ++ C ++ ws3 ++ str "+" ++ ws4 ++ D ++ str "~" ++ post) =
    Some (pre ++ A ++ mid ++
          str "~" ++ C ++ ws3 ++ str "+" ++ ws4 ++ D ++ str "~" ++ post) ∧
  advanceTemplate
    (pre ++ str "~" ++ A ++ ws1 ++ str "+" ++ ws2 ++ B ++ str "~" ++ mid ++
     str "~" ++ C ++ ws3 ++ str "+" ++ ws4 ++ D ++ str "~" ++ post) =
    Some (pre ++ str "~" ++ decimal (digits_value A + digits_value B) ++ str " + " ++ B ++ str "~" ++ mid ++
          str "~" ++ C ++ ws3 ++ str "+" ++ ws4 ++ D ++ str "~" ++ post).
Proof.
intros HA HAne Hw1 Hw2 HB HBne HC HCne Hw3 Hw4 HD HDne Hv.
pose proof (digits_value_nonneg _ HA). pose proof (digits_value_nonneg _ HB).
pose proof (search_plus pre A ws1 ws2 B
              (mid ++ str "~" ++ C ++ ws3 ++ str "+" ++ ws4 ++ D ++ str "~" ++ post)
              Hpre HA HAne Hw1 Hw2 HB HBne) as Hs.
split.
- unfold evalTemplate, replace_str. do 5 step_apart.
  hit Hs (eq_refl (Some A)). repeat step_apart. done.
- unfold advanceTemplate. do 3 step_apart.
  hit Hs (cb_arith_digits " + " add A B (digits_value A + digits_value B)
            HA HAne ltac:(lia) HB HBne ltac:(lia)
            ltac:(cbn; by rewrite round_double_safe by lia) ltac:(lia)).
  rewrite numeral_nonneg by lia. repeat step_apart. by norm_str.
Qed.

Lemma two_differences A ws1 ws2 B C ws3 ws4 D :
  all is_digit A → A ≠ [] → all is_space ws1 → all is_space ws2 →
  all is_digit B → B ≠ [] →
  all is_digit C → C ≠ [] → all is_space ws3 → all is_space ws4 →
  all is_digit D → D ≠ [] →
  digits_value B ≤ digits_value A ≤ 2 ^ 53 →
  evalTemplate e
    (pre ++ str "~" ++ A ++ ws1 ++ str "-" ++ ws2 ++ B ++ str "~" ++ mid ++
     str "~" ++ C ++ ws3 ++ str "-" ++ ws4 ++ D ++ str "~" ++ post) =
    Some (pre ++ A ++ mid ++
          str "~" ++ C ++ ws3 ++ str "-" ++ ws4 ++ D ++ str "~" ++ post) ∧
  advanceTemplate
    (pre ++ str "~" ++ A ++ ws1 ++ str "-" ++ ws2 ++ B ++ str "~" ++ mid ++
     str "~" ++ C ++ ws3 ++ str "-" ++ ws4 ++ D ++ str "~" ++ post) =
    Some (pre ++ str "~" ++ decimal (digits_value A - digits_value B) ++ str " - " ++ B ++ str "~" ++ mid ++
          str "~" ++ C ++ ws3 ++ str "-" ++ ws4 ++ D ++ str "~" ++ post).
Proof.
intros HA HAne Hw1 Hw2 HB HBne HC HCne Hw3 Hw4 HD HDne Hv.
pose proof (digits_value_nonneg _ HA). pose proof (digits_value_nonneg _ HB).
pose proof (search_minus pre A ws1 ws2 B
              (mid ++ str "~" ++ C ++ ws3 ++ str "-" ++ ws4 ++ D ++ str "~" ++ post)
              Hpre HA HAne Hw1 Hw2 HB HBne) as Hs.
split.
- unfold evalTemplate, replace_str. do 6 step_apart.
  hit Hs (eq_refl (Some A)). repeat step_apart. done.
- unfold advanceTemplate. do 4 step_apart.
  hit Hs (cb_arith_digits " - " sub A B (digits_value A - digits_value B)
            HA HAne ltac:(lia) HB HBne ltac:(lia)
            ltac:(cbn; by rewrite round_double_safe by lia) ltac:(lia)).
  rewrite numeral_nonneg by lia. repeat step_apart. by norm_str.
Qed.

Lemma two_files ws1 P ws2 N ws3 Q ws4 M :
  all is_space ws1 → ws1 ≠ [] → all is_nonspace P → P ≠ [] → plain P →
  all is_space ws2 → ws2 ≠ [] → all is_digit N → N ≠ [] →
  all is_space ws3 → plain Q → all is_space ws4 → all is_digit M →
  0 ≤ digits_value N < 2 ^ 53 →
  plain (fileById e P N) →
  evalTemplate e
    (pre ++ str "~files" ++ ws1 ++ P ++ ws2 ++ N ++ str "~" ++ mid ++
     str "~files" ++ ws3 ++ Q ++ ws4 ++ M ++ str "~" ++ post) =
    Some (pre ++ fileById e P N ++ mid ++
          str "~files" ++ ws3 ++ Q ++ ws4 ++ M ++ str "~" ++ post) ∧
  advanceTemplate
    (pre ++ str "~files" ++ ws1 ++ P ++ ws2 ++ N ++ str "~" ++ mid ++
     str "~files" ++ ws3 ++ Q ++ ws4 ++ M ++ str "~" ++ post) =
    Some (pre ++ str "~files " ++ P ++ str " " ++ decimal (digits_value N + 1) ++
          str "~" ++ mid ++
          str "~files" ++ ws3 ++ Q ++ ws4 ++ M ++ str "~" ++ post).
Proof.
intros Hw1 Hw1ne HP HPne HPp Hw2 Hw2ne HN HNne Hw3 HQp Hw4 HM Hv HF.
pose proof (search_files pre ws1 P ws2 N
              (mid ++ str "~files" ++ ws3 ++ Q ++ ws4 ++ M ++ str "~" ++ post)
              Hpre Hw1 Hw1ne HP HPne Hw2 Hw2ne HN HNne) as Hs.
split.
- unfold evalTemplate, replace_str. do 7 step_apart.
  hit Hs (eq_refl (Some (fileById e P N))). repeat step_apart. done.
- unfold advanceTemplate. do 5 step_apart.
  hit Hs (cb_next_digits "~files " P N HN HNne Hv).
  repeat step_apart. by norm_str.
Qed.

Lemma two_lines ws1 P ws2 N ws3 Q ws4 M :
  all is_space ws1 → ws1 ≠ [] → all is_nonspace P → P ≠ [] → plain P →
  all is_space ws2 → ws2 ≠ [] → all is_digit N → N ≠ [] →
  all is_space ws3 → plain Q → all is_space ws4 → all is_digit M →
  0 ≤ digits_value N < 2 ^ 53 →
  plain (getLine e P N) →
  evalTemplate e
    (pre ++ str "~lines" ++ ws1 ++ P ++ ws2 ++ N ++ str "~" ++ mid ++
     str "~lines" ++ ws3 ++ Q ++ ws4 ++ M ++ str "~" ++ post) =
    Some (pre ++ getLine e P N ++ mid ++
          str "~lines" ++ ws3 ++ Q ++ ws4 ++ M ++ str "~" ++ post) ∧
  advanceTemplate
    (pre ++ str "~lines" ++ ws1 ++ P ++ ws2 ++ N ++ str "~" ++ mid ++
     str "~lines" ++ ws3 ++ Q ++ ws4 ++ M ++ str "~" ++ post) =
    Some (pre ++ str "~lines " ++ P ++ str " " ++ decimal (digits_value N + 1) ++
          str "~" ++ mid ++
          str "~lines" ++ ws3 ++ Q ++ ws4 ++ M ++ str "~" ++ post).
Proof.
intros Hw1 Hw1ne HP HPne HPp Hw2 Hw2ne HN HNne Hw3 HQp Hw4 HM Hv HF.
pose proof (search_lines pre ws1 P ws2 N
              (mid ++ str "~lines" ++ ws3 ++ Q ++ ws4 ++ M ++ str "~" ++ post)
              Hpre Hw1 Hw1ne HP HPne Hw2 Hw2ne HN HNne) as Hs.
split.
- unfold evalTemplate, replace_str. do 8 step_apart.
  hit Hs (eq_refl (Some (getLine e P N))). repeat step_apart. done.
- unfold advanceTemplate. do 6 step_apart.
  hit Hs (cb_next_digits "~lines " P N HN HNne Hv).
  repeat step_apart. by norm_str.
Qed.

Lemma two_words ws1 P ws2 N ws3 Q ws4 M :
  all is_space ws1 → ws1 ≠ [] → all is_nonspace P → P ≠ [] → plain P →
  all is_space ws2 → ws2 ≠ [] → all is_digit N → N ≠ [] →
  all is_space ws3 → plain Q → all is_space ws4 → all is_digit M →
  0 ≤ digits_value N < 2 ^ 53 →
  evalTemplate e
    (pre ++ str "~words" ++ ws1 ++ P ++ ws2 ++ N ++ str "~" ++ mid ++
     str "~words" ++ ws3 ++ Q ++ ws4 ++ M ++ str "~" ++ post) =
    Some (pre ++ getWord e P N ++ mid ++
          str "~words" ++ ws3 ++ Q ++ ws4 ++ M ++ str "~" ++ post) ∧
  advanceTemplate
    (pre ++ str "~words" ++ ws1 ++ P ++ ws2 ++ N ++ str "~" ++ mid ++
     str "~words" ++ ws3 ++ Q ++ ws4 ++ M ++ str "~" ++ post) =
    Some (pre ++ str "~words " ++ P ++ str " " ++ decimal (digits_value N + 1) ++
          str "~" ++ mid ++
          str "~words" ++ ws3 ++ Q ++ ws4 ++ M ++ str "~" ++ post).
Proof.
intros Hw1 Hw1ne HP HPne HPp Hw2 Hw2ne HN HNne Hw3 HQp Hw4 HM Hv.
pose proof (search_words pre ws1 P ws2 N
              (mid ++ str "~words" ++ ws3 ++ Q ++ ws4 ++ M ++ str "~" ++ post)
              Hpre Hw1 Hw1ne HP HPne Hw2 Hw2ne HN HNne) as Hs.
split.
- unfold evalTemplate, replace_str. do 9 step_apart.
  hit Hs (eq_refl (Some (getWord e P N))). done.
- unfold advanceTemplate. do 7 step_apart.
  hit Hs (cb_next_digits "~words " P N HN HNne Hv).
  repeat step_apart. by norm_str.
Qed.

End TwoOfAKind.




(** X1.  Runs in a row of a counter.  In a text without other
    placeholders, [~inc$N~] holds [N + n] after [n] runs as long as that is
    at most [2^53], and stays at [2^53] from then on; [~dec$N~] holds
    [N - n] after [n] runs down to [-1], and stays at [-1] from then on. *)
Theorem counters_saturate pre post N (n : nat) :
    JsString.plain pre → JsString.plain post → 0 ≤ N ≤ 2 ^ 53 →
    let inc k := pre ++ JsString.str "~inc$" ++ JsNumber.numeral k ++
                 JsString.str "~" ++ post in
    let dec k := pre ++ JsString.str "~dec$" ++ JsNumber.numeral k ++
                 JsString.str "~" ++ post in
    Macro.later_runs n (inc N) = Some (inc (Z.min (N + Z.of_nat n) (2 ^ 53))) ∧
    Macro.later_runs n (dec N) = Some (dec (Z.max (N - Z.of_nat n) (-1))).
Proof.
intros Hpre Hpost HN inc dec. subst inc dec. cbv beta. split.
- rewrite (numeral_nonneg N), (numeral_nonneg (Z.min _ _)) by lia.
  destruct (decide (N + Z.of_nat n ≤ 2 ^ 53)) as [Hle|Hgt].
  + rewrite Z.min_l by done. apply inc_runs; auto; lia.
  + rewrite Z.min_r by lia.
    replace n with ((n - Z.to_nat (2 ^ 53 - N)) + Z.to_nat (2 ^ 53 - N))%nat by lia.
    rewrite (later_runs_add _ _ _
               (pre ++ JsString.str "~inc$" ++ JsNumber.decimal (2 ^ 53) ++
                JsString.str "~" ++ post)).
    * apply later_runs_fixed. by apply inc_top_fixed.
    * rewrite inc_runs by (auto; lia).
      by replace (N + Z.of_nat (Z.to_nat (2 ^ 53 - N))) with (2 ^ 53) by lia.
- by apply dec_runs.
Qed.

Lemma counters_saturate_witness :
    Macro.later_runs 3 (JsString.str "~inc$5~") = Some (JsString.str "~inc$8~") ∧
    Macro.later_runs 9 (JsString.str "a~dec$5~") = Some (JsString.str "a~dec$-1~").
Proof.
split.
- apply (counters_saturate [] [] 5 3); [constructor|constructor|lia].
- apply (counters_saturate (JsString.str "a") [] 5 9);
    [by repeat constructor|constructor|lia].
Defined.

(** X2.  Runs in a row of a sum and of a difference.  [~A + B~] has the
    left operand as its value, as it is written, and after [n] runs
    holds [A + n*B], written with single spaces, as long as that is at
    most [2^53]; [~A - B~] holds [A - n*B] after [n] runs, as long as the
    value before the last of them was not negative. *)
Theorem sums_and_differences_progress e pre post A ws1 ws2 B (n : nat) :
    JsString.plain pre → JsString.plain post →
    JsString.digits A → JsString.digits B →
    JsString.all JsString.is_space ws1 → JsString.all JsString.is_space ws2 →
    let a := JsNumber.digits_value A in
    let b := JsNumber.digits_value B in
    let written sign :=
      pre ++ JsString.str "~" ++ A ++ ws1 ++ JsString.str sign ++ ws2 ++ B ++
      JsString.str "~" ++ post in
    let stored sign k :=
      pre ++ JsString.str "~" ++ JsNumber.numeral k ++ JsString.str sign ++ B ++
      JsString.str "~" ++ post in
    Macro.evalTemplate e (written "+") = Some (pre ++ A ++ post) ∧
    Macro.evalTemplate e (written "-") = Some (pre ++ A ++ post) ∧
    (a + Z.of_nat (S n) * b ≤ 2 ^ 53 →
       Macro.later_runs (S n) (written "+") =
         Some (stored " + " (a + Z.of_nat (S n) * b))) ∧
    (a ≤ 2 ^ 53 → b ≤ 2 ^ 53 → Z.of_nat n * b ≤ a →
       Macro.later_runs (S n) (written "-") =
         Some (stored " - " (a - Z.of_nat (S n) * b))).
Proof.
intros Hpre Hpost [HA HAne] [HB HBne] Hw1 Hw2 a b written stored.
subst a b written stored. cbv beta.
pose proof (digits_value_nonneg _ HA). pose proof (digits_value_nonneg _ HB).
split; [by apply eval_plus|]. split; [by apply eval_minus|]. split.
- intros Hv. rewrite numeral_nonneg by nia. by apply sum_runs.
- intros Ha Hb Hv. by apply diff_runs.
Qed.

Lemma sums_and_differences_progress_witness :
    Macro.evalTemplate Macro.midnight (JsString.str "~10  +5~") =
      Some (JsString.str "10") ∧
    Macro.later_runs 3 (JsString.str "~10  +5~") = Some (JsString.str "~25 + 5~") ∧
    Macro.later_runs 2 (JsString.str "~10 - 5~") = Some (JsString.str "~0 - 5~").
Proof.
pose proof (sums_and_differences_progress Macro.midnight [] []
              (JsString.str "10") (JsString.str "  ") [] (JsString.str "5") 2
              ltac:(constructor) ltac:(constructor)
              ltac:(split; [by repeat constructor|done])
              ltac:(split; [by repeat constructor|done])
              ltac:(by repeat constructor) ltac:(constructor))
  as (H1 & _ & H2 & _).
pose proof (sums_and_differences_progress Macro.midnight [] []
              (JsString.str "10") (JsString.str " ") (JsString.str " ")
              (JsString.str "5") 1
              ltac:(constructor) ltac:(constructor)
              ltac:(split; [by repeat constructor|done])
              ltac:(split; [by repeat constructor|done])
              ltac:(by repeat constructor) ltac:(by repeat constructor))
  as (_ & _ & _ & H3).
split; [exact H1|]. split.
- apply H2. by vm_compute.
- apply H3; by vm_compute.
Defined.

(** X3.  A list of two or more tokens goes round.  After [j] runs
    [~{t0 t1 ... tk}~] is the list rotated [j] places to the left, after
    as many runs as it has tokens it is the list it was, and the value of
    the run that follows [j] runs is the token at [j] modulo the length. *)
Theorem list_round_robin e pre post toks (j : nat) :
    JsString.plain pre → JsString.plain post →
    (2 ≤ length toks)%nat → Forall JsString.token toks →
    let template l :=
      pre ++ Macro.ph_list (JsString.join (JsString.str " ") l) ++ post in
    Macro.later_runs j (template toks) = Some (template (rotate j toks)) ∧
    Macro.later_runs (length toks) (template toks) = Some (template toks) ∧
    Macro.evalTemplate e (template (rotate j toks)) =
      Some (pre ++ default [] (toks !! (j mod length toks)%nat) ++ post).
Proof.
intros Hpre Hpost Hk Htok template. subst template. cbv beta.
split; [by apply list_runs|]. split.
- rewrite list_runs_upto by (auto; lia). by rewrite drop_all, take_ge by lia.
- destruct (lookup_lt_is_Some_2 toks (j mod length toks)%nat) as [x Hx].
  { apply Nat.mod_upper_bound. lia. }
  rewrite Hx. cbn [default]. unfold rotate.
  by destruct (list_turns e pre post toks _ x Hpre Hpost Hk Htok Hx) as [-> _].
Qed.

Lemma list_round_robin_witness :
    Macro.later_runs 2 (JsString.str "~{a b c}~") = Some (JsString.str "~{c a b}~") ∧
    Macro.later_runs 3 (JsString.str "~{a b c}~") = Some (JsString.str "~{a b c}~") ∧
    Macro.evalTemplate Macro.midnight (JsString.str "~{c a b}~") =
      Some (JsString.str "c").
Proof.
apply (list_round_robin Macro.midnight [] []
         [JsString.str "a"; JsString.str "b"; JsString.str "c"] 2).
- constructor.
- constructor.
- cbn. lia.
- do 3 (apply Forall_cons; split;
          [split; [split; by repeat constructor
                  |by intros ?%list_elem_of_singleton]|]).
  by apply Forall_nil.
Defined.

(** X4.  The cursors into the upload directory.  For a path without
    white space and an index [N] below [2^53], in a text without other
    placeholders: [~files P N~] has the value [fileById(P, N)],
    [~lines P N~] that of [getLine(P, N)], [~words P N~] that of
    [getWord(P, N)], with [P] and [N] as they are written; each is stored
    with the index [N + 1] and with single spaces for the next run. *)
Theorem cursor_placeholders_advance e pre post ws1 P ws2 N :
    JsString.plain pre → JsString.plain post →
    JsString.all JsString.is_space ws1 → ws1 ≠ [] →
    JsString.all JsString.is_space ws2 → ws2 ≠ [] →
    JsString.all JsString.is_nonspace P → P ≠ [] → JsString.plain P →
    JsString.digits N → 0 ≤ JsNumber.digits_value N < 2 ^ 53 →
    let written tag :=
      pre ++ JsString.str tag ++ ws1 ++ P ++ ws2 ++ N ++ JsString.str "~" ++ post in
    let stored tag :=
      pre ++ JsString.str tag ++ JsString.str " " ++ P ++ JsString.str " " ++
      JsNumber.decimal (JsNumber.digits_value N + 1) ++ JsString.str "~" ++ post in
    (JsString.plain (Macro.fileById e P N) →
       Macro.evalTemplate e (written "~files") =
         Some (pre ++ Macro.fileById e P N ++ post)) ∧
    (JsString.plain (Macro.getLine e P N) →
       Macro.evalTemplate e (written "~lines") =
         Some (pre ++ Macro.getLine e P N ++ post)) ∧
    Macro.evalTemplate e (written "~words") =
      Some (pre ++ Macro.getWord e P N ++ post) ∧
    Macro.advanceTemplate (written "~files") = Some (stored "~files") ∧
    Macro.advanceTemplate (written "~lines") = Some (stored "~lines") ∧
    Macro.advanceTemplate (written "~words") = Some (stored "~words").
Proof.
intros Hpre Hpost Hw1 Hw1ne Hw2 Hw2ne HP HPne HPp [HN HNne] Hv written stored.
subst written stored. cbv beta.
destruct (files_run e pre post ws1 P ws2 N) as [Hf1 Hf2]; auto.
destruct (lines_run e pre post ws1 P ws2 N) as [Hl1 Hl2]; auto.
destruct (words_run e pre post ws1 P ws2 N) as [Hw Hw']; auto.
split; [exact Hf1|]. split; [exact Hl1|]. split; [exact Hw|].
rewrite Hf2, Hl2, Hw' by done. done.
Qed.

Lemma cursor_placeholders_advance_witness :
    Macro.evalTemplate Macro.midnight (JsString.str "x=~files docs  07~") =
      Some (JsString.str "x=") ∧
    Macro.advanceTemplate (JsString.str "x=~files docs  07~") =
      Some (JsString.str "x=~files docs 8~") ∧
    Macro.advanceTemplate (JsString.str "x=~lines docs  07~") =
      Some (JsString.str "x=~lines docs 8~").
Proof.
pose proof (cursor_placeholders_advance Macro.midnight
              (JsString.str "x=") [] (JsString.str " ") (JsString.str "docs")
              (JsString.str "  ") (JsString.str "07")
              ltac:(by repeat constructor) ltac:(constructor)
              ltac:(by repeat constructor) ltac:(done)
              ltac:(by repeat constructor) ltac:(done)
              ltac:(by repeat constructor) ltac:(done)
              ltac:(by repeat constructor)
              ltac:(split; [by repeat constructor|done])
              ltac:(by vm_compute))
  as (H1 & _ & _ & H2 & H3 & _).
split; [apply H1; constructor|]. split; [exact H2|exact H3].
Defined.

(** X5.  The clock placeholders.  In a text without other
    placeholders [~hour~] has the value [getHour()] and [~date~] that of
    [getDate()], and neither is changed for the next run; on a clock
    reading, [getHour()] is [HH_MM] and [getDate()] is [DD_MM_] and the
    year, the month counted from one, each of the four with two digits. *)
Theorem clock_placeholders_stay e pre post :
    JsString.plain pre → JsString.plain post →
    0 ≤ Macro.hours e < 24 → 0 ≤ Macro.minutes e < 60 →
    1 ≤ Macro.day e ≤ 31 → 0 ≤ Macro.month e < 12 → 0 ≤ Macro.year e →
    let two n := [JsNumber.digit_char (n / 10); JsNumber.digit_char (n mod 10)] in
    let hour := two (Macro.hours e) ++ JsString.str "_" ++ two (Macro.minutes e) in
    let date := two (Macro.day e) ++ JsString.str "_" ++ two (Macro.month e + 1) ++
                JsString.str "_" ++ JsNumber.decimal (Macro.year e) in
    Macro.evalTemplate e (pre ++ JsString.str "~hour~" ++ post) =
      Some (pre ++ hour ++ post) ∧
    Macro.evalTemplate e (pre ++ JsString.str "~date~" ++ post) =
      Some (pre ++ date ++ post) ∧
    Macro.advanceTemplate (pre ++ JsString.str "~hour~" ++ post) =
      Some (pre ++ JsString.str "~hour~" ++ post) ∧
    Macro.advanceTemplate (pre ++ JsString.str "~date~" ++ post) =
      Some (pre ++ JsString.str "~date~" ++ post).
Proof.
intros Hpre Hpost Hh Hm Hd Hmo _ two hour date. subst two hour date. cbv beta.
destruct (hour_run e pre post Hpre Hpost) as [He1 Ha1].
destruct (date_run e pre post Hpre Hpost) as [He2 Ha2].
rewrite He1, He2, Ha1, Ha2. unfold Macro.getHour, Macro.getDate.
by rewrite !two_digits by lia.
Qed.

Lemma clock_placeholders_stay_witness :
    Macro.evalTemplate Macro.midnight (JsString.str "log_~date~.txt") =
      Some (JsString.str "log_01_01_2025.txt") ∧
    Macro.evalTemplate Macro.midnight (JsString.str "at ~hour~") =
      Some (JsString.str "at 00_00") ∧
    Macro.advanceTemplate (JsString.str "at ~hour~") = Some (JsString.str "at ~hour~").
Proof.
pose proof (clock_placeholders_stay Macro.midnight (JsString.str "log_")
              (JsString.str ".txt") ltac:(by repeat constructor)
              ltac:(by repeat constructor) ltac:(by vm_compute)
              ltac:(by vm_compute) ltac:(by vm_compute) ltac:(by vm_compute)
              ltac:(by vm_compute))
  as (_ & H1 & _).
pose proof (clock_placeholders_stay Macro.midnight (JsString.str "at ") []
              ltac:(by repeat constructor) ltac:(constructor)
              ltac:(by vm_compute) ltac:(by vm_compute) ltac:(by vm_compute)
              ltac:(by vm_compute) ltac:(by vm_compute))
  as (H2 & _ & H3 & _).
split; [exact H1|]. split; [exact H2|exact H3].
Defined.

(** ** The cost of a call *)

Section RetryCost.
Import Retry Trace.

Lemma schedule_cost k : ∀ backoffsMs,
  calls (schedule k backoffsMs) = S (length (take k backoffsMs)) ∧
  sleeps (schedule k backoffsMs) = take k backoffsMs.
Proof.
induction k as [|k IH]; intros [|ms rest]; try done.
rewrite schedule_retry. destruct (IH rest) as [Hc Hs].
unfold calls, sleeps in *. cbn [take length omap list_omap].
rewrite Hc. split; [done|]. by rewrite <- Hs.
Qed.

Lemma total_take k (l : list Z) :
  Forall (λ ms, 0 ≤ ms) l → total (take k l) ≤ total l.
Proof.
unfold total. revert k. induction l as [|x l IH]; intros k Hl; [by destruct k|].
apply Forall_cons in Hl as [Hx Hl]. destruct k as [|k]; cbn.
- assert (0 ≤ foldr Z.add 0 l); [|lia]. clear IH.
  induction Hl as [|y l Hy _ IHl]; cbn; lia.
- specialize (IH k Hl). lia.
Qed.

End RetryCost.

(** X6.  What a call through [withRetries] can cost.  Whatever the
    outcomes, the delays slept are the first delays of the backoff list,
    in order, one request more is sent than delays are slept, the result
    is the outcome of the last request, and no delay follows it; with the
    list of the program that is at most four requests and 5500 ms of
    sleep. *)
Theorem withRetries_cost net backoffsMs :
    let r := Retry.withRetries net backoffsMs in
    Trace.sleeps r.1 `prefix_of` backoffsMs ∧
    Trace.calls r.1 = S (length (Trace.sleeps r.1)) ∧
    last r.1 = Some Retry.Call ∧
    r.2 = net (length (Trace.sleeps r.1)) ∧
    (backoffsMs = Retry.RETRY_BACKOFFS_MS →
       (Trace.calls r.1 ≤ 4)%nat ∧ Trace.total (Trace.sleeps r.1) ≤ 5500).
Proof.
cbn zeta. unfold Retry.withRetries.
destruct (retry_loop_stops net backoffsMs 0) as (k & Hk & _ & _ & ->).
cbn [fst snd]. destruct (schedule_cost k backoffsMs) as [-> ->].
split_and!.
- apply prefix_take.
- done.
- unfold Retry.schedule. by rewrite last_snoc.
- rewrite length_take. f_equal. lia.
- intros ->. split.
  + rewrite length_take. cbn in *. lia.
  + etrans; [apply total_take|done]. by repeat constructor.
Qed.

Lemma withRetries_cost_witness :
    let net := λ _ : nat,
      Retry.Resolved {| Retry.statusCode := 503; Retry.body := [] |} in
    let r := Retry.withRetries net Retry.RETRY_BACKOFFS_MS in
    (Trace.calls r.1 ≤ 4)%nat ∧ Trace.total (Trace.sleeps r.1) ≤ 5500.
Proof.
intros net r.
by apply (withRetries_cost net Retry.RETRY_BACKOFFS_MS).
Defined.

(** ** The order of the rows *)

Section RowOrder.
Import JsString.

Lemma leb_total a : ∀ b, leb a b = true ∨ leb b a = true.
Proof.
induction a as [|x a IH]; intros [|y b]; cbn [leb]; auto.
destruct (nat_of_ascii x <? nat_of_ascii y)%nat; [by left|].
destruct (nat_of_ascii y <? nat_of_ascii x)%nat; [by right|].
apply IH.
Qed.

Lemma leb_trans a : ∀ b c, leb a b = true → leb b c = true → leb a c = true.
Proof.
induction a as [|x a IH]; intros [|y b] [|z c]; cbn [leb]; try done.
destruct (Nat.ltb_spec (nat_of_ascii x) (nat_of_ascii y)),
         (Nat.ltb_spec (nat_of_ascii y) (nat_of_ascii x)),
         (Nat.ltb_spec (nat_of_ascii y) (nat_of_ascii z)),
         (Nat.ltb_spec (nat_of_ascii z) (nat_of_ascii y)),
         (Nat.ltb_spec (nat_of_ascii x) (nat_of_ascii z)),
         (Nat.ltb_spec (nat_of_ascii z) (nat_of_ascii x));
  try done; try lia.
apply IH.
Qed.

Local Instance key_le_total {A} : Total (@Store.key_le A).
Proof. intros x y. apply leb_total. Qed.

Local Instance key_le_trans {A} : Transitive (@Store.key_le A).
Proof. intros x y z. apply leb_trans. Qed.

Lemma order_by_name_sorted {A} (m : gmap (list ascii) A) :
  StronglySorted Store.key_le (Store.order_by_name m).
Proof. apply StronglySorted_merge_sort; apply _. Qed.

Lemma getAllTasks_row d u :
  u ∈ Store.getAllTasks d ↔
  Store.tasks d !! Task.name u =
    Some {| Store.type := Task.type u; Store.data := Task.data u;
            Store.postType := Task.postType u;
            Store.postData := Task.postData u |}.
Proof.
unfold Store.getAllTasks. split.
- intros Hu. apply list_elem_of_fmap in Hu as ([k r] & -> & Hin).
  apply order_by_name_elem in Hin. cbn. by destruct r.
- intros Hu. apply order_by_name_elem in Hu.
  apply list_elem_of_fmap. eexists. split; [|exact Hu]. by destruct u.
Qed.

Lemma getAllTasks_names d :
  Task.name <$> Store.getAllTasks d = (Store.order_by_name (Store.tasks d)).*1.
Proof.
unfold Store.getAllTasks.
induction (Store.order_by_name (Store.tasks d)) as [|[k r] l IH]; [done|].
cbn. by rewrite <- IH.
Qed.

End RowOrder.

(** X7.  The rows of the task table.  [getAllTasks()] returns the
    rows in the order of their names, one row for a name.  After
    [upsertTask(task)] it returns that task and the rows of the other
    names as they were; after [deleteTask(name)] the rows of the other
    names. *)
Theorem task_table_round_trip task n d :
    let by_name a b := JsString.leb (Task.name a) (Task.name b) = true in
    StronglySorted by_name (Store.getAllTasks d) ∧
    NoDup (Task.name <$> Store.getAllTasks d) ∧
    (∀ u, u ∈ Store.getAllTasks (Store.upsertTask task d) ↔
          u = task ∨ Task.name u ≠ Task.name task ∧ u ∈ Store.getAllTasks d) ∧
    (∀ u, u ∈ Store.getAllTasks (Store.deleteTask n d) ↔
          Task.name u ≠ n ∧ u ∈ Store.getAllTasks d).
Proof.
cbn zeta. split_and!.
- unfold Store.getAllTasks.
  apply (StronglySorted_fmap _ Store.key_le); [by intros [??] [??]|].
  apply order_by_name_sorted.
- rewrite getAllTasks_names. apply order_by_name_NoDup.
- intros u. rewrite !getAllTasks_row. cbn.
  destruct (decide (Task.name u = Task.name task)) as [Heq|Hne].
  + rewrite Heq, lookup_insert_eq. split.
    * intros [= ????]. left. destruct u, task. cbn in *. congruence.
    * intros [->|[? _]]; done.
  + rewrite lookup_insert_ne by done. split; [by right|].
    intros [->|[_ ?]]; done.
- intros u. rewrite !getAllTasks_row. cbn.
  destruct (decide (Task.name u = n)) as [<-|Hne].
  + rewrite lookup_delete_eq. split; [done|]. by intros [? _].
  + rewrite lookup_delete_ne by done. split; [done|]. by intros [_ ?].
Qed.

(** ** Trimmed strings *)

Section Trim.
Import JsString.

Lemma drop_while_split f s :
  ∃ w, s = w ++ drop_while f s ∧ all f w ∧
       match drop_while f s with [] => True | c :: _ => f c = false end.
Proof.
induction s as [|c s (w & Hs & Hw & Hhd)].
{ exists []. split; [done|]. split; [constructor|done]. }
cbn [drop_while]. destruct (f c) eqn:Hc.
- exists (c :: w). split; [cbn; by rewrite <- Hs|]. split; [by constructor|done].
- exists []. split; [done|]. split; [constructor|done].
Qed.

Lemma drop_while_stop f c s : f c = false → drop_while f (c :: s) = c :: s.
Proof. intros Hc. cbn. by rewrite Hc. Qed.

Lemma drop_while_fixed f s :
  match s with [] => True | c :: _ => f c = false end → drop_while f s = s.
Proof. destruct s as [|c s]; [done|]. apply drop_while_stop. Qed.

Lemma trim_idem s : trim (trim s) = trim s.
Proof.
unfold trim.
destruct (drop_while_split is_space s) as (w1 & _ & _ & Hu).
set (u := drop_while is_space s) in *.
destruct (drop_while_split is_space (reverse u)) as (w2 & Hv & Hw2 & _).
set (v := drop_while is_space (reverse u)) in *.
assert (Hrv : drop_while is_space (reverse v) = reverse v).
{ apply drop_while_fixed. apply (f_equal reverse) in Hv.
  rewrite reverse_involutive, reverse_app in Hv.
  destruct (reverse v) as [|c rv]; [done|]. by rewrite Hv in Hu. }
rewrite Hrv, reverse_involutive. f_equal.
apply drop_while_fixed. subst v.
by destruct (drop_while_split is_space (reverse u)) as (? & _ & _ & ?).
Qed.

Lemma trim_kept s : trim s ≠ [] → trim (trim s) ≠ [].
Proof. by rewrite trim_idem. Qed.

End Trim.

(** ** The caches against the store and the timers *)

Section Frames.
Import JsString JsNumber Macro Engine Views Agreement.

Lemma fold_left_keeps {A} (P : State → Prop) (f : State → A → State) l :
  (∀ s x, P s → P (f s x)) → ∀ s, P s → P (fold_left f l s).
Proof. intros Hf. induction l as [|x l IH]; intros s Hs; cbn; auto. Qed.

Lemma filter_ext_in {A} (P Q : A → Prop)
    `{∀ x, Decision (P x)} `{∀ x, Decision (Q x)} (l : list A) :
  (∀ x, x ∈ l → P x ↔ Q x) → filter P l = filter Q l.
Proof.
induction l as [|x l IH]; intros Hl; [done|].
rewrite !filter_cons.
rewrite IH by (intros y Hy; apply Hl; by right).
destruct (decide (P x)) as [HP|HP], (decide (Q x)) as [HQ|HQ]; try done.
- destruct HQ. apply Hl; [by left|done].
- destruct HP. apply Hl; [by left|done].
Qed.

Lemma filter_all_in {A} (P : A → Prop) `{∀ x, Decision (P x)} (l : list A) :
  (∀ x, x ∈ l → P x) → filter P l = l.
Proof.
induction l as [|x l IH]; intros Hl; [done|].
rewrite filter_cons_True by (apply Hl; by left).
by rewrite IH by (intros y Hy; apply Hl; by right).
Qed.

Lemma filter_none_in {A} (P : A → Prop) `{∀ x, Decision (P x)} (l : list A) :
  (∀ x, x ∈ l → ¬ P x) → filter P l = [].
Proof.
induction l as [|x l IH]; intros Hl; [done|].
rewrite filter_cons_False by (apply Hl; by left).
apply IH. intros y Hy. apply Hl. by right.
Qed.

Lemma filter_fmap_comm {A B} (f : A → B) (P : B → Prop)
    `{∀ x, Decision (P x)} (l : list A) :
  filter P (f <$> l) = f <$> filter (λ x, P (f x)) l.
Proof.
induction l as [|x l IH]; [done|].
rewrite fmap_cons, !filter_cons, IH. by destruct (decide (P (f x))).
Qed.

Lemma task_timers_app l k :
  task_timers (l ++ k) = task_timers l ++ task_timers k.
Proof. apply omap_app. Qed.

Lemma task_timers_filter (P : nat → Prop) `{∀ x, Decision (P x)} l :
  task_timers (filter (λ tm, P (tid tm)) l) =
  filter (λ x, P x.1.2) (task_timers l).
Proof.
induction l as [|tm l IH]; [done|].
rewrite filter_cons. unfold task_timers in *.
destruct (decide (P (tid tm))) as [HP|HP]; cbn [omap list_omap];
  destruct (callback tm); cbn [omap list_omap]; rewrite ?filter_cons, ?IH; try done.
- by rewrite decide_True.
- by rewrite decide_False.
Qed.

Lemma interval_entries_filter (P : nat → Prop) `{∀ x, Decision (P x)} l :
  interval_entries (filter (λ i, P (Interval.id i)) l) =
  filter (λ x, P x.1.2) (interval_entries l).
Proof. unfold interval_entries. by rewrite filter_fmap_comm. Qed.

Lemma task_timers_without (ids : list nat) l :
  task_timers (filter (λ tm, tid tm ∉ ids) l) =
  filter (λ x, x.1.2 ∉ ids) (task_timers l).
Proof. exact (task_timers_filter (λ n, n ∉ ids) l). Qed.

Lemma task_timers_kill (i : nat) l :
  task_timers (filter (λ tm, tid tm ≠ i) l) =
  filter (λ x, x.1.2 ≠ i) (task_timers l).
Proof. exact (task_timers_filter (λ n, n ≠ i) l). Qed.

Lemma interval_entries_without (ids : list nat) l :
  interval_entries (filter (λ i, Interval.id i ∉ ids) l) =
  filter (λ x, x.1.2 ∉ ids) (interval_entries l).
Proof. exact (interval_entries_filter (λ n, n ∉ ids) l). Qed.

Lemma interval_entries_kill (z : Z) l :
  interval_entries (filter (λ i, Z.of_nat (Interval.id i) ≠ z) l) =
  filter (λ x, Z.of_nat x.1.2 ≠ z) (interval_entries l).
Proof. exact (interval_entries_filter (λ n, Z.of_nat n ≠ z) l). Qed.

Lemma interval_entries_ids l : (λ x, x.1.2) <$> interval_entries l = Interval.id <$> l.
Proof. unfold interval_entries. by rewrite <- list_fmap_compose. Qed.

(** The timers after a loop of [clearInterval] calls. *)
Lemma clear_loop_timers {A} (g : State → A → State) (ident : A → nat) l :
  (∀ s x, timers (g s x) = timers s ∧ gIntervals (g s x) = gIntervals s) →
  ∀ s,
  let s' := fold_left (fun s x => clearInterval (ident x) (g s x)) l s in
  timers s' = filter (λ tm, tid tm ∉ ident <$> l) (timers s) ∧
  gIntervals s' = gIntervals s.
Proof.
intros Hg. induction l as [|x l IH]; intros s; cbn zeta.
- cbn. split; [|done]. symmetry. apply filter_all_in.
  intros tm _. apply not_elem_of_nil.
- cbn [fold_left]. destruct (IH (clearInterval (ident x) (g s x))) as [Ht Hi].
  rewrite Ht, Hi. cbn. destruct (Hg s x) as [-> ->]. split; [|done].
  rewrite list_filter_filter. apply list_filter_iff.
  intros tm. rewrite ?fmap_cons, not_elem_of_cons. tauto.
Qed.

End Frames.

Section TimersListed.
Import JsString JsNumber Macro Engine Views Agreement.

Lemma listed_frame s s' :
  timers s' = timers s → gIntervals s' = gIntervals s →
  timers_listed s → timers_listed s'.
Proof. unfold timers_listed. by intros -> ->. Qed.

Lemma listed_schedule s s' n ms :
  timers s' = timers s ++ [{| tid := next_tid s; callback := RunTask n; delay := ms |}] →
  gIntervals s' = gIntervals s ++
    [{| Interval.name := n; Interval.id := next_tid s; Interval.time := ms |}] →
  timers_listed s → timers_listed s'.
Proof.
unfold timers_listed, interval_entries. intros -> -> Hs.
by rewrite task_timers_app, fmap_app, Hs.
Qed.

Lemma load_task_listed replace s t :
  timers_listed s → timers_listed (load_task replace s t).
Proof.
apply listed_frame; unfold load_task;
  destruct (trim (Task.name t)); try done; cbn -[list_find];
  by destruct (list_find _ _) as [[??]|], replace.
Qed.

Lemma task_add_listed n ty d pt pd s :
  timers_listed s → timers_listed (task_add n ty d pt pd s).2.
Proof.
apply listed_frame; unfold task_add;
  destruct (trim n); try done; cbn -[list_find];
  by destruct (list_find _ _) as [[??]|].
Qed.

Lemma load_routine_listed s r :
  timers_listed s → timers_listed (load_routine s r).
Proof.
intros Hs. unfold load_routine.
destruct (task_exists r.1 (gTasks s)); [|done].
by apply (listed_schedule s _ r.1 r.2).
Qed.

Lemma rehydrate_listed s def :
  timers_listed s → timers_listed (rehydrate s def).
Proof.
intros Hs. unfold rehydrate.
destruct (task_exists def.1 (gTasks s)); cbn [negb].
- by apply (listed_schedule s _ def.1 def.2).
- by apply (listed_frame s).
Qed.

Lemma interval_add_listed n t s r :
  timers_listed s → interval_add n t s = Some r → timers_listed r.2.
Proof.
intros Hs. unfold interval_add.
destruct (parseInt t) as [intTime|]; [|done]. cbn.
destruct (trim n) as [|c nm]; [by intros [= <-]|].
destruct intTime as [ms|]; [|by intros [= <-]].
destruct (ms <=? 0); [by intros [= <-]|].
destruct (task_exists (c :: nm) (gTasks s)); [|by intros [= <-]].
cbn. intros [= <-]. by apply (listed_schedule s _ (c :: nm) ms).
Qed.

Lemma load_config_listed replace parsed s :
  timers_listed s → timers_listed (load_config replace parsed s).
Proof.
intros Hs. unfold load_config.
apply fold_left_keeps; [intros; by apply load_routine_listed|].
apply fold_left_keeps; [intros; by apply load_task_listed|done].
Qed.

Lemma doTask_listed e n s s' effs :
  timers_listed s → doTask e n s = Some (s', effs) → timers_listed s'.
Proof.
intros Hs H. apply doTask_store in H as (_ & _ & Hg & Htm & _).
by apply (listed_frame s).
Qed.

Lemma task_del_listed tName s :
  consistent s → timers_listed s → timers_listed (task_del tName s).
Proof.
intros [_ _ _ Hids _ _] Hs. unfold task_del.
set (s1 := with_gTasks _ (with_db _ s)).
destruct (clear_loop_timers
            (λ s inte, with_db (Store.deleteIntervalDef (Interval.name inte) (db s)) s)
            Interval.id
            (filter (λ inte, Interval.name inte = tName) (gIntervals s1))
            ltac:(done) s1) as [Htm Hi].
unfold timers_listed. cbn [timers gIntervals with_gIntervals].
rewrite Htm, Hi. subst s1. cbn [timers gIntervals with_gTasks with_db].
set (ids := Interval.id <$> filter _ (gIntervals s)).
rewrite task_timers_without, Hs, <- interval_entries_without. f_equal.
apply filter_ext_in. intros i Hin. subst ids. split.
- intros Hid Hname. apply Hid. apply list_elem_of_fmap. exists i.
  split; [done|]. by apply list_elem_of_filter.
- intros Hname Hid. apply list_elem_of_fmap in Hid as (j & Heq & Hj).
  apply list_elem_of_filter in Hj as [Hjname Hj].
  assert (i = j) as -> by (by apply (NoDup_fmap_eq Interval.id (gIntervals s))).
  done.
Qed.

Lemma interval_kill_listed iid s :
  timers_listed s → timers_listed (interval_kill iid s).
Proof.
intros Hs. destruct iid as [z|]; [|done]. unfold interval_kill.
set (s1 := match list_find _ (gIntervals s) with Some _ => _ | None => s end).
assert (Hs1 : timers s1 = timers s ∧ gIntervals s1 = gIntervals s).
{ subst s1. by destruct (list_find _ (gIntervals s)) as [[??]|]. }
destruct Hs1 as [Htm Hi]. unfold timers_listed.
cbn [timers gIntervals with_gIntervals].
destruct (0 <=? z) eqn:Hz; cbn [timers gIntervals clearInterval];
  rewrite ?Htm, Hi, interval_entries_kill, <- Hs.
- rewrite task_timers_kill.
  apply list_filter_iff. intros x. apply Z.leb_le in Hz. lia.
- symmetry. apply filter_all_in. intros x _. apply Z.leb_gt in Hz. lia.
Qed.

Lemma restart_listed s : timers_listed s → timers_listed (restart s).
Proof.
intros Hs. unfold restart, clearAllIntervals.
destruct (clear_loop_timers (λ s (_ : Interval.t), s) Interval.id
            (gIntervals s) ltac:(done) s) as [Htm _].
unfold timers_listed.
cbn [timers gIntervals with_gIntervals with_gTasks with_gTasksLog with_db].
rewrite Htm. set (ids := Interval.id <$> gIntervals s).
rewrite task_timers_without, Hs.
apply filter_none_in. intros x Hx Hid. apply Hid. subst ids.
rewrite <- interval_entries_ids.
exact (list_elem_of_fmap_2 (λ x : list ascii * nat * Z, x.1.2) _ _ Hx).
Qed.

Lemma startup_listed d : timers_listed (startup d).
Proof.
unfold startup. apply fold_left_keeps; [intros; by apply rehydrate_listed|done].
Qed.

Lemma step_listed e o s s' :
  consistent s → timers_listed s → step e o s = Some s' → timers_listed s'.
Proof.
intros Hc Hs. destruct o; cbn.
- intros [= <-]. by apply task_add_listed.
- destruct (doTask e name s) as [[s1 effs]|] eqn:Hrun; [|done].
  intros [= <-]. by eapply doTask_listed.
- intros [= <-]. by apply task_del_listed.
- intros [= <-]. by apply (listed_frame s).
- destruct (interval_add name time s) as [r|] eqn:Hadd; [|done].
  intros [= <-]. by eapply interval_add_listed.
- intros [= <-]. by apply interval_kill_listed.
- intros [= <-]. by apply load_config_listed.
- intros [= <-]. by apply restart_listed.
- intros [= <-]. by apply restart_listed.
- intros [= <-]. by apply load_config_listed.
- unfold tick. destruct (list_find _ (timers s)) as [[j t]|]; [|by intros [= <-]].
  destruct (callback t); [by intros [= <-]|].
  destruct (doTask e name s) as [[s1 effs]|] eqn:Hrun; [|done].
  intros [= <-]. by eapply doTask_listed.
- intros [= <-]. by apply (listed_frame s).
Qed.

Lemma reachable_listed s : reachable s → timers_listed s.
Proof.
induction 1 as [d|e o s s' Hr IH Hstep]; [apply startup_listed|].
eapply step_listed; eauto. by apply reachable_consistent.
Qed.

End TimersListed.

Section LogMirror.
Import JsString JsNumber Macro Engine Views Agreement.

Local Abbreviation same_logs s s' :=
  (gTasksLog s' = gTasksLog s ∧ Store.logs (db s') = Store.logs (db s)).

Lemma mirrored_frame s s' : same_logs s s' → log_mirrored s → log_mirrored s'.
Proof.
unfold log_mirrored, Store.getLastLogs. by intros [-> ->].
Qed.

Lemma last_window {A} (M : nat) (L : list A) e :
  (1 ≤ M)%nat →
  drop (length (drop (length L - M) L ++ [e]) - M) (drop (length L - M) L ++ [e]) =
  drop (length (L ++ [e]) - M) (L ++ [e]).
Proof.
intros HM. rewrite !length_app, length_drop. cbn [length].
destruct (decide (length L ≤ M)%nat) as [Hle|Hgt].
- replace (length L - M)%nat with 0%nat by lia. rewrite drop_0.
  by replace (length L - 0)%nat with (length L) by lia.
- rewrite !drop_app_le by (rewrite ?length_drop; lia).
  rewrite drop_drop. do 2 f_equal. lia.
Qed.

Lemma pushLog_mirrored entry s : log_mirrored s → log_mirrored (pushLog entry s).
Proof.
unfold log_mirrored. intros Hs.
rewrite pushLog_mirror, pushLog_db, Hs, !getLastLogs_last.
cbn [Store.addLog Store.logs]. rewrite fmap_app. cbn [fmap list_fmap].
rewrite <- (length_map Store.message (Store.logs (db s))).
rewrite (last_window MAX_LOG_ENTRIES) by (unfold MAX_LOG_ENTRIES; lia).
by rewrite !length_app, !length_map.
Qed.

Lemma doTask_mirrored e n s s' effs :
  log_mirrored s → doTask e n s = Some (s', effs) → log_mirrored s'.
Proof.
intros Hs. unfold doTask.
destruct (list_find _ (gTasks s)) as [[i a]|].
- destruct (evalTemplate e (Task.data a)) as [data|]; [|done].
  destruct (evalTemplate e (Task.postData a)) as [postData|]; [|done].
  destruct (advanceTemplate (Task.data a)) as [data'|]; [|done].
  destruct (advanceTemplate (Task.postData a)) as [postData'|]; [|done].
  cbn. intros [= <- _]. by apply (mirrored_frame s).
- intros [= <- _]. by apply pushLog_mirrored.
Qed.

Lemma load_task_logs replace s t : same_logs s (load_task replace s t).
Proof.
unfold load_task. destruct (trim (Task.name t)); [done|]. cbn -[list_find].
by destruct (list_find _ _) as [[??]|], replace.
Qed.

Lemma load_routine_logs s r : same_logs s (load_routine s r).
Proof. unfold load_routine. by destruct (task_exists r.1 (gTasks s)). Qed.

Lemma rehydrate_logs s def : same_logs s (rehydrate s def).
Proof. unfold rehydrate. by destruct (task_exists def.1 (gTasks s)). Qed.

Lemma fold_logs {A} (f : State → A → State) l :
  (∀ s x, same_logs s (f s x)) → ∀ s, same_logs s (fold_left f l s).
Proof.
intros Hf s. apply (fold_left_keeps (λ s', same_logs s s')); [|done].
intros s1 x [H1 H2]. destruct (Hf s1 x) as [H3 H4]. split; congruence.
Qed.

Lemma load_config_logs replace parsed s : same_logs s (load_config replace parsed s).
Proof.
unfold load_config.
destruct (fold_logs load_routine (routinesToAdd parsed) load_routine_logs
            (fold_left (load_task replace) (tasksToUpsert parsed) s)) as [H1 H2].
destruct (fold_logs (load_task replace) (tasksToUpsert parsed)
            (load_task_logs replace) s) as [H3 H4].
split; congruence.
Qed.

Lemma task_add_logs n ty d pt pd s : same_logs s (task_add n ty d pt pd s).2.
Proof.
unfold task_add. destruct (trim n); [done|]. cbn -[list_find].
by destruct (list_find _ _) as [[??]|].
Qed.

Lemma task_del_logs tName s : same_logs s (task_del tName s).
Proof.
unfold task_del. set (s1 := with_gTasks _ (with_db _ s)).
cbn [gTasksLog db with_gIntervals].
by destruct (fold_logs
          (fun s inte =>
             clearInterval (Interval.id inte)
               (with_db (Store.deleteIntervalDef (Interval.name inte) (db s)) s))
          (filter (λ inte, Interval.name inte = tName) (gIntervals s1))
          ltac:(done) s1) as [-> ->].
Qed.

Lemma interval_add_logs n t s r : interval_add n t s = Some r → same_logs s r.2.
Proof.
unfold interval_add. destruct (parseInt t) as [intTime|]; [|done]. cbn.
destruct (trim n) as [|c nm]; [by intros [= <-]|].
destruct intTime as [ms|]; [|by intros [= <-]].
destruct (ms <=? 0); [by intros [= <-]|].
destruct (task_exists (c :: nm) (gTasks s)); by intros [= <-].
Qed.

Lemma interval_kill_logs iid s : same_logs s (interval_kill iid s).
Proof.
destruct iid as [z|]; [|done]. unfold interval_kill.
destruct (list_find _ (gIntervals s)) as [[??]|]; by destruct (0 <=? z).
Qed.

Lemma startup_mirrored d : log_mirrored (startup d).
Proof.
unfold startup. set (s0 := with_gTasksLog _ _).
apply (mirrored_frame s0); [|done].
apply fold_logs, rehydrate_logs.
Qed.

Lemma step_mirrored e o s s' :
  log_mirrored s → step e o s = Some s' → log_mirrored s'.
Proof.
intros Hs. destruct o; cbn.
- intros [= <-]. eapply mirrored_frame; [apply task_add_logs|done].
- destruct (doTask e name s) as [[s1 effs]|] eqn:Hrun; [|done].
  intros [= <-]. by eapply doTask_mirrored.
- intros [= <-]. eapply mirrored_frame; [apply task_del_logs|done].
- by intros [= <-].
- destruct (interval_add name time s) as [r|] eqn:Hadd; [|done].
  intros [= <-]. eapply mirrored_frame; [by eapply interval_add_logs|done].
- intros [= <-]. eapply mirrored_frame; [apply interval_kill_logs|done].
- intros [= <-]. eapply mirrored_frame; [apply load_config_logs|done].
- by intros [= <-].
- by intros [= <-].
- intros [= <-]. eapply mirrored_frame; [apply load_config_logs|done].
- unfold tick. destruct (list_find _ (timers s)) as [[j t]|]; [|by intros [= <-]].
  destruct (callback t); [by intros [= <-]|].
  destruct (doTask e name s) as [[s1 effs]|] eqn:Hrun; [|done].
  intros [= <-]. by eapply doTask_mirrored.
- intros [= <-]. by apply pushLog_mirrored.
Qed.

Lemma reachable_mirrored s : reachable s → log_mirrored s.
Proof.
induction 1 as [d|e o s s' Hr IH Hstep]; [apply startup_mirrored|].
by eapply step_mirrored.
Qed.

End LogMirror.

Section NamesAgree.
Import JsString JsNumber Macro Engine Views Agreement.

Local Abbreviation same_tasks s s' :=
  (gTasks s' = gTasks s ∧ Store.tasks (db s') = Store.tasks (db s)).

Lemma names_frame s s' : same_tasks s s' → names_agree s → names_agree s'.
Proof. unfold names_agree. by intros [-> ->]. Qed.

Lemma fold_tasks {A} (f : State → A → State) l :
  (∀ s x, same_tasks s (f s x)) → ∀ s, same_tasks s (fold_left f l s).
Proof.
intros Hf s. apply (fold_left_keeps (λ s', same_tasks s s')); [|done].
intros s1 x [H1 H2]. destruct (Hf s1 x) as [H3 H4]. split; congruence.
Qed.

(** Storing a task under its trimmed, non-empty name. *)
Lemma names_put s task l' :
  names_agree s → trim (Task.name task) ≠ [] →
  (∀ m, has_task m l' ↔ m = Task.name task ∨ has_task m (gTasks s)) →
  names_agree
    {| db := Store.upsertTask task (db s); gTasks := l';
       gTasksLog := gTasksLog s; gIntervals := gIntervals s;
       timers := timers s; next_tid := next_tid s |}.
Proof.
intros Hs Hnm Hl n. cbn. rewrite Hl, lookup_insert_is_Some, (Hs n). split.
- intros [->|[??]]; [|by split; [destruct (decide (Task.name task = n)); auto|]].
  split; [by left|done].
- intros [[<-|[??]] ?]; [by left|by right].
Qed.

Lemma has_task_put l nm task :
  Task.name task = nm →
  ∀ m, has_task m
         (match list_find (λ ob, Task.name ob = nm) l with
          | Some (idx, _) => <[idx := task]> l
          | None => l ++ [task]
          end) ↔ m = nm ∨ has_task m l.
Proof.
intros Hnm m. destruct (list_find _ l) as [[idx old]|] eqn:Hfind.
- apply list_find_name in Hfind as [Hi Hn].
  rewrite (has_task_insert m l idx old task Hi ltac:(congruence)).
  split; [by right|]. intros [->|?]; [|done].
  exists old. split; [by eapply list_elem_of_lookup_2|done].
- rewrite has_task_app. unfold has_task at 2.
  setoid_rewrite list_elem_of_singleton. split.
  + intros [?|(t & -> & <-)]; [by right|by left].
  + intros [->|?]; [right; by exists task|by left].
Qed.

Lemma has_task_push l task :
  ∀ m, has_task m (l ++ [task]) ↔ m = Task.name task ∨ has_task m l.
Proof.
intros m. rewrite has_task_app. unfold has_task at 2.
setoid_rewrite list_elem_of_singleton. split.
- intros [?|(t & -> & <-)]; [by right|by left].
- intros [->|?]; [right; by exists task|by left].
Qed.

Lemma load_task_names replace s t :
  names_agree s → names_agree (load_task replace s t).
Proof.
intros Hs. unfold load_task.
destruct (trim (Task.name t)) as [|c nm] eqn:Hnm; [done|].
cbn -[list_find].
set (task := {| Task.name := c :: nm; Task.type := Task.type t;
                Task.data := Task.data t; Task.postType := Task.postType t;
                Task.postData := Task.postData t |}).
assert (Hkept : trim (Task.name task) ≠ []).
{ cbn [Task.name task]. rewrite <- Hnm, trim_idem. by rewrite Hnm. }
pose proof (has_task_put (gTasks s) (c :: nm) task eq_refl) as Hput.
destruct (list_find _ (gTasks s)) as [[idx old]|] eqn:Hfind; [destruct replace|].
- by apply (names_put s task).
- apply (names_put s task); [done|done|]. intros m.
  rewrite has_task_push. split; [done|]. intros [->|?]; [|by right].
  right. apply list_find_name in Hfind as [Hi Hn].
  exists old. split; [by eapply list_elem_of_lookup_2|done].
- by apply (names_put s task).
Qed.

Lemma task_add_names n ty d pt pd s :
  names_agree s → names_agree (task_add n ty d pt pd s).2.
Proof.
intros Hs. unfold task_add. destruct (trim n) as [|c nm] eqn:Hnm; [done|].
cbn -[list_find].
set (task := {| Task.name := c :: nm; Task.type := ty; Task.data := d;
                Task.postType := pt; Task.postData := pd |}).
assert (Hkept : trim (Task.name task) ≠ []).
{ cbn [Task.name task]. rewrite <- Hnm, trim_idem. by rewrite Hnm. }
pose proof (has_task_put (gTasks s) (c :: nm) task eq_refl) as Hput.
destruct (list_find _ (gTasks s)) as [[idx old]|] eqn:Hfind;
  by apply (names_put s task).
Qed.

Lemma load_routine_tasks s r : same_tasks s (load_routine s r).
Proof. unfold load_routine. by destruct (task_exists r.1 (gTasks s)). Qed.

Lemma rehydrate_tasks s def : same_tasks s (rehydrate s def).
Proof. unfold rehydrate. by destruct (task_exists def.1 (gTasks s)). Qed.

Lemma load_config_names replace parsed s :
  names_agree s → names_agree (load_config replace parsed s).
Proof.
intros Hs. unfold load_config.
eapply names_frame; [apply fold_tasks, load_routine_tasks|].
apply fold_left_keeps; [intros; by apply load_task_names|done].
Qed.

Lemma doTask_names e n s s' effs :
  names_agree s → doTask e n s = Some (s', effs) → names_agree s'.
Proof.
intros Hs H. apply doTask_store in H as (Ht & _ & _ & _ & _ & Hhas & _).
intros m. by rewrite Hhas, Ht.
Qed.

Lemma task_del_names tName s : names_agree s → names_agree (task_del tName s).
Proof.
intros Hs. destruct (task_del_spec tName s) as (Ht & _ & _ & Hdb & _).
intros n. rewrite Ht, Hdb. unfold has_task.
setoid_rewrite list_elem_of_filter.
destruct (decide (n = tName)) as [->|Hne].
- rewrite lookup_delete_eq. split.
  + by intros (t & [? _] & ?).
  + by intros [[? [=]] _].
- rewrite lookup_delete_ne by done. rewrite <- (Hs n). split.
  + intros (t & [_ ?] & ?). by exists t.
  + intros (t & ? & <-). by exists t.
Qed.

Lemma interval_add_tasks n t s r : interval_add n t s = Some r → same_tasks s r.2.
Proof.
unfold interval_add. destruct (parseInt t) as [intTime|]; [|done]. cbn.
destruct (trim n) as [|c nm]; [by intros [= <-]|].
destruct intTime as [ms|]; [|by intros [= <-]].
destruct (ms <=? 0); [by intros [= <-]|].
destruct (task_exists (c :: nm) (gTasks s)); by intros [= <-].
Qed.

Lemma interval_kill_tasks iid s : same_tasks s (interval_kill iid s).
Proof.
destruct iid as [z|]; [|done]. unfold interval_kill.
destruct (list_find _ (gIntervals s)) as [[??]|]; by destruct (0 <=? z).
Qed.

Lemma restart_names s : names_agree (restart s).
Proof.
intros n. cbn. rewrite lookup_empty. split.
- by intros (t & ?%elem_of_nil & _).
- by intros [[? [=]] _].
Qed.

Lemma startup_names d : names_agree (startup d).
Proof.
unfold startup. set (s0 := with_gTasksLog _ _).
apply (names_frame s0); [apply fold_tasks, rehydrate_tasks|].
intros n. subst s0. cbn. unfold has_task.
setoid_rewrite list_elem_of_filter. split.
- intros (t & [Hnm Ht] & <-). split; [by apply getAllTasks_elem|done].
- intros [Hn Hnm]. destruct (getAllTasks_has d n Hn) as (t & Ht & <-).
  by exists t.
Qed.

Lemma startup_store_tasks d : Store.tasks (db (startup d)) = Store.tasks d.
Proof.
unfold startup. set (s0 := with_gTasksLog _ _).
by destruct (fold_tasks rehydrate (Store.getAllIntervalDefs d)
               rehydrate_tasks s0) as [_ ->].
Qed.

Lemma step_names e o s s' :
  names_agree s → step e o s = Some s' → names_agree s'.
Proof.
intros Hs. destruct o; cbn.
- intros [= <-]. by apply task_add_names.
- destruct (doTask e name s) as [[s1 effs]|] eqn:Hrun; [|done].
  intros [= <-]. by eapply doTask_names.
- intros [= <-]. by apply task_del_names.
- intros [= <-]. by apply (names_frame s).
- destruct (interval_add name time s) as [r|] eqn:Hadd; [|done].
  intros [= <-]. eapply names_frame; [by eapply interval_add_tasks|done].
- intros [= <-]. eapply names_frame; [apply interval_kill_tasks|done].
- intros [= <-]. by apply load_config_names.
- intros [= <-]. apply restart_names.
- intros [= <-]. apply restart_names.
- intros [= <-]. by apply load_config_names.
- unfold tick. destruct (list_find _ (timers s)) as [[j t]|]; [|by intros [= <-]].
  destruct (callback t); [by intros [= <-]|].
  destruct (doTask e name s) as [[s1 effs]|] eqn:Hrun; [|done].
  intros [= <-]. by eapply doTask_names.
- intros [= <-]. by apply (names_frame s).
Qed.

Lemma reachable_names s : reachable s → names_agree s.
Proof.
induction 1 as [d|e o s s' Hr IH Hstep]; [apply startup_names|].
by eapply step_names.
Qed.

End NamesAgree.

(** ** Loading a configuration *)

Section Loading.
Import JsString JsNumber Macro Engine Views Agreement.

Local Abbreviation name_time :=
  (λ i : Interval.t, (Interval.name i, Interval.time i)).

Lemma load_routine_spec s r :
  gTasks (load_routine s r) = gTasks s ∧
  name_time <$> gIntervals (load_routine s r) =
    (name_time <$> gIntervals s) ++
    filter (λ r, task_exists r.1 (gTasks s) = true) [r].
Proof.
unfold load_routine. rewrite filter_cons, filter_nil.
destruct (task_exists r.1 (gTasks s)); cbn [negb].
- rewrite decide_True by done. cbn. rewrite fmap_app. by destruct r.
- rewrite decide_False by done. by rewrite app_nil_r.
Qed.

Lemma load_routines_spec rs : ∀ s,
  gTasks (fold_left load_routine rs s) = gTasks s ∧
  name_time <$> gIntervals (fold_left load_routine rs s) =
    (name_time <$> gIntervals s) ++
    filter (λ r, task_exists r.1 (gTasks s) = true) rs.
Proof.
induction rs as [|r rs IH]; intros s.
- by rewrite filter_nil, app_nil_r.
- cbn [fold_left]. destruct (IH (load_routine s r)) as [Ht Hi].
  destruct (load_routine_spec s r) as [Ht1 Hi1].
  rewrite Ht, Hi, Ht1, Hi1, <- app_assoc. split; [done|]. f_equal.
  by rewrite (filter_app _ [r] rs).
Qed.

Lemma load_tasks_intervals replace ts : ∀ s,
  gIntervals (fold_left (load_task replace) ts s) = gIntervals s.
Proof.
induction ts as [|t ts IH]; intros s; [done|].
cbn [fold_left]. rewrite IH. unfold load_task.
destruct (trim (Task.name t)); [done|]. cbn -[list_find].
by destruct (list_find _ _) as [[??]|], replace.
Qed.

Lemma load_tasks_timers replace ts : ∀ s,
  timers (fold_left (load_task replace) ts s) = timers s.
Proof.
induction ts as [|t ts IH]; intros s; [done|].
cbn [fold_left]. rewrite IH. unfold load_task.
destruct (trim (Task.name t)); [done|]. cbn -[list_find].
by destruct (list_find _ _) as [[??]|], replace.
Qed.

(** The routines of a file, with their timers. *)
Lemma load_routines_full rs : ∀ s,
  ∃ added,
    gTasks (fold_left load_routine rs s) = gTasks s ∧
    gIntervals (fold_left load_routine rs s) = gIntervals s ++ added ∧
    task_timers (timers (fold_left load_routine rs s)) =
      task_timers (timers s) ++ interval_entries added ∧
    name_time <$> added = filter (λ r, task_exists r.1 (gTasks s) = true) rs.
Proof.
induction rs as [|r rs IH]; intros s.
- exists []. by rewrite !app_nil_r.
- cbn [fold_left]. destruct (IH (load_routine s r)) as (added & Ht & Hi & Htm & Ha).
  rewrite Ht, Hi, Htm, filter_cons. unfold load_routine in *.
  destruct (task_exists r.1 (gTasks s)) eqn:Hex; cbn [negb] in *.
  + exists ({| Interval.name := r.1; Interval.id := next_tid s;
               Interval.time := r.2 |} :: added).
    cbn in *. rewrite task_timers_app, <- !app_assoc. split_and!; try done.
    rewrite decide_True by done. rewrite Ha. by destruct r.
  + exists added. rewrite decide_False by done. done.
Qed.

(** The tasks of a reload are pushed one after the other. *)
Lemma reload_tasks_spec ts : ∀ s,
  Forall (λ t, trim (Task.name t) = Task.name t ∧ Task.name t ≠ []) ts →
  gTasks (fold_left (load_task false) ts s) = gTasks s ++ ts.
Proof.
induction ts as [|t ts IH]; intros s Hts; [by rewrite app_nil_r|].
apply Forall_cons in Hts as [[Htrim Hne] Hts].
cbn [fold_left]. rewrite IH by done.
rewrite (cons_middle t (gTasks s) ts), app_assoc. f_equal.
unfold load_task. rewrite Htrim.
destruct (Task.name t) as [|c nm] eqn:Hnm; [done|]. cbn -[list_find].
rewrite <- Hnm.
assert ({| Task.name := Task.name t; Task.type := Task.type t;
           Task.data := Task.data t; Task.postType := Task.postType t;
           Task.postData := Task.postData t |} = t) as -> by (by destruct t).
by destruct (list_find _ _) as [[??]|].
Qed.

Lemma tasksToUpsert_export s : tasksToUpsert (cfg_export s) = gTasks s.
Proof.
unfold tasksToUpsert, cfg_export. rewrite omap_app.
assert (H1 : ∀ l : list Task.t,
  omap (λ i, match i with CfgTask t => Some t | _ => None end) (CfgTask <$> l) = l).
{ induction l as [|t l IH]; [done|]. cbn. by rewrite IH. }
assert (H2 : ∀ l : list Interval.t,
  omap (λ i, match i with CfgTask t => Some t | _ => None end)
       ((λ e, CfgRoutine (Interval.name e) (Interval.time e)) <$> l) = []).
{ induction l as [|t l IH]; [done|]. cbn. by rewrite IH. }
by rewrite H1, H2, app_nil_r.
Qed.

Lemma routinesToAdd_export s :
  routinesToAdd (cfg_export s) = name_time <$> gIntervals s.
Proof.
unfold routinesToAdd, cfg_export. rewrite omap_app.
assert (H1 : ∀ l : list Task.t,
  omap (λ i, match i with CfgRoutine n t => Some (n, t) | _ => None end)
       (CfgTask <$> l) = []).
{ induction l as [|t l IH]; [done|]. cbn. by rewrite IH. }
assert (H2 : ∀ l : list Interval.t,
  omap (λ i, match i with CfgRoutine n t => Some (n, t) | _ => None end)
       ((λ e, CfgRoutine (Interval.name e) (Interval.time e)) <$> l) =
  name_time <$> l).
{ induction l as [|t l IH]; [done|]. cbn. by rewrite IH. }
by rewrite H1, H2.
Qed.

End Loading.

(** ** Reading the log *)

Section LogRead.
Import JsString JsNumber.

Lemma decimal_not_n z : decimal z ≠ str "n".
Proof.
intros Heq. pose proof (decimal_all z) as Hd. rewrite Heq in Hd.
by apply Forall_inv in Hd.
Qed.

Lemma parseInt_negative n :
  0 < n ≤ 2 ^ 53 → parseInt ("-"%char :: decimal n) = Some (JNum (- n)).
Proof.
intros Hn. unfold parseInt. cbn [drop_while is_space].
rewrite (take_while_all _ _ (decimal_all n)).
destruct (decimal n) as [|c ds] eqn:Hd; [by apply decimal_nonempty in Hd|].
rewrite <- Hd, digits_value_decimal by lia.
assert ((10 ^ 20 <=? n) = false) as -> by (apply Z.leb_gt; lia).
by rewrite round_double_safe by lia.
Qed.

End LogRead.

(** X8.  The log cache mirrors the store.  Whatever a server has
    done since its start, [gTasksLog] is what [getLastLogs(1000)] returns,
    so that the [catch] branch of [/api/task/log/:logid] would give the
    answer of its [try] branch, and the cache holds at most 1000 entries. *)
Theorem log_cache_mirrors_store s :
    Engine.reachable s →
    Engine.gTasksLog s = Store.getLastLogs Engine.MAX_LOG_ENTRIES (Engine.db s) ∧
    (∀ idp, Views.log_get_fallback idp s = Views.log_get idp s) ∧
    (length (Engine.gTasksLog s) ≤ 1000)%nat.
Proof.
intros Hs. apply reachable_mirrored in Hs. unfold Agreement.log_mirrored in Hs.
split; [exact Hs|]. split.
- intros idp. unfold Views.log_get_fallback, Views.log_get. by rewrite Hs.
- rewrite Hs, getLastLogs_last, length_drop, length_map.
  unfold Engine.MAX_LOG_ENTRIES. lia.
Qed.

Lemma log_cache_mirrors_store_witness :
    let s := Engine.pushLog (JsString.str "ok") (Engine.startup Store.empty_db) in
    Engine.gTasksLog s = Store.getLastLogs Engine.MAX_LOG_ENTRIES (Engine.db s) ∧
    (∀ idp, Views.log_get_fallback idp s = Views.log_get idp s) ∧
    (length (Engine.gTasksLog s) ≤ 1000)%nat.
Proof.
intros s. apply log_cache_mirrors_store.
eapply (Engine.reach_step Macro.midnight (Engine.OpAnswer (JsString.str "ok")));
  [apply Engine.reach_startup|reflexivity].
Defined.

(** ** Runs of a cached task *)

Section Refusals.
Import JsString JsNumber Macro Engine.

Lemma list_find_insert_same {A} (P : A → Prop) `{∀ x, Decision (P x)}
    (l : list A) i x y :
  list_find P l = Some (i, x) → P y → list_find P (<[i := y]> l) = Some (i, y).
Proof.
intros Hfind Hy. apply list_find_Some in Hfind as (Hi & _ & Hbefore).
apply list_find_Some. split_and!; [|done|].
- apply list_lookup_insert_eq. by eapply lookup_lt_Some.
- intros j z Hj Hlt. rewrite list_lookup_insert_ne in Hj by lia. eauto.
Qed.

(** One run, as a step on the cached task: [s1] is the state with the
  advanced templates, and the request is sent or refused. *)
Lemma doTask_outcome refused e tName s s' effs i a :
  list_find (λ ob, Task.name ob = tName) (gTasks s) = Some (i, a) →
  Runtime.doTask refused e tName s = Some (s', effs) →
  ∃ a' data postData,
    advanceTemplate (Task.data a) = Some (Task.data a') ∧
    advanceTemplate (Task.postData a) = Some (Task.postData a') ∧
    evalTemplate e (Task.data a) = Some data ∧
    evalTemplate e (Task.postData a) = Some postData ∧
    Task.name a' = Task.name a ∧ Task.type a' = Task.type a ∧
    Task.postType a' = Task.postType a ∧
    match refused (build_request a data postData) with
    | None =>
        s' = with_gTasks (<[i := a']> (gTasks s)) s ∧
        effs = [Assign tName (Task.data a') (Task.postData a');
                Dispatch (build_request a data postData)]
    | Some message =>
        s' = pushLog (str "doTask error: " ++ message)
               (with_gTasks (<[i := a']> (gTasks s)) s) ∧
        effs = [Assign tName (Task.data a') (Task.postData a');
                Logged (str "doTask error: " ++ message)]
    end.
Proof.
intros Hfind. unfold Runtime.doTask. rewrite Hfind.
destruct (evalTemplate e (Task.data a)) as [data|]; [|done].
destruct (evalTemplate e (Task.postData a)) as [postData|]; [|done].
destruct (advanceTemplate (Task.data a)) as [data'|]; [|done].
destruct (advanceTemplate (Task.postData a)) as [postData'|]; [|done].
cbn [mbind option_bind]. cbv zeta. intros Hrun.
exists {| Task.name := Task.name a; Task.type := Task.type a;
          Task.data := data'; Task.postType := Task.postType a;
          Task.postData := postData' |}, data, postData.
split_and!; try done.
destruct (refused (build_request a data postData)) as [message|];
  by injection Hrun as <- <-.
Qed.

Lemma doTask_accepted refused e tName s :
  (∀ r, refused r = None) → Runtime.doTask refused e tName s = doTask e tName s.
Proof.
intros Hacc. unfold Runtime.doTask, doTask.
destruct (list_find _ _) as [[i a]|]; [|done].
destruct (evalTemplate e (Task.data a)) as [data|]; [|done].
destruct (evalTemplate e (Task.postData a)) as [postData|]; [|done].
destruct (advanceTemplate (Task.data a)) as [data'|]; [|done].
destruct (advanceTemplate (Task.postData a)) as [postData'|]; [|done].
cbn [mbind option_bind]. cbv zeta. by rewrite Hacc.
Qed.

(** A run whose request is refused is a run followed by a log entry. *)
Lemma doTask_via refused e tName s s' effs :
  Runtime.doTask refused e tName s = Some (s', effs) →
  ∃ s1 effs1, doTask e tName s = Some (s1, effs1) ∧
              (s' = s1 ∨ ∃ entry, s' = pushLog entry s1).
Proof.
unfold Runtime.doTask, doTask.
destruct (list_find _ _) as [[i a]|]; [|intros [= <- <-]; eauto].
destruct (evalTemplate e (Task.data a)) as [data|]; [|done].
destruct (evalTemplate e (Task.postData a)) as [postData|]; [|done].
destruct (advanceTemplate (Task.data a)) as [data'|]; [|done].
destruct (advanceTemplate (Task.postData a)) as [postData'|]; [|done].
cbn [mbind option_bind]. cbv zeta.
destruct (refused _) as [message|]; intros [= <- <-]; eauto 6.
Qed.

Lemma doTask_returns refused e tName s i a :
  list_find (λ ob, Task.name ob = tName) (gTasks s) = Some (i, a) →
  is_Some (evalTemplate e (Task.data a)) →
  is_Some (evalTemplate e (Task.postData a)) →
  is_Some (advanceTemplate (Task.data a)) →
  is_Some (advanceTemplate (Task.postData a)) →
  is_Some (Runtime.doTask refused e tName s).
Proof.
intros Hfind [? H1] [? H2] [? H3] [? H4]. unfold Runtime.doTask.
rewrite Hfind, H1, H2, H3, H4. cbn [mbind option_bind]. cbv zeta.
destruct (refused _); by eexists.
Qed.

Lemma run_reachable refused e tName s s' effs :
  reachable s → Runtime.doTask refused e tName s = Some (s', effs) → reachable s'.
Proof.
intros Hs Hrun. destruct (doTask_via _ _ _ _ _ _ Hrun) as (s1 & effs1 & Hdo & Hs').
assert (H1 : reachable s1).
{ apply (reach_step e (OpTaskRun tName) s); [done|]. cbn. by rewrite Hdo. }
destruct Hs' as [->|[entry ->]]; [done|].
by apply (reach_step e (OpAnswer entry) s1).
Qed.

Lemma tick_reachable refused e i s s' effs :
  reachable s → Runtime.tick refused e i s = Some (s', effs) → reachable s'.
Proof.
intros Hs. unfold Runtime.tick.
destruct (list_find _ _) as [[k t]|]; [|by intros [= <- _]].
destruct (callback t) as [|name]; [by intros [= <- _]|].
by apply run_reachable.
Qed.

(** The routes, the ticks and the timeouts keep the server among the
  states that the routes alone reach, a log entry apart. *)
Lemma step_core refused e o v v' :
  reachable (Runtime.core v) → Runtime.step refused e o v = Some v' →
  reachable (Runtime.core v').
Proof.
intros Hv. destruct o as [o|name time|k]; cbn [Runtime.step].
- destruct o; cbn [mbind option_bind fmap option_fmap option_map];
    try (match goal with
         | |- context [Engine.step ?e ?o ?s] =>
             destruct (Engine.step e o s) as [s1|] eqn:Hstep; [|done];
             intros [= <-]; cbn; by apply (reach_step e o (Runtime.core v))
         end).
  + destruct (Runtime.doTask _ _ _ _) as [[s1 effs]|] eqn:Hrun; [|done].
    intros [= <-]. cbn. by eapply run_reachable.
  + destruct (Runtime.tick _ _ _ _) as [[s1 effs]|] eqn:Hrun; [|done].
    intros [= <-]. cbn. by eapply tick_reachable.
- unfold Runtime.time_run. destruct (parseInt time); [|done]. by intros [= <-].
- unfold Runtime.fire. destruct (Runtime.timeouts v !! k) as [[name t]|];
    [|by intros [= <-]].
  destruct (Runtime.doTask _ _ _ _) as [[s1 effs]|] eqn:Hrun; [|done].
  intros [= <-]. cbn. by eapply run_reachable.
Qed.

Lemma core_reachable v : Runtime.reachable v → reachable (Runtime.core v).
Proof.
induction 1 as [d|refused e o v v' _ IH Hstep]; [apply reach_startup|].
by eapply step_core.
Qed.

Lemma run_times_S refused e tName n s :
  Runtime.run_times refused e tName (S n) s =
  Runtime.run_times refused e tName n s ≫=
    λ s, fst <$> Runtime.doTask refused e tName s.
Proof. reflexivity. Qed.

End Refusals.

Section Timeouts.
Import JsString JsNumber Macro Engine Views Agreement.

(** The timer behind an entry of [gIntervals]. *)
Lemma listed_timer s i :
  timers_listed s → i ∈ gIntervals s →
  ∃ tm, tm ∈ timers s ∧ tid tm = Interval.id i ∧
        callback tm = RunTask (Interval.name i) ∧ delay tm = Interval.time i.
Proof.
unfold timers_listed. intros Hl Hi.
assert (Hin : (Interval.name i, Interval.id i, Interval.time i) ∈
              task_timers (timers s)).
{ rewrite Hl. unfold interval_entries.
  exact (list_elem_of_fmap_2
           (λ i, (Interval.name i, Interval.id i, Interval.time i)) _ _ Hi). }
unfold task_timers in Hin. apply list_elem_of_omap in Hin as (tm & Htm & Heq).
exists tm. destruct (callback tm) as [|n]; [done|].
injection Heq as -> -> ->. by split_and!.
Qed.

Lemma not_cached name l :
  ¬ has_task name l → list_find (λ ob, Task.name ob = name) l = None.
Proof.
intros Hno. apply list_find_None, Forall_forall. intros t Ht Hn.
apply Hno. by exists t.
Qed.

End Timeouts.

(** X9.  The timers of the routines and the timeouts.  Whatever a server
    has done since its start, the timers of [setInterval] that run a task
    are the entries of [gIntervals], one for one and in order, with the
    same handle and the delay handed over; such a timer runs at that delay
    when it lies between 1 and [2^31 - 1] milliseconds, and at one
    millisecond otherwise.  [/api/restart] leaves none of these timers,
    and [/api/task/del] stops those of the deleted task and no other.
    Neither clears a timeout of [/api/task/time/run]: it stays pending,
    and when it fires for a task that is no longer in the cache it sends
    nothing and logs that the task was not found. *)
Theorem timers_match_intervals v :
    Runtime.reachable v →
    let s := Runtime.core v in
    Views.task_timers (Engine.timers s) =
      Views.interval_entries (Engine.gIntervals s) ∧
    (∀ i, i ∈ Engine.gIntervals s →
       ∃ tm, tm ∈ Engine.timers s ∧ Engine.tid tm = Interval.id i ∧
             Engine.callback tm = Engine.RunTask (Interval.name i) ∧
             Engine.delay tm = Interval.time i ∧
             Engine.period tm =
               if bool_decide (1 ≤ Interval.time i ≤ 2 ^ 31 - 1)
               then Interval.time i else 1) ∧
    (∀ refused e,
       ∃ v', Runtime.step refused e (Runtime.OpRoute Engine.OpRestart) v = Some v' ∧
             Views.task_timers (Engine.timers (Runtime.core v')) = [] ∧
             Runtime.timeouts v' = Runtime.timeouts v) ∧
    (∀ refused e tName,
       ∃ v', Runtime.step refused e (Runtime.OpRoute (Engine.OpTaskDel tName)) v =
               Some v' ∧
             Views.task_timers (Engine.timers (Runtime.core v')) =
               filter (λ x, x.1.1 ≠ tName) (Views.task_timers (Engine.timers s)) ∧
             Runtime.timeouts v' = Runtime.timeouts v) ∧
    (∀ refused e k name t,
       Runtime.timeouts v !! k = Some (name, t) →
       ¬ Engine.has_task name (Engine.gTasks s) →
       let entry := JsString.str "Task '" ++ name ++ JsString.str "' not found" in
       Runtime.fire refused e k v =
         Some ({| Runtime.core := Engine.pushLog entry s;
                  Runtime.timeouts := delete k (Runtime.timeouts v) |},
               [Engine.Logged entry])).
Proof.
intros Hv s. pose proof (core_reachable v Hv) as Hs. fold s in Hs.
pose proof (reachable_consistent s Hs) as Hc.
pose proof (reachable_listed s Hs) as Hl. split_and!.
- exact Hl.
- intros i Hi. destruct (listed_timer s i Hl Hi) as (tm & Htm & Hid & Hcb & Hd).
  exists tm. split_and!; try done. unfold Engine.period, Engine.TIMEOUT_MAX.
  by rewrite Hd.
- intros refused e.
  exists {| Runtime.core := Engine.restart s;
            Runtime.timeouts := Runtime.timeouts v |}.
  split; [reflexivity|]. cbn [Runtime.core Runtime.timeouts].
  split; [|done]. by rewrite (restart_listed s Hl).
- intros refused e tName.
  exists {| Runtime.core := Engine.task_del tName s;
            Runtime.timeouts := Runtime.timeouts v |}.
  split; [reflexivity|]. cbn [Runtime.core Runtime.timeouts].
  split; [|done]. rewrite (task_del_listed tName s Hc Hl), Hl.
  destruct (task_del_spec tName s) as (_ & -> & _).
  unfold Views.interval_entries. by rewrite filter_fmap_comm.
- intros refused e k name t Hk Hno entry. unfold Runtime.fire. rewrite Hk.
  pose proof (not_cached name _ Hno) as Hnf. subst entry s.
  unfold Runtime.doTask. by rewrite Hnf.
Qed.

Lemma timers_match_intervals_witness :
    let s0 := (Engine.task_add (JsString.str "t") (JsString.str "http")
                 (JsString.str "x") [] [] (Engine.startup Store.empty_db)).2 in
    match Engine.interval_add (JsString.str "t") (JsString.str "60000") s0 with
    | Some (_, s) =>
        let v := {| Runtime.core := s;
                    Runtime.timeouts := [(JsString.str "t", JsNumber.JNum 5000)] |} in
        Views.task_timers (Engine.timers s) =
          Views.interval_entries (Engine.gIntervals s) ∧
        ∃ v', Runtime.step (λ _, None) Macro.midnight
                (Runtime.OpRoute Engine.OpRestart) v = Some v' ∧
              Views.task_timers (Engine.timers (Runtime.core v')) = [] ∧
              Runtime.timeouts v' = [(JsString.str "t", JsNumber.JNum 5000)]
    | None => False
    end.
Proof.
intros s0.
destruct (Engine.interval_add _ _ _) as [[status s]|] eqn:Hadd;
  [|vm_compute in Hadd; discriminate].
intros v.
assert (Hreach : Runtime.reachable v).
{ apply (Runtime.reach_step (λ _, None) Macro.midnight
           (Runtime.OpTimeRun (JsString.str "t") (JsString.str "5000"))
           {| Runtime.core := s; Runtime.timeouts := [] |}); [|reflexivity].
  apply (Runtime.reach_step (λ _, None) Macro.midnight
           (Runtime.OpRoute
              (Engine.OpIntervalAdd (JsString.str "t") (JsString.str "60000")))
           {| Runtime.core := s0; Runtime.timeouts := [] |});
    [|unfold Runtime.step, Engine.step; cbn [Runtime.core];
      by rewrite Hadd].
  apply (Runtime.reach_step (λ _, None) Macro.midnight
           (Runtime.OpRoute
              (Engine.OpTaskAdd (JsString.str "t") (JsString.str "http")
                 (JsString.str "x") [] []))
           (Runtime.startup Store.empty_db));
    [apply Runtime.reach_startup|reflexivity]. }
destruct (timers_match_intervals v Hreach) as (H1 & _ & H2 & _).
split; [exact H1|]. exact (H2 (λ _, None) Macro.midnight).
Defined.

(** X10.  The task cache and the task table hold the same names.
    Whatever a server has done since its start, a name has a task in
    [gTasks] exactly when it has a row in the table [tasks] and is not
    blank; so a new start over the store finds the names that the cache
    held. *)
Theorem task_names_agree s :
    Engine.reachable s →
    (∀ n, Engine.has_task n (Engine.gTasks s) ↔
          is_Some (Store.tasks (Engine.db s) !! n) ∧ JsString.trim n ≠ []) ∧
    (∀ n, Engine.has_task n (Engine.gTasks (Engine.startup (Engine.db s))) ↔
          Engine.has_task n (Engine.gTasks s)).
Proof.
intros Hs. pose proof (reachable_names s Hs) as Hn. split; [exact Hn|].
intros n. rewrite (Hn n).
pose proof (startup_names (Engine.db s) n) as Hst.
by rewrite startup_store_tasks in Hst.
Qed.

Lemma task_names_agree_witness :
    let s := (Engine.task_add (JsString.str " t ") (JsString.str "http")
                (JsString.str "x") [] [] (Engine.startup Store.empty_db)).2 in
    (Engine.has_task (JsString.str "t") (Engine.gTasks s) ↔
       is_Some (Store.tasks (Engine.db s) !! JsString.str "t") ∧
       JsString.trim (JsString.str "t") ≠ []) ∧
    (Engine.has_task (JsString.str "t")
       (Engine.gTasks (Engine.startup (Engine.db s))) ↔
     Engine.has_task (JsString.str "t") (Engine.gTasks s)).
Proof.
intros s.
assert (Hreach : Engine.reachable s).
{ eapply (Engine.reach_step Macro.midnight
            (Engine.OpTaskAdd (JsString.str " t ") (JsString.str "http")
               (JsString.str "x") [] []));
    [apply Engine.reach_startup|reflexivity]. }
destruct (task_names_agree s Hreach) as [H1 H2].
split; [apply H1|apply H2].
Defined.

(** X11.  An exported configuration brings the server back.  For a
    running server whose cached task names are trimmed, [/api/reload] of
    what [/api/cfg/export] wrote gives the tasks that the cache held, in
    their order, and a routine with the same task and period for every
    routine that was running, each with its timer. *)
Theorem export_reload_restores s :
    Engine.reachable s →
    Forall (λ t, JsString.trim (Task.name t) = Task.name t) (Engine.gTasks s) →
    let s' := Engine.reload_load (Views.cfg_export s) (Engine.reload_reset s) in
    let name_time := λ i, (Interval.name i, Interval.time i) in
    Engine.gTasks s' = Engine.gTasks s ∧
    name_time <$> Engine.gIntervals s' = name_time <$> Engine.gIntervals s ∧
    Views.task_timers (Engine.timers s') =
      Views.interval_entries (Engine.gIntervals s').
Proof.
intros Hs Htrim s' name_time.
pose proof (reachable_consistent s Hs) as [Horph _ _ _ _ _].
pose proof (reachable_names s Hs) as Hn.
assert (Hkept : Forall (λ t, JsString.trim (Task.name t) = Task.name t ∧
                             Task.name t ≠ []) (Engine.gTasks s)).
{ rewrite Forall_forall in Htrim. apply Forall_forall. intros t Ht.
  split; [by apply Htrim|]. rewrite <- (Htrim t Ht).
  apply (Hn (Task.name t)). by exists t. }
assert (Hreach : Engine.reachable s').
{ eapply (Engine.reach_step Macro.midnight
            (Engine.OpReloadLoad (Views.cfg_export s))); [|reflexivity].
  eapply (Engine.reach_step Macro.midnight Engine.OpReloadReset);
    [exact Hs|reflexivity]. }
split; [|split; [|by apply reachable_listed]].
- subst s'. unfold Engine.reload_load, Engine.load_config.
  rewrite tasksToUpsert_export, routinesToAdd_export.
  destruct (load_routines_spec
              ((λ i, (Interval.name i, Interval.time i)) <$> Engine.gIntervals s)
              (fold_left (Engine.load_task false) (Engine.gTasks s)
                 (Engine.reload_reset s))) as [-> _].
  by rewrite reload_tasks_spec.
- subst s' name_time. unfold Engine.reload_load, Engine.load_config.
  rewrite tasksToUpsert_export, routinesToAdd_export.
  destruct (load_routines_spec
              ((λ i, (Interval.name i, Interval.time i)) <$> Engine.gIntervals s)
              (fold_left (Engine.load_task false) (Engine.gTasks s)
                 (Engine.reload_reset s))) as [_ ->].
  rewrite load_tasks_intervals, reload_tasks_spec by done.
  cbn [Engine.reload_reset Engine.restart Engine.gIntervals Engine.gTasks
       Engine.with_gTasksLog Engine.with_gTasks Engine.with_db
       Engine.clearAllIntervals Engine.with_gIntervals fmap list_fmap app].
  apply filter_all_in. intros r Hr.
  apply list_elem_of_fmap in Hr as (i & -> & Hi). cbn.
  apply task_exists_spec. by apply Horph.
Qed.

Lemma export_reload_restores_witness :
    match Engine.interval_add (JsString.str "t") (JsString.str "60000")
            (Engine.task_add (JsString.str "t") (JsString.str "http")
               (JsString.str "x") [] [] (Engine.startup Store.empty_db)).2 with
    | Some (_, s) =>
        let s' := Engine.reload_load (Views.cfg_export s) (Engine.reload_reset s) in
        Engine.gTasks s' = Engine.gTasks s ∧
        (λ i, (Interval.name i, Interval.time i)) <$> Engine.gIntervals s' =
        (λ i, (Interval.name i, Interval.time i)) <$> Engine.gIntervals s
    | None => False
    end.
Proof.
destruct (Engine.interval_add _ _ _) as [[status s]|] eqn:Hadd;
  [|vm_compute in Hadd; discriminate].
assert (Hreach : Engine.reachable s).
{ eapply (Engine.reach_step Macro.midnight
            (Engine.OpIntervalAdd (JsString.str "t") (JsString.str "60000")));
    [|cbn [Engine.step]; by rewrite Hadd].
  eapply (Engine.reach_step Macro.midnight
            (Engine.OpTaskAdd (JsString.str "t") (JsString.str "http")
               (JsString.str "x") [] []));
    [apply Engine.reach_startup|reflexivity]. }
assert (Htrim : Forall (λ t, JsString.trim (Task.name t) = Task.name t)
                  (Engine.gTasks s)).
{ vm_compute in Hadd. injection Hadd as _ <-. by repeat constructor. }
destruct (export_reload_restores s Hreach Htrim) as (H1 & H2 & _).
split; [exact H1|exact H2].
Defined.

(** X12.  The routines of a configuration file.  [/api/cfg/import]
    and [/api/reload] load the tasks of the file first; then every routine
    entry whose name has a task in the cache gets a new entry of
    [gIntervals] with its timer, in the order of the file, behind the
    entries that were there, and the others are skipped.  No entry is
    replaced: a routine that is imported again runs twice. *)
Theorem config_routines_follow_tasks replace parsed s :
    let s' := Engine.load_config replace parsed s in
    let name_time := λ i, (Interval.name i, Interval.time i) in
    ∃ added,
      Engine.gIntervals s' = Engine.gIntervals s ++ added ∧
      Views.task_timers (Engine.timers s') =
        Views.task_timers (Engine.timers s) ++ Views.interval_entries added ∧
      name_time <$> added =
        filter (λ r, Engine.task_exists r.1 (Engine.gTasks s') = true)
               (Engine.routinesToAdd parsed).
Proof.
cbn zeta. unfold Engine.load_config.
set (s1 := fold_left (Engine.load_task replace) (Engine.tasksToUpsert parsed) s).
destruct (load_routines_full (Engine.routinesToAdd parsed) s1)
  as (added & Ht & Hi & Htm & Hadded).
exists added. subst s1.
rewrite load_tasks_intervals in Hi. rewrite load_tasks_timers in Htm.
by rewrite Ht.
Qed.



(** X14.  Adding a task is an upsert.  [/api/task/add] answers 400 and
    changes nothing when the trimmed name is empty.  Otherwise it answers
    200, and the task with the trimmed name is what a run then finds under
    that name in the cache and what the table holds for it; the tasks and
    the rows of other names are as they were, and the cache grows by one
    only when it held no task of that name. *)
Theorem task_add_upserts name type data pType pData s :
    let tName := JsString.trim name in
    let task := {| Task.name := tName; Task.type := type; Task.data := data;
                   Task.postType := pType; Task.postData := pData |} in
    let r := Engine.task_add name type data pType pData s in
    (tName = [] → r = (400, s)) ∧
    (tName ≠ [] →
       r.1 = 200 ∧
       (∃ i, list_find (λ ob, Task.name ob = tName) (Engine.gTasks r.2) =
             Some (i, task)) ∧
       Store.tasks (Engine.db r.2) !! tName =
         Some {| Store.type := type; Store.data := data;
                 Store.postType := pType; Store.postData := pData |} ∧
       (∀ n, n ≠ tName →
             Store.tasks (Engine.db r.2) !! n = Store.tasks (Engine.db s) !! n) ∧
       (∀ t, Task.name t ≠ tName →
             t ∈ Engine.gTasks r.2 ↔ t ∈ Engine.gTasks s) ∧
       length (Engine.gTasks r.2) =
         if Engine.task_exists tName (Engine.gTasks s)
         then length (Engine.gTasks s) else S (length (Engine.gTasks s))).
Proof.
intros tName task r. subst tName task r. unfold Engine.task_add. cbv zeta.
destruct (JsString.trim name) as [|c nm] eqn:Hnm; [done|].
split; [done|]. intros _.
set (tName := c :: nm).
set (task := {| Task.name := tName; Task.type := type; Task.data := data;
                Task.postType := pType; Task.postData := pData |}).
cbn -[list_find].
destruct (list_find _ (Engine.gTasks s)) as [[idx old]|] eqn:Hfind; cbn.
- pose proof (list_find_name _ _ _ _ Hfind) as [Hi Hn].
  apply list_find_Some in Hfind as (_ & _ & Hbefore).
  assert (Hex : Engine.task_exists tName (Engine.gTasks s) = true).
  { apply task_exists_spec. exists old. split; [by eapply list_elem_of_lookup_2|done]. }
  rewrite Hex. split_and!; try done.
  + exists idx. apply list_find_Some. split_and!; try done.
    * apply list_lookup_insert_eq. by eapply lookup_lt_Some.
    * intros j y Hj Hlt. rewrite list_lookup_insert_ne in Hj by lia. eauto.
  + apply lookup_insert_eq.
  + intros n Hn'. by rewrite lookup_insert_ne.
  + intros t Ht. split.
    * intros Hin. apply elem_of_insert_inv in Hin as [->|?]; done.
    * intros Hin. apply list_elem_of_lookup in Hin as [j Hj].
      apply (list_elem_of_lookup_2 _ j). rewrite list_lookup_insert_ne; [done|].
      intros <-. congruence.
  + by rewrite length_insert.
- assert (Hex : Engine.task_exists tName (Engine.gTasks s) = false).
  { apply task_exists_false. intros (t & Ht & Hn).
    apply list_find_None in Hfind. rewrite Forall_forall in Hfind.
    by apply (Hfind t). }
  rewrite Hex. split_and!; try done.
  + exists (length (Engine.gTasks s)). apply list_find_snoc; [|done].
    apply list_find_None in Hfind. by rewrite Forall_forall in Hfind.
  + apply lookup_insert_eq.
  + intros n Hn'. by rewrite lookup_insert_ne.
  + intros t Ht. rewrite elem_of_app, list_elem_of_singleton. split; [|by left].
    intros [?| ->]; done.
  + rewrite length_app. cbn. lia.
Qed.

Lemma task_add_upserts_witness :
    let s := Engine.startup Store.empty_db in
    Engine.task_add (JsString.str "  ") (JsString.str "http") [] [] [] s = (400, s) ∧
    (Engine.task_add (JsString.str " t ") (JsString.str "http") [] [] [] s).1 = 200 ∧
    Store.tasks (Engine.db
      (Engine.task_add (JsString.str " t ") (JsString.str "http") [] [] [] s).2)
      !! JsString.str "t" =
    Some {| Store.type := JsString.str "http"; Store.data := [];
            Store.postType := []; Store.postData := [] |}.
Proof.
intros s.
destruct (task_add_upserts (JsString.str "  ") (JsString.str "http") [] [] [] s)
  as [H400 _].
destruct (task_add_upserts (JsString.str " t ") (JsString.str "http") [] [] [] s)
  as [_ H200].
split; [by apply H400|].
destruct H200 as (H1 & _ & H2 & _); [done|]. split; [exact H1|exact H2].
Defined.

Section LogRoute.
Import JsString JsNumber Views.

Lemma lower_digit c : is_digit c = true → lower c = c.
Proof.
destruct c as [[] [] [] [] [] [] [] []]; try discriminate; reflexivity.
Qed.

(** An id that starts with a digit or a sign is handed to the handler. *)
Lemma reaches_numeral c ds :
  is_digit c = true ∨ c = "-"%char → reaches_logid (c :: ds) = true.
Proof.
intros Hc. unfold reaches_logid.
rewrite !bool_decide_eq_false_2; [done| | |done].
- rewrite fmap_cons. intros [= Hl _]. destruct Hc as [Hc| ->]; [|done].
  rewrite lower_digit in Hl by done. by subst c.
- rewrite fmap_cons. intros [= Hl _]. destruct Hc as [Hc| ->]; [|done].
  rewrite lower_digit in Hl by done. by subst c.
Qed.

Lemma reaches_decimal n : reaches_logid (decimal n) = true.
Proof.
pose proof (decimal_all n) as Hd.
destruct (decimal n) as [|c ds] eqn:Hn; [by apply decimal_nonempty in Hn|].
apply reaches_numeral. left. by apply Forall_inv in Hd.
Qed.

End LogRoute.



(** ** Routines and their handles *)

Section Handles.
Import JsString JsNumber Macro Engine Views Agreement.

Lemma unique_frame s s' : timers s' = timers s → handles_unique s → handles_unique s'.
Proof. unfold handles_unique. by intros ->. Qed.

Lemma unique_schedule s s' cb ms :
  consistent s →
  timers s' = timers s ++ [{| tid := next_tid s; callback := cb; delay := ms |}] →
  handles_unique s → handles_unique s'.
Proof.
unfold handles_unique. intros [_ _ _ _ _ Hfresh] -> Hs.
rewrite fmap_app. apply NoDup_app. split; [done|]. split; [|apply NoDup_singleton].
intros x Hx Hx'. apply list_elem_of_singleton in Hx' as ->.
apply list_elem_of_fmap in Hx as (tm & Hid & Htm). apply Hfresh in Htm.
cbn in Hid. lia.
Qed.

Lemma unique_filter s s' (P : Timer → Prop) `{∀ x, Decision (P x)} :
  timers s' = filter P (timers s) → handles_unique s → handles_unique s'.
Proof. unfold handles_unique. intros ->. apply NoDup_fmap_filter. Qed.

Lemma load_task_unique replace s t :
  handles_unique s → handles_unique (load_task replace s t).
Proof.
apply unique_frame. unfold load_task.
destruct (trim (Task.name t)); [done|]. cbn -[list_find].
by destruct (list_find _ _) as [[??]|], replace.
Qed.

Lemma load_routine_unique s r :
  consistent s → handles_unique s → handles_unique (load_routine s r).
Proof.
intros Hc Hs. unfold load_routine.
destruct (task_exists r.1 (gTasks s)); [|done].
by apply (unique_schedule s _ (RunTask r.1) r.2).
Qed.

Lemma rehydrate_unique pending s def :
  consistent_upto pending s → handles_unique s → handles_unique (rehydrate s def).
Proof.
intros [_ _ _ _ _ Hfresh] Hs. unfold rehydrate.
destruct (task_exists def.1 (gTasks s)); cbn [negb]; [|by apply (unique_frame s)].
unfold handles_unique in *. cbn. rewrite fmap_app.
apply NoDup_app. split; [done|]. split; [|apply NoDup_singleton].
intros x Hx Hx'. apply list_elem_of_singleton in Hx' as ->.
apply list_elem_of_fmap in Hx as (tm & Hid & Htm). apply Hfresh in Htm.
cbn in Hid. lia.
Qed.

Lemma load_config_unique replace parsed s :
  consistent s → handles_unique s → handles_unique (load_config replace parsed s).
Proof.
intros Hc Hs. unfold load_config.
apply (fold_left_keeps (λ s, consistent s ∧ handles_unique s)).
- intros s1 r [??]. split; [by apply load_routine_consistent|by apply load_routine_unique].
- apply (fold_left_keeps (λ s, consistent s ∧ handles_unique s)); [|done].
  intros s1 t [??]. split; [by apply load_task_consistent|by apply load_task_unique].
Qed.

Lemma startup_unique d : handles_unique (startup d).
Proof.
unfold startup. set (s0 := with_gTasksLog _ _).
assert (H0 : consistent_upto (Store.getAllIntervalDefs d).*1 s0 ∧ handles_unique s0).
{ split; [|by apply NoDup_singleton]. split; cbn.
  - by intros i ?%elem_of_nil.
  - intros n [ms Hn]. right. apply list_elem_of_fmap. exists (n, ms).
    split; [done|]. by apply order_by_name_elem.
  - intros t Ht. apply list_elem_of_filter in Ht as [_ Ht].
    by apply getAllTasks_elem.
  - constructor.
  - by intros i ?%elem_of_nil.
  - intros tm Htm. apply list_elem_of_singleton in Htm as ->. cbn. lia. }
revert H0. generalize s0. clear s0.
induction (Store.getAllIntervalDefs d) as [|def L IH]; intros s0 [Hc Hu]; [done|].
cbn [fold_left]. apply IH. split.
- by apply rehydrate_consistent.
- by eapply rehydrate_unique.
Qed.

Lemma step_unique e o s s' :
  consistent s → handles_unique s → step e o s = Some s' → handles_unique s'.
Proof.
intros Hc Hs.
destruct o as [name ty d pt pd|name|tName| |name time|iid|p| | |p|i|m]; cbn.
- intros [= <-]. apply (unique_frame s); [|done]. unfold task_add.
  destruct (trim name); [done|]. cbn -[list_find].
  by destruct (list_find _ _) as [[??]|].
- destruct (doTask e name s) as [[s1 effs]|] eqn:Hrun; [|done].
  intros [= <-]. apply doTask_store in Hrun as (_ & _ & _ & Htm & _).
  by apply (unique_frame s).
- intros [= <-]. unfold task_del. set (s1 := with_gTasks _ (with_db _ s)).
  destruct (clear_loop_timers
              (λ s inte, with_db (Store.deleteIntervalDef (Interval.name inte) (db s)) s)
              Interval.id
              (filter (λ inte, Interval.name inte = tName) (gIntervals s1))
              ltac:(done) s1) as [Htm _].
  by eapply (unique_filter s); [exact Htm|].
- intros [= <-]. by apply (unique_frame s).
- destruct (interval_add name time s) as [r|] eqn:Hadd; [|done].
  intros [= <-]. revert Hadd. unfold interval_add.
  destruct (parseInt time) as [intTime|]; [|done]. cbn.
  destruct (trim name) as [|c nm]; [by intros [= <-]|].
  destruct intTime as [ms|]; [|by intros [= <-]].
  destruct (ms <=? 0); [by intros [= <-]|].
  destruct (task_exists (c :: nm) (gTasks s)); [|by intros [= <-]].
  cbn. intros [= <-]. by apply (unique_schedule s _ (RunTask (c :: nm)) ms).
- intros [= <-]. destruct iid as [z|]; [|done]. unfold interval_kill.
  destruct (list_find _ (gIntervals s)) as [[??]|]; destruct (0 <=? z);
    first [by apply (unique_frame s)
          |by eapply (unique_filter s); [reflexivity|]].
- intros [= <-]. by apply load_config_unique.
- intros [= <-]. unfold restart, clearAllIntervals.
  destruct (clear_loop_timers (λ s (_ : Interval.t), s) Interval.id
              (gIntervals s) ltac:(done) s) as [Htm _].
  by eapply (unique_filter s); [exact Htm|].
- intros [= <-]. unfold reload_reset, restart, clearAllIntervals.
  destruct (clear_loop_timers (λ s (_ : Interval.t), s) Interval.id
              (gIntervals s) ltac:(done) s) as [Htm _].
  by eapply (unique_filter s); [exact Htm|].
- intros [= <-]. by apply load_config_unique.
- unfold tick. destruct (list_find _ (timers s)) as [[j t]|]; [|by intros [= <-]].
  destruct (callback t); [by intros [= <-]|].
  destruct (doTask e name s) as [[s1 effs]|] eqn:Hrun; [|done].
  intros [= <-]. apply doTask_store in Hrun as (_ & _ & _ & Htm & _).
  by apply (unique_frame s).
- intros [= <-]. by apply (unique_frame s).
Qed.

Lemma reachable_unique s : reachable s → handles_unique s.
Proof.
induction 1 as [d|e o s s' Hr IH Hstep]; [apply startup_unique|].
eapply step_unique; eauto. by apply reachable_consistent.
Qed.

(** The timer of an entry of [gIntervals] is the one that its handle finds. *)
Lemma tick_of_entry e s i :
  timers_listed s → handles_unique s → i ∈ gIntervals s →
  tick e (Interval.id i) s = doTask e (Interval.name i) s.
Proof.
intros Hl Hu Hi. unfold tick.
assert (Hin : (Interval.name i, Interval.id i, Interval.time i)
              ∈ task_timers (timers s)).
{ rewrite Hl. unfold interval_entries.
  exact (list_elem_of_fmap_2
           (λ i, (Interval.name i, Interval.id i, Interval.time i)) _ _ Hi). }
unfold task_timers in Hin. apply list_elem_of_omap in Hin as (tm & Htm & Hcb).
destruct (callback tm) as [|n] eqn:Hc; [done|]. injection Hcb as -> Hid Hdl.
destruct (list_find (λ t, tid t = Interval.id i) (timers s)) as [[j t]|] eqn:Hfind.
- apply list_find_Some in Hfind as (Hj & Ht & _).
  assert (t = tm) as ->.
  { apply (NoDup_fmap_eq tid (timers s)); auto.
    - by eapply list_elem_of_lookup_2.
    - congruence. }
  by rewrite Hc.
- apply list_find_None in Hfind. rewrite Forall_forall in Hfind.
  by destruct (Hfind tm Htm).
Qed.

End Handles.

Section Killing.
Import JsString JsNumber Macro Engine Views Agreement.

Lemma interval_add_ok s body_name body_time ms :
  parseInt body_time = Some (JNum ms) → 0 < ms →
  has_task (trim body_name) (gTasks s) → trim body_name ≠ [] →
  interval_add body_name body_time s =
  Some (200,
        {| db := Store.addIntervalDef (trim body_name) ms (db s);
           gTasks := gTasks s; gTasksLog := gTasksLog s;
           gIntervals := gIntervals s ++
             [{| Interval.name := trim body_name; Interval.id := next_tid s;
                 Interval.time := ms |}];
           timers := timers s ++
             [{| tid := next_tid s; callback := RunTask (trim body_name);
                 delay := ms |}];
           next_tid := S (next_tid s) |}).
Proof.
intros Hparse Hms Htask Hne. unfold interval_add. rewrite Hparse.
cbn [mbind option_bind]. apply task_exists_spec in Htask.
destruct (trim body_name) as [|c nm]; [done|].
assert ((ms <=? 0) = false) as -> by (apply Z.leb_gt; lia).
by rewrite Htask.
Qed.

Lemma filter_one_out {A B} (f : A → B) `{EqDecision B} (l : list A) x :
  NoDup (f <$> l) → x ∈ l →
  length (filter (λ y, f y ≠ f x) l) = pred (length l).
Proof.
induction l as [|y l IH]; [by intros _ ?%elem_of_nil|].
rewrite fmap_cons, NoDup_cons. intros [Hy Hl] Hx.
apply elem_of_cons in Hx as [->|Hx].
- rewrite filter_cons_False by (by intros ?). cbn.
  rewrite filter_all_in; [done|]. intros z Hz Heq. apply Hy. rewrite <- Heq.
  by apply list_elem_of_fmap_2.
- rewrite filter_cons_True.
  + cbn. rewrite IH by done. destruct l; [by apply elem_of_nil in Hx|done].
  + intros Heq. apply Hy. rewrite Heq. by apply list_elem_of_fmap_2.
Qed.

Lemma interval_kill_db s z :
  consistent s →
  let s' := interval_kill (JNum z) s in
  (∀ i, i ∈ gIntervals s → Z.of_nat (Interval.id i) = z →
     Store.intervals (db s') = delete (Interval.name i) (Store.intervals (db s))) ∧
  ((∀ i, i ∈ gIntervals s → Z.of_nat (Interval.id i) ≠ z) →
     Store.intervals (db s') = Store.intervals (db s)) ∧
  Store.tasks (db s') = Store.tasks (db s) ∧ gTasks s' = gTasks s ∧
  gTasksLog s' = gTasksLog s.
Proof.
intros [_ _ _ Hids _ _]. cbn zeta. unfold interval_kill.
destruct (list_find _ (gIntervals s)) as [[j found]|] eqn:Hfind.
- apply list_find_Some in Hfind as (Hj & Hz & _).
  assert (Hdb : ∀ s1, db (with_gIntervals
                  (filter (λ inte, Z.of_nat (Interval.id inte) ≠ z) (gIntervals s1))
                  s1) = db s1) by done.
  split_and!; try (by destruct (0 <=? z)).
  + intros i Hi Hid.
    assert (i = found) as ->.
    { apply (NoDup_fmap_eq Interval.id (gIntervals s)); auto.
      - by eapply list_elem_of_lookup_2.
      - lia. }
    by destruct (0 <=? z).
  + intros Hnone. destruct (Hnone found); [by eapply list_elem_of_lookup_2|done].
- split_and!; try (by destruct (0 <=? z)).
  intros i Hi Hid. apply list_find_None in Hfind.
  rewrite Forall_forall in Hfind. by destruct (Hfind i Hi).
Qed.

End Killing.

(** X16.  A tick runs the task of its entry.  Whatever a server has done
    since its start, no two timers share a handle, and for every entry of
    [gIntervals] the tick of its handle is a run of the task of its name,
    a task that is in the cache. *)
Theorem routine_tick_runs_its_task e s i :
    Engine.reachable s → i ∈ Engine.gIntervals s →
    NoDup (Engine.tid <$> Engine.timers s) ∧
    Engine.tick e (Interval.id i) s = Engine.doTask e (Interval.name i) s ∧
    Engine.has_task (Interval.name i) (Engine.gTasks s).
Proof.
intros Hs Hi. pose proof (reachable_consistent s Hs) as [Horph _ _ _ _ _].
split; [by apply reachable_unique|]. split; [|by apply Horph].
apply tick_of_entry; [by apply reachable_listed|by apply reachable_unique|done].
Qed.

Lemma routine_tick_runs_its_task_witness :
    match Engine.interval_add (JsString.str "t") (JsString.str "60000")
            (Engine.task_add (JsString.str "t") (JsString.str "http")
               (JsString.str "x") [] [] (Engine.startup Store.empty_db)).2 with
    | Some (_, s) =>
        Engine.tick Macro.midnight 1 s =
        Engine.doTask Macro.midnight (JsString.str "t") s
    | None => False
    end.
Proof.
destruct (Engine.interval_add _ _ _) as [[status s]|] eqn:Hadd;
  [|vm_compute in Hadd; discriminate].
assert (Hreach : Engine.reachable s).
{ eapply (Engine.reach_step Macro.midnight
            (Engine.OpIntervalAdd (JsString.str "t") (JsString.str "60000")));
    [|cbn [Engine.step]; by rewrite Hadd].
  eapply (Engine.reach_step Macro.midnight
            (Engine.OpTaskAdd (JsString.str "t") (JsString.str "http")
               (JsString.str "x") [] []));
    [apply Engine.reach_startup|reflexivity]. }
assert (Hin : {| Interval.name := JsString.str "t"; Interval.id := 1;
                 Interval.time := 60000 |} ∈ Engine.gIntervals s).
{ vm_compute in Hadd. injection Hadd as _ <-. apply list_elem_of_here. }
by destruct (routine_tick_runs_its_task Macro.midnight s _ Hreach Hin)
  as (_ & H & _).
Defined.

(** X17.  Stopping a routine by its handle.  On a running server,
    [/api/task/interval/kill/:iid] with a number removes the entries of
    [gIntervals] with that handle, at most one, stops its timer and no
    task timer else, and deletes the stored definition of its task name,
    even when another routine of that name goes on running; with a handle
    that no entry has, the routines and the definitions stay as they are.
    With an id that is no number nothing changes. *)
Theorem interval_kill_by_handle s z :
    Engine.reachable s →
    let s' := Engine.interval_kill (JsNumber.JNum z) s in
    Engine.interval_kill JsNumber.JNaN s = s ∧
    Engine.gIntervals s' =
      filter (λ i, Z.of_nat (Interval.id i) ≠ z) (Engine.gIntervals s) ∧
    Views.task_timers (Engine.timers s') =
      filter (λ x, Z.of_nat x.1.2 ≠ z) (Views.task_timers (Engine.timers s)) ∧
    Engine.gTasks s' = Engine.gTasks s ∧
    Store.tasks (Engine.db s') = Store.tasks (Engine.db s) ∧
    (∀ i, i ∈ Engine.gIntervals s → Z.of_nat (Interval.id i) = z →
       length (Engine.gIntervals s') = pred (length (Engine.gIntervals s)) ∧
       Store.intervals (Engine.db s') =
         delete (Interval.name i) (Store.intervals (Engine.db s))) ∧
    ((∀ i, i ∈ Engine.gIntervals s → Z.of_nat (Interval.id i) ≠ z) →
       Engine.gIntervals s' = Engine.gIntervals s ∧
       Store.intervals (Engine.db s') = Store.intervals (Engine.db s)).
Proof.
intros Hs s'. subst s'. pose proof (reachable_consistent s Hs) as Hc.
pose proof (reachable_listed s Hs) as Hl.
destruct (interval_kill_db s z Hc) as (Hhit & Hmiss & Ht & Hg & _).
assert (Hgi : Engine.gIntervals (Engine.interval_kill (JsNumber.JNum z) s) =
              filter (λ i, Z.of_nat (Interval.id i) ≠ z) (Engine.gIntervals s)).
{ unfold Engine.interval_kill.
  destruct (list_find _ (Engine.gIntervals s)) as [[??]|]; by destruct (0 <=? z). }
split; [done|]. split; [exact Hgi|]. split; [|split; [done|split; [done|split]]].
- rewrite (interval_kill_listed (JsNumber.JNum z) s Hl), Hgi, Hl.
  apply interval_entries_kill.
- intros i Hi Hid. split; [|by apply Hhit].
  rewrite Hgi. destruct Hc as [_ _ _ Hids _ _].
  rewrite <- (filter_one_out Interval.id (Engine.gIntervals s) i Hids Hi).
  f_equal. apply list_filter_iff. intros y. rewrite <- Hid. lia.
- intros Hnone. split; [|by apply Hmiss].
  rewrite Hgi. by apply filter_all_in.
Qed.

Lemma interval_kill_by_handle_witness :
    match Engine.interval_add (JsString.str "t") (JsString.str "60000")
            (Engine.task_add (JsString.str "t") (JsString.str "http")
               (JsString.str "x") [] [] (Engine.startup Store.empty_db)).2 with
    | Some (_, s) =>
        Engine.gIntervals (Engine.interval_kill (JsNumber.JNum 1) s) = [] ∧
        Views.task_timers
          (Engine.timers (Engine.interval_kill (JsNumber.JNum 1) s)) = []
    | None => False
    end.
Proof.
destruct (Engine.interval_add _ _ _) as [[status s]|] eqn:Hadd;
  [|vm_compute in Hadd; discriminate].
assert (Hreach : Engine.reachable s).
{ eapply (Engine.reach_step Macro.midnight
            (Engine.OpIntervalAdd (JsString.str "t") (JsString.str "60000")));
    [|cbn [Engine.step]; by rewrite Hadd].
  eapply (Engine.reach_step Macro.midnight
            (Engine.OpTaskAdd (JsString.str "t") (JsString.str "http")
               (JsString.str "x") [] []));
    [apply Engine.reach_startup|reflexivity]. }
destruct (interval_kill_by_handle s 1 Hreach) as (_ & H1 & H2 & _).
rewrite H1, H2. vm_compute in Hadd. injection Hadd as _ <-. by vm_compute.
Defined.

(** X18.  One stored definition for a task name.  On a running server,
    a second routine for a task that has one is accepted and runs beside
    the first, each with its own timer, but the table [intervals] keeps
    one period for the name, the last that was added: a new start over
    the store brings back one routine of the task, with that period. *)
Theorem second_routine_overwrites_period s body_name t1 t2 ms1 ms2 :
    Engine.reachable s →
    let name := JsString.trim body_name in
    Engine.has_task name (Engine.gTasks s) →
    JsNumber.parseInt t1 = Some (JsNumber.JNum ms1) → 0 < ms1 →
    JsNumber.parseInt t2 = Some (JsNumber.JNum ms2) → 0 < ms2 →
    ∃ s1 s2,
      Engine.interval_add body_name t1 s = Some (200, s1) ∧
      Engine.interval_add body_name t2 s1 = Some (200, s2) ∧
      Engine.gIntervals s2 =
        Engine.gIntervals s ++
        [{| Interval.name := name; Interval.id := Engine.next_tid s;
            Interval.time := ms1 |};
         {| Interval.name := name; Interval.id := S (Engine.next_tid s);
            Interval.time := ms2 |}] ∧
      Store.intervals (Engine.db s2) !! name = Some ms2 ∧
      ∃ id, filter (λ i, Interval.name i = name)
              (Engine.gIntervals (Engine.startup (Engine.db s2))) =
            [{| Interval.name := name; Interval.id := id; Interval.time := ms2 |}].
Proof.
intros Hs name Htask Hp1 Hms1 Hp2 Hms2.
pose proof (reachable_names s Hs name) as Hn.
destruct (proj1 Hn Htask) as [Hrow Hne].
assert (Hne' : name ≠ []).
{ intros Heq. apply Hne. by rewrite Heq. }
eexists _, _. split; [by apply interval_add_ok|].
split; [by apply interval_add_ok|]. cbn.
split; [by rewrite <- app_assoc|]. split; [apply lookup_insert_eq|].
set (d2 := Store.addIntervalDef _ ms2 _). fold name.
unfold Engine.startup. set (s0 := Engine.with_gTasksLog _ _).
destruct (rehydrate_one name ms2 (Store.getAllIntervalDefs d2) s0
            (order_by_name_NoDup _)) as [_ Hyes].
{ apply order_by_name_elem. subst d2. cbn. apply lookup_insert_eq. }
destruct Hyes as (_ & id & _ & Hint).
- apply task_exists_spec. subst s0. cbn.
  destruct (getAllTasks_has d2 name Hrow) as (t & Ht & Htn).
  exists t. split; [|done]. apply list_elem_of_filter. split; [|done].
  by rewrite Htn.
- exists id. by rewrite Hint.
Qed.

Lemma second_routine_overwrites_period_witness :
    let s := (Engine.task_add (JsString.str "t") (JsString.str "http")
                (JsString.str "x") [] [] (Engine.startup Store.empty_db)).2 in
    ∃ s1 s2,
      Engine.interval_add (JsString.str "t") (JsString.str "60000") s =
        Some (200, s1) ∧
      Engine.interval_add (JsString.str "t") (JsString.str "120000") s1 =
        Some (200, s2) ∧
      length (Engine.gIntervals s2) = 2%nat ∧
      Store.intervals (Engine.db s2) !! JsString.str "t" = Some 120000.
Proof.
intros s.
assert (Hreach : Engine.reachable s).
{ eapply (Engine.reach_step Macro.midnight
            (Engine.OpTaskAdd (JsString.str "t") (JsString.str "http")
               (JsString.str "x") [] []));
    [apply Engine.reach_startup|reflexivity]. }
destruct (second_routine_overwrites_period s (JsString.str "t")
            (JsString.str "60000") (JsString.str "120000") 60000 120000 Hreach)
  as (s1 & s2 & H1 & H2 & H3 & H4 & _).
- apply task_exists_spec. by vm_compute.
- reflexivity.
- lia.
- reflexivity.
- lia.
- exists s1, s2. split; [exact H1|]. split; [exact H2|].
  split; [by rewrite H3|exact H4].
Defined.

(** ** The clipboard and the notes *)

Section PadCaches.
Import JsString Pad.

Lemma last_clip d : getLastClipText d = default [] (last (getClipHistory d)).
Proof.
unfold getLastClipText, getClipHistory. rewrite fmap_last.
by destruct (last (clips d)).
Qed.

Lemma step_mirror o s :
  gClip s = getClipHistory (db s) → gNotes s = getAllNotes (db s) →
  gClip (step o s) = getClipHistory (db (step o s)) ∧
  gNotes (step o s) = getAllNotes (db (step o s)).
Proof.
intros Hc Hn. destruct o; cbn [step].
- unfold clip_save. destruct (trim data); [done|]. cbn.
  unfold getClipHistory in *. cbn. by rewrite fmap_app, Hc.
- done.
- unfold notes_add.
  destruct (bool_decide _ || bool_decide _ || bool_decide _); [done|]. cbn.
  unfold getAllNotes in *. cbn. by rewrite fmap_app, Hn.
- cbn. unfold getAllNotes in *. cbn. split; [done|].
  by rewrite Hn, filter_fmap_comm.
- done.
Qed.

Lemma reachable_mirror d s :
  reachable d s →
  gClip s = getClipHistory (db s) ∧ gNotes s = getAllNotes (db s).
Proof.
induction 1 as [|o s _ [Hc Hn]]; [done|]. by apply step_mirror.
Qed.

Lemma kept_trim s : trim s ≠ [] → kept (trim s).
Proof. intros Hs. split; [done|apply trim_idem]. Qed.

Local Abbreviation note_kept :=
  (λ n : note, kept (name n) ∧ kept (text n) ∧ kept (date n)).

Lemma step_kept o s :
  Forall kept (getClipHistory (db s)) → Forall note_kept (getAllNotes (db s)) →
  Forall kept (getClipHistory (db (step o s))) ∧
  Forall note_kept (getAllNotes (db (step o s))).
Proof.
intros Hc Hn. destruct o as [data| |nm tx dt|nm|]; cbn [step].
- unfold clip_save. destruct (decide (trim data = [])) as [He|Hne].
  { by rewrite He. }
  pose proof (kept_trim _ Hne) as Hk.
  destruct (trim data) as [|c t]; [done|]. cbn [snd db].
  split; [|done]. unfold getClipHistory in *. cbn [addClipEntry clips].
  rewrite fmap_app. apply Forall_app. split; [done|].
  constructor; [done|constructor].
- split; [constructor|done].
- unfold notes_add.
  destruct (bool_decide (trim nm = [])) eqn:H1; [done|].
  destruct (bool_decide (trim tx = [])) eqn:H2; [done|].
  destruct (bool_decide (trim dt = [])) eqn:H3; [done|].
  apply bool_decide_eq_false in H1, H2, H3.
  apply kept_trim in H1, H2, H3. cbn [orb snd db].
  split; [done|]. unfold getAllNotes in *. cbn [addNoteEntry notes].
  rewrite fmap_app. apply Forall_app. split; [done|].
  constructor; [done|constructor].
- cbn. split; [done|]. unfold getAllNotes in *. cbn.
  rewrite Forall_fmap, Forall_forall in *.
  intros x Hx. apply list_elem_of_filter in Hx as [_ Hx]. by apply Hn.
- split; constructor.
Qed.

Lemma reachable_kept d s :
  Forall kept (getClipHistory d) → Forall note_kept (getAllNotes d) →
  reachable d s →
  Forall kept (getClipHistory (db s)) ∧ Forall note_kept (getAllNotes (db s)).
Proof.
intros Hc Hn. induction 1 as [|o s _ [Hc' Hn']]; [done|]. by apply step_kept.
Qed.

End PadCaches.

(** X19.  The clipboard and note caches mirror their tables.
    Whatever the server has done since its start, [gClip] is what
    [getClipHistory()] returns and [gNotes] what [getAllNotes()] returns,
    so that the [catch] branch of [/api/clip] would give the answer of
    its [try] branch. *)
Theorem pad_caches_mirror_tables d s :
    Pad.reachable d s →
    Pad.gClip s = Pad.getClipHistory (Pad.db s) ∧
    Pad.gNotes s = Pad.getAllNotes (Pad.db s) ∧
    Pad.clip_get_fallback s = Pad.clip_get s.
Proof.
intros Hs. destruct (reachable_mirror d s Hs) as [Hc Hn].
split; [done|]. split; [done|].
unfold Pad.clip_get_fallback, Pad.clip_get. by rewrite last_clip, Hc.
Qed.

Lemma pad_caches_mirror_tables_witness :
    let s := Pad.step (Pad.OpNotesDel (JsString.str "a"))
               (Pad.step (Pad.OpClipSave (JsString.str " x "))
                  (Pad.step (Pad.OpNotesAdd (JsString.str "a") (JsString.str "b")
                               (JsString.str "c"))
                     (Pad.startup Pad.empty_db))) in
    Pad.gClip s = Pad.getClipHistory (Pad.db s) ∧
    Pad.gNotes s = Pad.getAllNotes (Pad.db s) ∧
    Pad.clip_get_fallback s = Pad.clip_get s.
Proof.
intros s. apply (pad_caches_mirror_tables Pad.empty_db).
do 3 apply Pad.reach_step. apply Pad.reach_startup.
Defined.

(** X20.  Nothing blank is stored.  When the clips and the note fields
    that the server finds at its start are trimmed and not empty, so are
    all that it holds later: the routes store the trimmed text and refuse
    an empty one. *)
Theorem pad_entries_stay_trimmed d s :
    let note_kept n :=
      Pad.kept (Pad.name n) ∧ Pad.kept (Pad.text n) ∧ Pad.kept (Pad.date n) in
    Forall Pad.kept (Pad.getClipHistory d) →
    Forall note_kept (Pad.getAllNotes d) →
    Pad.reachable d s →
    Forall Pad.kept (Pad.gClip s) ∧ Forall note_kept (Pad.gNotes s).
Proof.
intros note_kept Hc Hn Hs. destruct (reachable_mirror d s Hs) as [-> ->].
by apply (reachable_kept d).
Qed.

Lemma pad_entries_stay_trimmed_witness :
    Forall Pad.kept
      (Pad.gClip (Pad.step (Pad.OpClipSave (JsString.str " x "))
                    (Pad.startup Pad.empty_db))).
Proof.
apply (pad_entries_stay_trimmed Pad.empty_db);
  [constructor|constructor|].
apply Pad.reach_step, Pad.reach_startup.
Defined.

(** X21.  Saving a clip and reading it back.  [/api/clip/save]
    answers 400 and changes nothing when the trimmed text is empty;
    otherwise it answers 200, the trimmed text is the last entry of the
    history, behind the entries that were there, and [/api/clip] answers
    with it; [/api/clip/erase] leaves an empty history and the empty
    string as the answer of [/api/clip]. *)
Theorem clip_save_reads_back data s :
    let text := JsString.trim data in
    let r := Pad.clip_save data s in
    (text = [] → r = (400, s)) ∧
    (text ≠ [] →
       r.1 = 200 ∧ Pad.clip_get r.2 = text ∧
       Pad.getClipHistory (Pad.db r.2) = Pad.getClipHistory (Pad.db s) ++ [text] ∧
       Pad.gClip r.2 = Pad.gClip s ++ [text] ∧
       Pad.getAllNotes (Pad.db r.2) = Pad.getAllNotes (Pad.db s)) ∧
    Pad.getClipHistory (Pad.db (Pad.clip_erase r.2)) = [] ∧
    Pad.clip_get (Pad.clip_erase r.2) = [].
Proof.
intros text r. subst text r. unfold Pad.clip_save.
destruct (JsString.trim data) as [|c t]; [done|].
split; [done|]. split; [|done]. intros _. cbn. split_and!; try done.
- unfold Pad.clip_get, Pad.getLastClipText. cbn. by rewrite last_snoc.
- unfold Pad.getClipHistory. cbn. by rewrite fmap_app.
Qed.

Lemma clip_save_reads_back_witness :
    Pad.clip_save (JsString.str "  ") (Pad.startup Pad.empty_db) =
      (400, Pad.startup Pad.empty_db) ∧
    Pad.clip_get (Pad.clip_save (JsString.str " x ") (Pad.startup Pad.empty_db)).2 =
      JsString.str "x".
Proof.
destruct (clip_save_reads_back (JsString.str "  ") (Pad.startup Pad.empty_db))
  as (H400 & _).
destruct (clip_save_reads_back (JsString.str " x ") (Pad.startup Pad.empty_db))
  as (_ & H200 & _).
split; [by apply H400|]. by destruct H200 as (_ & H & _).
Defined.

(** X22.  Adding and deleting notes.  [/api/notes/add] answers 400 and
    changes nothing when the trimmed name, text or date is empty;
    otherwise it answers 200 and the note of the trimmed fields is the
    last of [getAllNotes()].  Names are not unique: a second note of a
    name is kept beside the first.  [/api/notes/del/:name] removes every
    note of that name, from the table and from the cache, and keeps the
    others in their order. *)
Theorem notes_add_and_delete name text date noteName s :
    let nName := JsString.trim name in
    let nText := JsString.trim text in
    let nDate := JsString.trim date in
    let note := {| Pad.name := nName; Pad.text := nText; Pad.date := nDate |} in
    let r := Pad.notes_add name text date s in
    (nName = [] ∨ nText = [] ∨ nDate = [] → r = (400, s)) ∧
    (nName ≠ [] → nText ≠ [] → nDate ≠ [] →
       r.1 = 200 ∧
       Pad.getAllNotes (Pad.db r.2) = Pad.getAllNotes (Pad.db s) ++ [note] ∧
       Pad.gNotes r.2 = Pad.gNotes s ++ [note] ∧
       Pad.getClipHistory (Pad.db r.2) = Pad.getClipHistory (Pad.db s)) ∧
    Pad.getAllNotes (Pad.db (Pad.notes_del noteName s)) =
      filter (λ n, Pad.name n ≠ noteName) (Pad.getAllNotes (Pad.db s)) ∧
    Pad.gNotes (Pad.notes_del noteName s) =
      filter (λ n, Pad.name n ≠ noteName) (Pad.gNotes s).
Proof.
intros nName nText nDate note r. subst nName nText nDate note r.
unfold Pad.notes_add. split_and!.
- intros H.
  destruct (bool_decide (JsString.trim name = [])) eqn:H1; [done|].
  destruct (bool_decide (JsString.trim text = [])) eqn:H2; [done|].
  destruct (bool_decide (JsString.trim date = [])) eqn:H3; [done|].
  apply bool_decide_eq_false in H1, H2, H3. tauto.
- intros H1 H2 H3. rewrite !bool_decide_eq_false_2 by done. cbn.
  split_and!; try done. unfold Pad.getAllNotes. cbn. by rewrite fmap_app.
- unfold Pad.getAllNotes. cbn. by rewrite filter_fmap_comm.
- done.
Qed.

Lemma notes_add_and_delete_witness :
    let s := Pad.startup Pad.empty_db in
    Pad.notes_add (JsString.str "a") (JsString.str " ") (JsString.str "c") s =
      (400, s) ∧
    Pad.gNotes (Pad.notes_add (JsString.str "a ") (JsString.str "b")
                  (JsString.str "c") s).2 =
      [{| Pad.name := JsString.str "a"; Pad.text := JsString.str "b";
          Pad.date := JsString.str "c" |}].
Proof.
intros s.
destruct (notes_add_and_delete (JsString.str "a") (JsString.str " ")
            (JsString.str "c") [] s) as (H400 & _).
destruct (notes_add_and_delete (JsString.str "a ") (JsString.str "b")
            (JsString.str "c") [] s) as (_ & H200 & _).
split; [apply H400; right; by left|].
by destruct H200 as (_ & _ & H & _).
Defined.

Section RunsInARow.
Import JsString JsNumber Macro Engine.

(** One run, refused or not, as a step on the cached task. *)
Lemma doTask_step refused e tName s s' effs i a :
  list_find (λ ob, Task.name ob = tName) (gTasks s) = Some (i, a) →
  Runtime.doTask refused e tName s = Some (s', effs) →
  ∃ a',
    list_find (λ ob, Task.name ob = tName) (gTasks s') = Some (i, a') ∧
    advanceTemplate (Task.data a) = Some (Task.data a') ∧
    advanceTemplate (Task.postData a) = Some (Task.postData a') ∧
    Store.tasks (db s') = Store.tasks (db s) ∧
    ((∀ r, refused r = None) → db s' = db s).
Proof.
intros Hfind Hrun.
destruct (doTask_outcome refused e tName s s' effs i a Hfind Hrun)
  as (a' & data & postData & Had & Hap & _ & _ & Hname & _ & _ & Hout).
exists a'.
assert (Hf : list_find (λ ob, Task.name ob = tName) (<[i := a']> (gTasks s)) =
             Some (i, a')).
{ apply (list_find_insert_same _ _ _ a); [done|].
  rewrite Hname. by apply list_find_name in Hfind as [_ ?]. }
destruct (refused (build_request a data postData)) as [message|] eqn:Href;
  destruct Hout as [-> _]; split_and!; try done.
intros Hacc. by rewrite Hacc in Href.
Qed.

Lemma runs_follow refused e tName (n : nat) s i a : ∀ s',
  list_find (λ ob, Task.name ob = tName) (gTasks s) = Some (i, a) →
  Runtime.run_times refused e tName n s = Some s' →
  ∃ a',
    list_find (λ ob, Task.name ob = tName) (gTasks s') = Some (i, a') ∧
    later_runs n (Task.data a) = Some (Task.data a') ∧
    later_runs n (Task.postData a) = Some (Task.postData a') ∧
    Store.tasks (db s') = Store.tasks (db s) ∧
    ((∀ r, refused r = None) → db s' = db s).
Proof.
intros s' Hfind. revert s'. induction n as [|n IH]; intros s' Hrun.
- injection Hrun as <-. by exists a.
- rewrite run_times_S in Hrun.
  destruct (Runtime.run_times refused e tName n s) as [sn|] eqn:Hn; [|done].
  cbn in Hrun.
  destruct (Runtime.doTask refused e tName sn) as [[s1 effs]|] eqn:Hdo; [|done].
  injection Hrun as ->.
  destruct (IH sn eq_refl) as (an & Hfn & Hdn & Hpn & Hts & Hdb).
  destruct (doTask_step refused e tName sn s' effs i an Hfn Hdo)
    as (a' & Hf' & Had & Hap & Hts' & Hdb').
  exists a'. split_and!; try done.
  + by rewrite later_runs_S, Hdn.
  + by rewrite later_runs_S, Hpn.
  + congruence.
  + intros Hacc. rewrite Hdb', Hdb; done.
Qed.

End RunsInARow.



